(** * matrixcube: in-memory storage, prophet client, scheduler steps

    A shallow embedding of the parts of matrixcube that its specification
    makes checkable statements about:

    - [storage/mem/storage.go]: the in-memory data storage with its
      statistics counters, TTL encoding and snapshot files;
    - the joint-consensus operator step [ChangePeerV2Enter];
    - the evict-leader scheduler ([schedulers/evict_leader.go]);
    - the prophet client's [syncDo] retry loop and [Close];
    - the system-time monitor [StartMonitor].

    Byte slices are [list byte]; unsigned 64-bit counters are [Z] with the
    wrap-around of the machine addition written out. *)

From Stdlib Require Import ZArith List Lia Bool Sorted.
From Stdlib Require Import Strings.Byte.
From stdpp Require Import base gmap sets list strings.

Import ListNotations.
Local Open Scope Z_scope.

(** ** Byte slices *)

Module Bytes.

Definition bytes := list byte.

(** [len(b)] as a Go [int]. *)
Definition len (b : bytes) : Z := Z.of_nat (length b).

Definition byte_val (b : byte) : Z := Z.of_N (Byte.to_N b).

(** The conversion [byte(z)]: the low eight bits of [z]. *)
Definition byte_of_Z (z : Z) : byte :=
  match Byte.of_N (Z.to_N (z mod 256)) with
  | Some b => b
  | None => x00
  end.

(** [bytes.Compare]: lexicographic order on unsigned bytes. *)
Fixpoint Compare (a b : bytes) : comparison :=
  match a, b with
  | [], [] => Eq
  | [], _ :: _ => Lt
  | _ :: _, [] => Gt
  | x :: a', y :: b' =>
      match N.compare (Byte.to_N x) (Byte.to_N y) with
      | Eq => Compare a' b'
      | c => c
      end
  end.

Definition ltb (a b : bytes) : bool :=
  match Compare a b with Lt => true | _ => false end.

Definition eqb (a b : bytes) : bool :=
  match Compare a b with Eq => true | _ => false end.

(** [start <= k < end], the half-open key range of the storage API. *)
Definition in_range (start end_ k : bytes) : bool :=
  negb (ltb k start) && ltb k end_.

(** [binary.BigEndian.PutUint32] applied to [uint32(n)]. *)
Definition PutUint32 (n : Z) : bytes :=
  let u := n mod 2 ^ 32 in
  [ byte_of_Z (Z.shiftr u 24); byte_of_Z (Z.shiftr u 16);
    byte_of_Z (Z.shiftr u 8); byte_of_Z u ].

(** Big-endian value of a byte sequence ([binary.BigEndian.Uint32] on four
    bytes, the unsigned reading of [buf.Byte2Int64] on eight). *)
Definition be_value (b : bytes) : Z :=
  fold_left (fun acc x => acc * 256 + byte_val x) b 0.

Definition Uint32 (b : bytes) : Z := be_value (firstn 4 b).

(** [buf.Int64ToBytesTo]: the eight big-endian bytes of the two's
    complement representation of a signed 64-bit integer. *)
Definition Int64ToBytes (v : Z) : bytes :=
  let u := v mod 2 ^ 64 in
  [ byte_of_Z (Z.shiftr u 56); byte_of_Z (Z.shiftr u 48);
    byte_of_Z (Z.shiftr u 40); byte_of_Z (Z.shiftr u 32);
    byte_of_Z (Z.shiftr u 24); byte_of_Z (Z.shiftr u 16);
    byte_of_Z (Z.shiftr u 8); byte_of_Z u ].

(** [buf.Byte2Int64]: the signed reading of the first eight bytes.  The Go
    function indexes [data[0..7]] and panics on a shorter slice, which is
    [None] here. *)
Definition Byte2Int64 (b : bytes) : option Z :=
  if (length b <? 8)%nat then None
  else
    let u := be_value (firstn 8 b) in
    Some (if u <? 2 ^ 63 then u else u - 2 ^ 64).

Lemma byte_val_range (b : byte) : 0 <= byte_val b < 256.
Proof.
  unfold byte_val. pose proof (Byte.to_N_bounded b). lia.
Qed.

Lemma byte_val_of_Z (z : Z) : byte_val (byte_of_Z z) = z mod 256.
Proof.
  unfold byte_val, byte_of_Z.
  assert (Hr : 0 <= z mod 256 < 256) by (apply Z.mod_pos_bound; lia).
  destruct (Byte.of_N (Z.to_N (z mod 256))) as [b|] eqn:E.
  - apply Byte.to_of_N in E. rewrite E. lia.
  - apply Byte.of_N_None_iff in E. lia.
Qed.

Lemma to_N_inj (x y : byte) : Byte.to_N x = Byte.to_N y -> x = y.
Proof.
  intros H. pose proof (Byte.of_to_N x) as Hx.
  rewrite H, Byte.of_to_N in Hx. congruence.
Qed.

Lemma Compare_refl (a : bytes) : Compare a a = Eq.
Proof.
  induction a as [|x a IH]; simpl; [reflexivity|].
  now rewrite N.compare_refl.
Qed.

Lemma Compare_eq (a b : bytes) : Compare a b = Eq -> a = b.
Proof.
  revert b. induction a as [|x a IH]; intros [|y b]; simpl; try discriminate.
  - reflexivity.
  - destruct (N.compare_spec (Byte.to_N x) (Byte.to_N y)) as [E|E|E];
      try discriminate.
    intros H. apply to_N_inj in E. subst y. f_equal. now apply IH.
Qed.

Lemma Compare_antisym (a b : bytes) : Compare b a = CompOpp (Compare a b).
Proof.
  revert b. induction a as [|x a IH]; intros [|y b]; simpl; try reflexivity.
  rewrite (N.compare_antisym (Byte.to_N x) (Byte.to_N y)).
  destruct (N.compare (Byte.to_N x) (Byte.to_N y)); simpl; auto.
Qed.

Lemma Compare_lt_trans (a b c : bytes) :
  Compare a b = Lt -> Compare b c = Lt -> Compare a c = Lt.
Proof.
  revert b c.
  induction a as [|x a IH]; intros [|y b] [|z c]; simpl; try discriminate;
    try reflexivity.
  destruct (N.compare_spec (Byte.to_N x) (Byte.to_N y)) as [E1|E1|E1];
    try discriminate;
    destruct (N.compare_spec (Byte.to_N y) (Byte.to_N z)) as [E2|E2|E2];
    try discriminate; intros H1 H2.
  - rewrite E1, E2, N.compare_refl. eauto.
  - rewrite E1. now apply N.compare_lt_iff in E2 as ->.
  - rewrite <- E2. now apply N.compare_lt_iff in E1 as ->.
  - assert (E : (Byte.to_N x < Byte.to_N z)%N) by lia.
    now apply N.compare_lt_iff in E as ->.
Qed.

Lemma ltb_irrefl (a : bytes) : ltb a a = false.
Proof. unfold ltb. now rewrite Compare_refl. Qed.

Lemma ltb_trans (a b c : bytes) :
  ltb a b = true -> ltb b c = true -> ltb a c = true.
Proof.
  unfold ltb. intros H1 H2.
  destruct (Compare a b) eqn:E1; try discriminate.
  destruct (Compare b c) eqn:E2; try discriminate.
  now rewrite (Compare_lt_trans a b c E1 E2).
Qed.

Lemma ltb_asym (a b : bytes) : ltb a b = true -> ltb b a = false.
Proof.
  unfold ltb. rewrite (Compare_antisym a b).
  destruct (Compare a b); simpl; congruence.
Qed.

Lemma eqb_eq (a b : bytes) : eqb a b = true <-> a = b.
Proof.
  unfold eqb. split.
  - destruct (Compare a b) eqn:E; try discriminate. intros _.
    now apply Compare_eq.
  - intros ->. now rewrite Compare_refl.
Qed.

(** Trichotomy, in the shape the tree operations branch on. *)
Lemma Compare_cases (a b : bytes) :
  (Compare a b = Lt /\ ltb a b = true /\ a <> b)
  \/ (Compare a b = Eq /\ a = b)
  \/ (Compare a b = Gt /\ ltb b a = true /\ a <> b).
Proof.
  unfold ltb. rewrite (Compare_antisym a b).
  destruct (Compare a b) eqn:E; simpl.
  - right; left. split; [reflexivity|]. now apply Compare_eq.
  - left. repeat split. intros ->. rewrite Compare_refl in E. discriminate.
  - right; right. repeat split. intros ->. rewrite Compare_refl in E.
    discriminate.
Qed.

Lemma ltb_empty_l (k : bytes) : k <> [] -> ltb [] k = true.
Proof. destruct k; [congruence|reflexivity]. Qed.

Lemma ltb_empty_r (k : bytes) : ltb k [] = false.
Proof. destruct k; reflexivity. Qed.

End Bytes.

Module BytesFacts.
Import Bytes.

Lemma be_value_app (a b : bytes) :
  be_value (a ++ b) = fold_left (fun acc x => acc * 256 + byte_val x) b (be_value a).
Proof. unfold be_value. now rewrite fold_left_app. Qed.

Lemma PutUint32_length (n : Z) : length (PutUint32 n) = 4%nat.
Proof. reflexivity. Qed.

Lemma Int64ToBytes_length (v : Z) : length (Int64ToBytes v) = 8%nat.
Proof. reflexivity. Qed.

Lemma be_value_PutUint32 (n : Z) : be_value (PutUint32 n) = n mod 2 ^ 32.
Proof.
  unfold PutUint32, be_value. simpl fold_left.
  rewrite !byte_val_of_Z, !Z.shiftr_div_pow2 by lia.
  assert (H : 0 <= n mod 2 ^ 32 < 2 ^ 32) by (apply Z.mod_pos_bound; lia).
  set (u := n mod 2 ^ 32) in *. clearbody u.
  change (2 ^ 32) with 4294967296 in H.
  change (2 ^ 24) with 16777216. change (2 ^ 16) with 65536.
  change (2 ^ 8) with 256.
  Z.to_euclidean_division_equations. lia.
Qed.

Lemma Uint32_PutUint32_app (n : Z) (rest : bytes) :
  Uint32 (PutUint32 n ++ rest) = n mod 2 ^ 32.
Proof.
  unfold Uint32.
  change (firstn 4 (PutUint32 n ++ rest)) with (PutUint32 n).
  apply be_value_PutUint32.
Qed.

Lemma be_value_Int64ToBytes (v : Z) : be_value (Int64ToBytes v) = v mod 2 ^ 64.
Proof.
  unfold Int64ToBytes, be_value. simpl fold_left.
  rewrite !byte_val_of_Z, !Z.shiftr_div_pow2 by lia.
  assert (H : 0 <= v mod 2 ^ 64 < 2 ^ 64) by (apply Z.mod_pos_bound; lia).
  set (u := v mod 2 ^ 64) in *. clearbody u.
  change (2 ^ 64) with 18446744073709551616 in H.
  change (2 ^ 56) with 72057594037927936.
  change (2 ^ 48) with 281474976710656.
  change (2 ^ 40) with 1099511627776.
  change (2 ^ 32) with 4294967296.
  change (2 ^ 24) with 16777216. change (2 ^ 16) with 65536.
  change (2 ^ 8) with 256.
  Z.to_euclidean_division_equations. lia.
Qed.

(** Decoding the timestamp prefix written by [Int64ToBytesTo] gives the
    timestamp back, whatever follows it. *)
Lemma Byte2Int64_Int64ToBytes (v : Z) (rest : bytes) :
  - 2 ^ 63 <= v < 2 ^ 63 ->
  Byte2Int64 (Int64ToBytes v ++ rest) = Some v.
Proof.
  intros Hv. unfold Byte2Int64.
  rewrite length_app, Int64ToBytes_length.
  destruct (Nat.ltb_spec (8 + length rest) 8) as [Hl|_]; [lia|].
  change (firstn 8 (Int64ToBytes v ++ rest)) with (Int64ToBytes v).
  rewrite be_value_Int64ToBytes. f_equal.
  change (2 ^ 63) with 9223372036854775808 in *.
  change (2 ^ 64) with 18446744073709551616.
  destruct (Z.ltb_spec (v mod 18446744073709551616) 9223372036854775808);
    Z.to_euclidean_division_equations; lia.
Qed.

End BytesFacts.

(** ** The ordered key-value tree behind the storage *)

Module KVTree.
Import Bytes.

Definition item : Type := bytes * bytes.

(** Modelled from the spec: [util.KVTree] (util/kv_tree.go), the ordered
    tree the memory storage keeps its rows in; only its callers are among
    the sources.  The spec gives every range as the half-open [[start, end)]
    and every enumeration in ascending key order, so the tree is the list of
    its items in strictly ascending [bytes.Compare] order of their keys, and
    [Put], [Get], [Delete], [RangeDelete] and [Scan] are the operations
    [storage.go] calls on it. *)
Definition t : Type := list item.

Definition NewKVTree : t := [].

(** [kv.Put(key, value)]: replace the item of an equal key or insert at the
    sorted position. *)
Fixpoint Put (k v : bytes) (tr : t) : t :=
  match tr with
  | [] => [(k, v)]
  | (k', v') :: rest =>
      match Compare k k' with
      | Lt => (k, v) :: (k', v') :: rest
      | Eq => (k, v) :: rest
      | Gt => (k', v') :: Put k v rest
      end
  end.

(** [kv.Get(key)]: the stored value, [nil] (the empty slice) when absent. *)
Fixpoint Get (k : bytes) (tr : t) : bytes :=
  match tr with
  | [] => []
  | (k', v') :: rest => if eqb k k' then v' else Get k rest
  end.

Definition Delete (k : bytes) (tr : t) : t :=
  List.filter (fun kv => negb (eqb k (fst kv))) tr.

(** [kv.RangeDelete(start, end)]: drop the items with [start <= key < end]. *)
Definition RangeDelete (start end_ : bytes) (tr : t) : t :=
  List.filter (fun kv => negb (in_range start end_ (fst kv))) tr.

(** The items [kv.Scan(start, end, _)] collects before it calls back. *)
Definition range_items (start end_ : bytes) (tr : t) : list item :=
  List.filter (fun kv => in_range start end_ (fst kv)) tr.

Section Scan.
Context {St E : Type}.

(** A Go callback [func(key, value []byte) (bool, error)] closing over
    mutable state [St].  [None] is a run-time panic inside the callback;
    [Some (st', continue, err)] is a normal return. *)
Definition callback : Type := St -> bytes -> bytes -> option (St * bool * option E).

(** The calling loop of [Scan]: [c, err := handler(k, v); if err != nil ||
    !c { return err }]. *)
Fixpoint visit (cb : callback) (items : list item) (st : St) : option (St * option E) :=
  match items with
  | [] => Some (st, None)
  | (k, v) :: rest =>
      match cb st k v with
      | None => None
      | Some (st', _, Some e) => Some (st', Some e)
      | Some (st', true, None) => visit cb rest st'
      | Some (st', false, None) => Some (st', None)
      end
  end.

Definition Scan (start end_ : bytes) (cb : callback) (tr : t) (st : St) : option (St * option E) :=
  visit cb (range_items start end_ tr) st.

End Scan.

Definition keys (tr : t) : list bytes := map fst tr.

Definition key_lt (a b : item) : Prop := ltb (fst a) (fst b) = true.

(** Representation invariant: keys strictly ascending. *)
Definition sorted (tr : t) : Prop := StronglySorted key_lt tr.

Lemma sorted_nil : sorted [].
Proof. constructor. Qed.

Lemma Forall_Put (P : item -> Prop) (k v : bytes) (tr : t) :
  P (k, v) -> Forall P tr -> Forall P (Put k v tr).
Proof.
  intros Hk. induction tr as [|[k' v'] rest IH]; simpl; intros Ht.
  - constructor; auto.
  - inversion Ht as [|? ? Hhd Htl]; subst.
    destruct (Compare k k'); constructor; auto.
Qed.

Lemma Put_sorted (k v : bytes) (tr : t) : sorted tr -> sorted (Put k v tr).
Proof.
  unfold sorted.
  induction tr as [|[k' v'] rest IH]; simpl; intros Hs.
  - repeat constructor.
  - inversion Hs as [|? ? Hrest Hall]; subst.
    destruct (Compare_cases k k') as [(E & Hlt & _)|[(E & ->)|(E & Hgt & _)]];
      rewrite E.
    + constructor; [assumption|]. constructor; [exact Hlt|].
      eapply List.Forall_impl; [|exact Hall]. intros [a b] Hab. unfold key_lt in *.
      simpl in *. eapply ltb_trans; eassumption.
    + constructor; assumption.
    + constructor; [now apply IH|].
      apply Forall_Put; [exact Hgt|exact Hall].
Qed.

Lemma filter_sorted (f : item -> bool) (tr : t) :
  sorted tr -> sorted (List.filter f tr).
Proof.
  unfold sorted. induction 1 as [|a l Hs IH Hall]; simpl.
  - constructor.
  - destruct (f a); [|assumption].
    constructor; [assumption|].
    apply List.Forall_forall. intros x Hx. apply filter_In in Hx as [Hx _].
    rewrite List.Forall_forall in Hall. now apply Hall.
Qed.

Lemma Get_Put_eq (k v : bytes) (tr : t) : Get k (Put k v tr) = v.
Proof.
  induction tr as [|[k' v'] rest IH]; simpl.
  - now rewrite (proj2 (eqb_eq k k) eq_refl).
  - destruct (Compare_cases k k') as [(E & _ & Hne)|[(E & ->)|(E & _ & Hne)]];
      rewrite E; simpl.
    + now rewrite (proj2 (eqb_eq k k) eq_refl).
    + now rewrite (proj2 (eqb_eq k' k') eq_refl).
    + destruct (eqb k k') eqn:Ek; [apply eqb_eq in Ek; contradiction|].
      exact IH.
Qed.

Lemma Get_Put_ne (k k0 v : bytes) (tr : t) :
  k0 <> k -> Get k0 (Put k v tr) = Get k0 tr.
Proof.
  intros Hne.
  assert (Hf : eqb k0 k = false).
  { destruct (eqb k0 k) eqn:Ek; [apply eqb_eq in Ek; contradiction|reflexivity]. }
  induction tr as [|[k' v'] rest IH]; simpl.
  - now rewrite Hf.
  - destruct (Compare_cases k k') as [(E & _ & _)|[(E & <-)|(E & _ & _)]];
      rewrite E; simpl.
    + now rewrite Hf.
    + now rewrite Hf.
    + now rewrite IH.
Qed.

(** Inserting a key above every stored key appends at the end. *)
Lemma Put_above (k v : bytes) (tr : t) :
  Forall (fun kv => ltb (fst kv) k = true) tr -> Put k v tr = tr ++ [(k, v)].
Proof.
  induction 1 as [|[k' v'] rest Hlt _ IH]; simpl; [reflexivity|].
  simpl in Hlt. apply ltb_asym in Hlt as Hgt.
  destruct (Compare_cases k k') as [(E & Hl & _)|[(E & ->)|(E & _ & _)]].
  - congruence.
  - rewrite ltb_irrefl in Hlt. discriminate.
  - rewrite E. now rewrite IH.
Qed.

Lemma RangeDelete_keys (start end_ k : bytes) (tr : t) :
  In k (keys (RangeDelete start end_ tr)) <->
  In k (keys tr) /\ in_range start end_ k = false.
Proof.
  unfold keys, RangeDelete. rewrite !in_map_iff. split.
  - intros ([a b] & <- & Hin). apply filter_In in Hin as [Hin Hr].
    simpl in *. split; [exists (a, b); auto|].
    now apply negb_true_iff in Hr.
  - intros (([a b] & <- & Hin) & Hr). exists (a, b). split; [reflexivity|].
    apply filter_In. split; [assumption|]. simpl in *. now rewrite Hr.
Qed.

Lemma Get_filter_keep (f : item -> bool) (k : bytes) (tr : t) :
  (forall v, f (k, v) = true) -> Get k (List.filter f tr) = Get k tr.
Proof.
  intros Hk. induction tr as [|[k' v'] rest IH]; simpl; [reflexivity|].
  destruct (eqb k k') eqn:Ek.
  - apply eqb_eq in Ek. subst k'. rewrite Hk. simpl.
    now rewrite (proj2 (eqb_eq k k) eq_refl).
  - destruct (f (k', v')); simpl; [rewrite Ek|]; exact IH.
Qed.

Lemma Get_filter_drop (f : item -> bool) (k : bytes) (tr : t) :
  (forall v, f (k, v) = false) -> Get k (List.filter f tr) = [].
Proof.
  intros Hk. induction tr as [|[k' v'] rest IH]; simpl; [reflexivity|].
  destruct (f (k', v')) eqn:Ef; [|exact IH].
  simpl. destruct (eqb k k') eqn:Ek; [|exact IH].
  apply eqb_eq in Ek. subst k'. rewrite Hk in Ef. discriminate.
Qed.

End KVTree.

(** ** storage/mem/storage.go *)

Module Mem.
Import Bytes.

Inductive error : Type :=
| ErrInvalidArgsLen (n : Z)   (* "invalid args len: %d" *)
| ErrMissingStart             (* "error format, missing start field" *)
| ErrMissingEnd               (* "error format, missing end field" *)
| ErrMissingValue             (* "error format, missing value field" *)
| ErrNotExist (path : string) (* opening a file the file system lacks *).

(** The two counters of [stats.Stats] that this file updates. *)
Record Stats : Type := mkStats { WrittenKeys : Z; WrittenBytes : Z }.

(** [type Storage struct]; the [vfs.FS] it points to is shared with other
    storages and is passed alongside, see [FS] below. *)
Record Storage : Type := mkStorage { kv : KVTree.t; stats : Stats; SyncCount : Z }.

(** The conversion [uint64(x)] and [atomic.AddUint64]: arithmetic modulo
    [2^64]. *)
Definition uint64 (x : Z) : Z := x mod 2 ^ 64.
Definition AddUint64 (c delta : Z) : Z := (c + delta) mod 2 ^ 64.

Definition addWrittenKeys (delta : Z) (s : Storage) : Storage :=
  mkStorage (kv s)
    (mkStats (AddUint64 (WrittenKeys (stats s)) delta) (WrittenBytes (stats s)))
    (SyncCount s).

Definition addWrittenBytes (delta : Z) (s : Storage) : Storage :=
  mkStorage (kv s)
    (mkStats (WrittenKeys (stats s)) (AddUint64 (WrittenBytes (stats s)) delta))
    (SyncCount s).

Definition withKV (f : KVTree.t -> KVTree.t) (s : Storage) : Storage :=
  mkStorage (f (kv s)) (stats s) (SyncCount s).

Definition NewStorage : Storage := mkStorage KVTree.NewKVTree (mkStats 0 0) 0.

Definition encodeValue (value : bytes) (expireAt : Z) : bytes :=
  Int64ToBytes expireAt ++ value.

(** [decodeValue], with [now] the result of [time.Now().Unix()] at the call.
    [None] is the index-out-of-range panic of [buf.Byte2Int64] on a
    non-empty value shorter than eight bytes. *)
Definition decodeValue (now : Z) (value : bytes) : option bytes :=
  if (length value =? 0)%nat then Some []
  else
    match Byte2Int64 value with
    | None => None
    | Some expireAt =>
        if negb (expireAt =? 0) && (expireAt <? now) then Some []
        else Some (skipn 8 value)
    end.

(** [SetWithTTL]; [now] is the clock reading, looked at only when
    [ttl > 0].  The returned error is always [nil]. *)
Definition SetWithTTL (now : Z) (s : Storage) (key value : bytes) (ttl : Z) : Storage :=
  let s1 := addWrittenKeys 1 s in
  let s2 := addWrittenBytes (uint64 (len value + len key)) s1 in
  if ttl >? 0
  then withKV (KVTree.Put key (encodeValue value (now + ttl))) s2
  else withKV (KVTree.Put key (encodeValue value 0)) s2.

(** [Set] ([Set] itself is a reserved word here, hence the underscore). *)
Definition Set_ (now : Z) (s : Storage) (key value : bytes) : Storage :=
  let s1 := addWrittenKeys 1 s in
  let s2 := addWrittenBytes (uint64 (len value + len key)) s1 in
  SetWithTTL now s2 key value 0.

(** The loop of [BatchSet] over [pairs[2*i]], [pairs[2*i+1]]. *)
Fixpoint batchSetLoop (now : Z) (pairs : list bytes) (s : Storage) : Storage :=
  match pairs with
  | k :: v :: rest =>
      batchSetLoop now rest
        (addWrittenBytes (uint64 (len k + len v)) (Set_ now s k v))
  | _ => s
  end.

Definition BatchSet (now : Z) (s : Storage) (pairs : list bytes) : Storage * option error :=
  if negb (Z.of_nat (length pairs) mod 2 =? 0)
  then (s, Some (ErrInvalidArgsLen (Z.of_nat (length pairs))))
  else
    let s1 := addWrittenKeys (uint64 (Z.of_nat (length pairs) / 2)) s in
    (batchSetLoop now pairs s1, None).

Definition Get (now : Z) (s : Storage) (key : bytes) : option bytes :=
  decodeValue now (KVTree.Get key (kv s)).

Definition Delete (s : Storage) (key : bytes) : Storage :=
  let s1 := addWrittenKeys 1 s in
  let s2 := addWrittenBytes (uint64 (len key)) s1 in
  withKV (KVTree.Delete key) s2.

Definition RangeDelete (s : Storage) (start end_ : bytes) : Storage :=
  let s1 := addWrittenKeys 2 s in
  let s2 := addWrittenBytes (uint64 (len start + len end_)) s1 in
  withKV (KVTree.RangeDelete start end_) s2.

Section Scan.
Context {St E : Type}.

(** A caller's handler; it may keep state of its own in [St]. *)
Definition handler : Type := St -> bytes -> bytes -> St * bool * option E.

(** The closure [Scan] hands to the tree.  Its state carries the number of
    rows visited so far, so that the [n]-th call reads the clock as
    [nowAt n]. *)
Definition scanCallback (nowAt : nat -> Z) (h : handler) :
  @KVTree.callback (nat * St) E :=
  fun '(n, st) key value =>
    match decodeValue (nowAt n) value with
    | None => None
    | Some value' =>
        if (length value' =? 0)%nat then Some ((S n, st), true, None)
        else let '(st', c, e) := h st key value' in Some ((S n, st'), c, e)
    end.

Definition Scan (nowAt : nat -> Z) (s : Storage) (start end_ : bytes)
  (h : handler) (st : St) : option (St * option E) :=
  match KVTree.Scan start end_ (scanCallback nowAt h) (kv s) (0%nat, st) with
  | None => None
  | Some ((_, st'), e) => Some (st', e)
  end.

End Scan.

(** A handler instrumented to record, in order, the rows it is called
    with. *)
Definition logging {St E : Type} (h : @handler St E) :
  @handler (list KVTree.item * St) E :=
  fun '(log, st) key value =>
    let '(st', c, e) := h st key value in ((log ++ [(key, value)], st'), c, e).

(** The rows a [Scan] passes to its handler. *)
Definition delivered {St E : Type} (nowAt : nat -> Z) (s : Storage)
  (start end_ : bytes) (h : @handler St E) (st : St) : option (list KVTree.item) :=
  match Scan nowAt s start end_ (logging h) ([], st) with
  | None => None
  | Some ((log, _), _) => Some log
  end.

(** *** Snapshot files *)

(** The part of the virtual file system the snapshots use: file contents by
    path.  It is one object shared by all storages opened on it. *)
Abbreviation FS := (gmap string bytes).

Definition PathJoin (dir name : string) : string :=
  String.append dir (String.append "/" name).

(** [writeBytes]: a four-byte big-endian length, then the data; [f] is the
    content written so far.  Writes to the memory file system succeed. *)
Definition writeBytes (f : bytes) (data : bytes) : bytes :=
  f ++ PutUint32 (len data) ++ data.

Inductive read_result : Type :=
| ReadNil                       (* [return nil, nil] at the end of the file *)
| ReadData (data rest : bytes)  (* [data] read, [rest] still unread *)
| ReadHang                      (* the loop never sees [written == total] *).

(** [readBytes] on the unread part [r] of the file.  [f.Read(size)] fills as
    many of the four bytes as are left; the data loop then reads until
    [total] bytes have arrived, ignoring [io.EOF], so it does not return on
    a file that ends early. *)
Definition readBytes (r : bytes) : read_result :=
  match r with
  | [] => ReadNil
  | _ :: _ =>
      let size := firstn 4 (r ++ repeat x00 4) in
      let total := Z.to_nat (Uint32 size) in
      let r' := skipn 4 r in
      if (total <=? length r')%nat
      then ReadData (firstn total r') (skipn total r')
      else ReadHang
  end.

Definition CreateSnapshot (fs : FS) (s : Storage) (path : string)
  (start end_ : bytes) : FS * option error :=
  let f0 := writeBytes (writeBytes [] start) end_ in
  let cb : @KVTree.callback bytes error :=
    fun f key value => Some (writeBytes (writeBytes f key) value, true, None) in
  match KVTree.Scan start end_ cb (kv s) f0 with
  | Some (f, err) => (<[PathJoin path "db.data" := f]> fs, err)
  | None => (fs, None)
  end.

Inductive outcome : Type :=
| Returned (err : option error)
| Hangs.

(** The [for] loop of [ApplySnapshot].  Each round consumes at least the
    four bytes of a length field, so [fuel] above the length of [r] is never
    used up (see [applyLoop_fuel]). *)
Fixpoint applyLoop (fuel : nat) (r : bytes) (s : Storage) : Storage * outcome :=
  match fuel with
  | O => (s, Hangs)
  | S fuel' =>
      match readBytes r with
      | ReadHang => (s, Hangs)
      | ReadNil => (s, Returned None)
      | ReadData key r1 =>
          if (length key =? 0)%nat then (s, Returned None)
          else
            match readBytes r1 with
            | ReadHang => (s, Hangs)
            | ReadNil => (s, Returned (Some ErrMissingValue))
            | ReadData value r2 =>
                if (length value =? 0)%nat
                then (s, Returned (Some ErrMissingValue))
                else
                  let s1 := addWrittenKeys 1 s in
                  let s2 := addWrittenBytes (uint64 (len key + len value)) s1 in
                  applyLoop fuel' r2 (withKV (KVTree.Put key value) s2)
            end
      end
  end.

Definition ApplySnapshot (fs : FS) (s : Storage) (path : string) : Storage * outcome :=
  match fs !! PathJoin path "db.data" with
  | None => (s, Returned (Some (ErrNotExist (PathJoin path "db.data"))))
  | Some r =>
      match readBytes r with
      | ReadHang => (s, Hangs)
      | ReadNil => (s, Returned (Some ErrMissingStart))
      | ReadData start r1 =>
          if (length start =? 0)%nat then (s, Returned (Some ErrMissingStart))
          else
            match readBytes r1 with
            | ReadHang => (s, Hangs)
            | ReadNil => (s, Returned (Some ErrMissingEnd))
            | ReadData end_ r2 =>
                if (length end_ =? 0)%nat
                then (s, Returned (Some ErrMissingEnd))
                else
                  applyLoop (S (length r2)) r2
                    (withKV (KVTree.RangeDelete start end_) s)
            end
      end
  end.

End Mem.

Module MemFacts.
Import Bytes BytesFacts Mem.

Lemma AddUint64_twice (c a b : Z) : AddUint64 (AddUint64 c a) b = (c + (a + b)) mod 2 ^ 64.
Proof.
  unfold AddUint64. rewrite Z.add_mod_idemp_l by lia. f_equal. lia.
Qed.

Lemma AddUint64_uint64 (c a : Z) : AddUint64 c (uint64 a) = AddUint64 c a.
Proof. unfold AddUint64, uint64. now rewrite Z.add_mod_idemp_r by lia. Qed.

Lemma AddUint64_small (c a : Z) : 0 <= c + a < 2 ^ 64 -> AddUint64 c a = c + a.
Proof. intros H. unfold AddUint64. now apply Z.mod_small. Qed.

Lemma len_nonneg (b : bytes) : 0 <= len b.
Proof. unfold len. lia. Qed.

Lemma SetWithTTL_kv (now : Z) (s : Storage) (key value : bytes) (ttl : Z) :
  kv (SetWithTTL now s key value ttl) =
  KVTree.Put key (encodeValue value (if ttl >? 0 then now + ttl else 0)) (kv s).
Proof. unfold SetWithTTL. now destruct (ttl >? 0). Qed.

Lemma SetWithTTL_stats (now : Z) (s : Storage) (key value : bytes) (ttl : Z) :
  stats (SetWithTTL now s key value ttl) =
  mkStats (AddUint64 (WrittenKeys (stats s)) 1)
          (AddUint64 (WrittenBytes (stats s)) (len value + len key)).
Proof.
  unfold SetWithTTL. destruct (ttl >? 0); simpl; now rewrite AddUint64_uint64.
Qed.

Lemma Set_kv (now : Z) (s : Storage) (key value : bytes) :
  kv (Set_ now s key value) = KVTree.Put key (encodeValue value 0) (kv s).
Proof. unfold Set_. now rewrite SetWithTTL_kv. Qed.

Lemma Set_WrittenKeys (now : Z) (s : Storage) (key value : bytes) :
  WrittenKeys (stats (Set_ now s key value)) = (WrittenKeys (stats s) + 2) mod 2 ^ 64.
Proof.
  unfold Set_. rewrite SetWithTTL_stats. simpl. now rewrite AddUint64_twice.
Qed.

Lemma Set_WrittenBytes (now : Z) (s : Storage) (key value : bytes) :
  WrittenBytes (stats (Set_ now s key value)) =
  (WrittenBytes (stats s) + 2 * (len key + len value)) mod 2 ^ 64.
Proof.
  unfold Set_. rewrite SetWithTTL_stats. simpl.
  rewrite AddUint64_uint64, AddUint64_twice. f_equal. lia.
Qed.

(** A value stored without expiry decodes to itself at any later time. *)
Lemma decode_encode_zero (now : Z) (value : bytes) :
  decodeValue now (encodeValue value 0) = Some value.
Proof.
  unfold decodeValue, encodeValue.
  rewrite Byte2Int64_Int64ToBytes by lia. reflexivity.
Qed.

Lemma decode_encode (now expireAt : Z) (value : bytes) :
  - 2 ^ 63 <= expireAt < 2 ^ 63 ->
  decodeValue now (encodeValue value expireAt) =
  Some (if negb (expireAt =? 0) && (expireAt <? now) then [] else value).
Proof.
  intros H. unfold decodeValue, encodeValue.
  rewrite Byte2Int64_Int64ToBytes by assumption.
  change (length (Int64ToBytes expireAt ++ value) =? 0)%nat with false.
  cbv iota. now destruct (negb (expireAt =? 0) && (expireAt <? now)).
Qed.

Lemma batchSetLoop_WrittenKeys (now : Z) (n : nat) :
  forall (pairs : list bytes) (s : Storage),
    length pairs = (2 * n)%nat ->
    WrittenKeys (stats s) mod 2 ^ 64 = WrittenKeys (stats s) ->
    WrittenKeys (stats (batchSetLoop now pairs s)) =
    (WrittenKeys (stats s) + 2 * Z.of_nat n) mod 2 ^ 64.
Proof.
  induction n as [|n IH]; intros pairs s Hlen Hnorm.
  - destruct pairs; [|discriminate]. simpl. rewrite Z.add_0_r. now symmetry.
  - destruct pairs as [|k [|v rest]]; simpl in Hlen; try lia.
    cbn [batchSetLoop]. rewrite IH.
    + cbn [addWrittenBytes stats WrittenKeys].
      rewrite Set_WrittenKeys, Z.add_mod_idemp_l by lia. f_equal. lia.
    + lia.
    + cbn [addWrittenBytes stats WrittenKeys].
      rewrite Set_WrittenKeys. apply Z.mod_mod. lia.
Qed.

(** *** Snapshot files: what [CreateSnapshot] writes, [ApplySnapshot] reads *)

Definition encodeItem (kv : KVTree.item) : bytes :=
  PutUint32 (len (fst kv)) ++ fst kv ++ PutUint32 (len (snd kv)) ++ snd kv.

Definition encodeItems (items : list KVTree.item) : bytes :=
  concat (map encodeItem items).

(** A row the snapshot format can carry: key and value non-empty, lengths
    within the 32-bit length field. *)
Definition storable (kv : KVTree.item) : Prop :=
  fst kv <> [] /\ snd kv <> [] /\ len (fst kv) < 2 ^ 32 /\ len (snd kv) < 2 ^ 32.

Lemma readBytes_written (data rest : bytes) :
  len data < 2 ^ 32 ->
  readBytes (PutUint32 (len data) ++ data ++ rest) = ReadData data rest.
Proof.
  intros Hlen. unfold readBytes.
  change (PutUint32 (len data) ++ data ++ rest)
    with (byte_of_Z (Z.shiftr (len data mod 2 ^ 32) 24)
          :: byte_of_Z (Z.shiftr (len data mod 2 ^ 32) 16)
          :: byte_of_Z (Z.shiftr (len data mod 2 ^ 32) 8)
          :: byte_of_Z (len data mod 2 ^ 32) :: data ++ rest).
  cbv zeta.
  change (firstn 4 (_ ++ repeat x00 4)) with (PutUint32 (len data)).
  change (skipn 4 (_ :: _ :: _ :: _ :: data ++ rest)) with (data ++ rest).
  replace (Uint32 (PutUint32 (len data))) with (len data).
  2:{ rewrite <- (app_nil_r (PutUint32 (len data))), Uint32_PutUint32_app.
      symmetry. apply Z.mod_small. pose proof (len_nonneg data). lia. }
  unfold len. rewrite Nat2Z.id.
  destruct (Nat.leb_spec (length data) (length (data ++ rest))) as [_|Hlt].
  - rewrite firstn_app, Nat.sub_diag, firstn_all. simpl. rewrite app_nil_r.
    now rewrite skipn_app, Nat.sub_diag, skipn_all.
  - rewrite length_app in Hlt. lia.
Qed.

Lemma readBytes_shrinks (r data rest : bytes) :
  readBytes r = ReadData data rest -> (length rest < length r)%nat.
Proof.
  unfold readBytes. destruct r as [|b r]; [discriminate|].
  cbv zeta. destruct (_ <=? _)%nat; [|discriminate].
  intros [= _ <-]. rewrite !length_skipn. simpl. lia.
Qed.

(** Any fuel above the length of the unread input gives the same run: the
    loop never runs dry. *)
Lemma applyLoop_fuel (f1 : nat) :
  forall (f2 : nat) (r : bytes) (s : Storage),
    (length r < f1)%nat -> (length r < f2)%nat ->
    applyLoop f1 r s = applyLoop f2 r s.
Proof.
  induction f1 as [|f1 IH]; intros f2 r s H1 H2; [lia|].
  destruct f2 as [|f2]; [lia|]. simpl.
  destruct (readBytes r) as [|key r1|] eqn:E1; try reflexivity.
  destruct (length key =? 0)%nat; [reflexivity|].
  destruct (readBytes r1) as [|value r2|] eqn:E2; try reflexivity.
  destruct (length value =? 0)%nat; [reflexivity|].
  apply readBytes_shrinks in E1, E2. apply IH; lia.
Qed.

(** The effect of one loop round of [ApplySnapshot] on the storage. *)
Definition applyItem (s : Storage) (kv : KVTree.item) : Storage :=
  withKV (KVTree.Put (fst kv) (snd kv))
    (addWrittenBytes (uint64 (len (fst kv) + len (snd kv))) (addWrittenKeys 1 s)).

Lemma length_nonzero (b : bytes) : b <> [] -> (length b =? 0)%nat = false.
Proof. destruct b; [congruence|reflexivity]. Qed.

Lemma applyLoop_S (fuel : nat) (r : bytes) (s : Storage) :
  applyLoop (S fuel) r s =
  match readBytes r with
  | ReadHang => (s, Hangs)
  | ReadNil => (s, Returned None)
  | ReadData key r1 =>
      if (length key =? 0)%nat then (s, Returned None)
      else
        match readBytes r1 with
        | ReadHang => (s, Hangs)
        | ReadNil => (s, Returned (Some ErrMissingValue))
        | ReadData value r2 =>
            if (length value =? 0)%nat
            then (s, Returned (Some ErrMissingValue))
            else applyLoop fuel r2 (applyItem s (key, value))
        end
  end.
Proof. reflexivity. Qed.

Lemma encodeItems_cons (k v : bytes) (items : list KVTree.item) :
  encodeItems ((k, v) :: items) =
  PutUint32 (len k) ++ k ++ PutUint32 (len v) ++ v ++ encodeItems items.
Proof.
  unfold encodeItems. rewrite map_cons, concat_cons. unfold encodeItem at 1.
  cbn [fst snd]. now rewrite <- !app_assoc.
Qed.

Lemma applyLoop_encoded (items : list KVTree.item) :
  forall (fuel : nat) (s : Storage),
    (length items < fuel)%nat ->
    Forall storable items ->
    applyLoop fuel (encodeItems items) s = (fold_left applyItem items s, Returned None).
Proof.
  induction items as [|[k v] items IH]; intros fuel s Hfuel Hok.
  - destruct fuel; [cbn [length] in Hfuel; lia|]. reflexivity.
  - destruct fuel as [|fuel]; [cbn [length] in Hfuel; lia|].
    inversion Hok as [|? ? (Hk & Hv & Hlk & Hlv) Hrest]; subst.
    cbn [fst snd] in Hk, Hv, Hlk, Hlv. cbn [length] in Hfuel.
    rewrite applyLoop_S, encodeItems_cons.
    rewrite readBytes_written by assumption.
    rewrite (length_nonzero k Hk).
    rewrite readBytes_written by assumption.
    rewrite (length_nonzero v Hv).
    cbn [fold_left]. apply IH; [lia|assumption].
Qed.

Lemma encodeItems_length (items : list KVTree.item) :
  (length items <= length (encodeItems items))%nat.
Proof.
  induction items as [|[k v] items IH]; [cbn; lia|].
  rewrite encodeItems_cons, !length_app, !PutUint32_length. cbn [length]. lia.
Qed.

Lemma kv_fold_applyItem (items : list KVTree.item) (s : Storage) :
  kv (fold_left applyItem items s) =
  fold_left (fun tr kv => KVTree.Put (fst kv) (snd kv) tr) items (kv s).
Proof.
  revert s. induction items as [|x items IH]; intros s; simpl; [reflexivity|].
  now rewrite IH.
Qed.

Lemma sorted_app_below (acc : KVTree.t) (x : KVTree.item) (rest : KVTree.t) :
  KVTree.sorted (acc ++ x :: rest) ->
  Forall (fun kv => ltb (fst kv) (fst x) = true) acc.
Proof.
  unfold KVTree.sorted. induction acc as [|a acc IH]; simpl; intros Hs.
  - constructor.
  - inversion Hs as [|? ? Hs' Hall]; subst. constructor; [|now apply IH].
    rewrite List.Forall_forall in Hall. apply Hall, in_elt.
Qed.

(** Putting the rows of a sorted sequence one after the other rebuilds
    it. *)
Lemma fold_Put_sorted (items : KVTree.t) :
  forall acc : KVTree.t,
    KVTree.sorted (acc ++ items) ->
    fold_left (fun tr kv => KVTree.Put (fst kv) (snd kv) tr) items acc = acc ++ items.
Proof.
  induction items as [|[k v] items IH]; intros acc Hs; simpl.
  - now rewrite app_nil_r.
  - rewrite KVTree.Put_above by exact (sorted_app_below acc (k, v) items Hs).
    rewrite IH; rewrite <- app_assoc; [reflexivity|exact Hs].
Qed.

Lemma visit_write (items : list KVTree.item) (f : bytes) :
  KVTree.visit (E := error)
    (fun f key value => Some (writeBytes (writeBytes f key) value, true, None))
    items f
  = Some (f ++ encodeItems items, None).
Proof.
  revert f. induction items as [|[k v] items IH]; intros f; simpl.
  - now rewrite app_nil_r.
  - rewrite IH, encodeItems_cons. unfold writeBytes.
    now rewrite <- !app_assoc.
Qed.

Lemma CreateSnapshot_file (fs : FS) (s : Storage) (path : string) (start end_ : bytes) :
  CreateSnapshot fs s path start end_ =
  (<[PathJoin path "db.data" :=
       PutUint32 (len start) ++ start ++ PutUint32 (len end_) ++ end_
       ++ encodeItems (KVTree.range_items start end_ (kv s))]> fs, None).
Proof.
  unfold CreateSnapshot, KVTree.Scan. rewrite visit_write.
  unfold writeBytes. rewrite app_nil_l. now rewrite <- !app_assoc.
Qed.

Lemma in_range_nonempty (start end_ k : bytes) :
  start <> [] -> in_range start end_ k = true -> k <> [].
Proof.
  intros Hs Hr ->. unfold in_range in Hr.
  rewrite (ltb_empty_l start Hs) in Hr. discriminate.
Qed.

(** *** What a [Scan] hands to its handler *)

(** The rows whose decoded value is non-empty, with the decoded value; the
    row at position [i] of [items] is decoded at clock reading
    [nowAt (n + i)]. *)
Fixpoint liveRows (nowAt : nat -> Z) (n : nat) (items : list KVTree.item) : list KVTree.item :=
  match items with
  | [] => []
  | (k, v) :: rest =>
      match decodeValue (nowAt n) v with
      | Some (b :: d) => (k, b :: d) :: liveRows nowAt (S n) rest
      | _ => liveRows nowAt (S n) rest
      end
  end.

(** The rows a handler sees when it is offered [rows] in order: all of them
    up to and including the first one at which it returns [false] or an
    error. *)
Fixpoint calls {St E : Type} (h : @handler St E) (st : St) (rows : list KVTree.item) : list KVTree.item :=
  match rows with
  | [] => []
  | (k, v) :: rest =>
      match h st k v with
      | (st', true, None) => (k, v) :: calls h st' rest
      | _ => [(k, v)]
      end
  end.

(** A raw value [decodeValue] does not panic on. *)
Definition decodable (v : bytes) : Prop := v = [] \/ (8 <= length v)%nat.

Lemma decodable_encodeValue (value : bytes) (expireAt : Z) :
  decodable (encodeValue value expireAt).
Proof.
  right. unfold encodeValue. rewrite length_app, Int64ToBytes_length. lia.
Qed.

Lemma decodeValue_total (now : Z) (v : bytes) :
  decodable v -> exists d, decodeValue now v = Some d.
Proof.
  intros [->|Hlen]; [now exists []|].
  unfold decodeValue, Byte2Int64.
  destruct (Nat.ltb_spec (length v) 8) as [Hlt|_]; [lia|].
  destruct (length v =? 0)%nat; [now eexists|].
  destruct (negb _ && _); now eexists.
Qed.

Lemma visit_logging {St E : Type} (nowAt : nat -> Z) (h : @handler St E)
  (items : list KVTree.item) :
  forall (n : nat) (log : list KVTree.item) (st : St),
    Forall (fun kv => decodable (snd kv)) items ->
    exists n' st' e,
      KVTree.visit (scanCallback nowAt (logging h)) items (n, (log, st))
      = Some ((n', (log ++ calls h st (liveRows nowAt n items), st')), e).
Proof.
  induction items as [|[k v] items IH]; intros n log st Hok.
  - exists n, st, None. simpl. now rewrite app_nil_r.
  - inversion Hok as [|? ? Hv Hrest]; subst. cbn [snd] in Hv.
    destruct (decodeValue_total (nowAt n) v Hv) as [d Hd].
    cbn [KVTree.visit scanCallback liveRows]. rewrite Hd.
    destruct d as [|b d].
    + cbn [length Nat.eqb]. exact (IH (S n) log st Hrest).
    + cbn [length Nat.eqb calls]. unfold logging at 1.
      destruct (h st k (b :: d)) as [[st' c] [e|]]; cbv beta iota.
      * exists (S n), st', (Some e). now destruct c.
      * destruct c.
        -- destruct (IH (S n) (log ++ [(k, b :: d)]) st' Hrest)
             as (n' & st'' & e & Heq).
           exists n', st'', e. rewrite <- app_assoc in Heq. exact Heq.
        -- exists (S n), st', None. reflexivity.
Qed.

Lemma delivered_calls {St E : Type} (nowAt : nat -> Z) (s : Storage)
  (start end_ : bytes) (h : @handler St E) (st : St) :
  Forall (fun kv => decodable (snd kv)) (kv s) ->
  delivered nowAt s start end_ h st
  = Some (calls h st (liveRows nowAt 0 (KVTree.range_items start end_ (kv s)))).
Proof.
  intros Hok. unfold delivered, Scan, KVTree.Scan.
  destruct (visit_logging nowAt h (KVTree.range_items start end_ (kv s)) 0 [] st)
    as (n' & st' & e & Heq).
  - apply List.Forall_forall. intros x Hx. apply filter_In in Hx as [Hx _].
    rewrite List.Forall_forall in Hok. now apply Hok.
  - now rewrite Heq.
Qed.

Lemma liveRows_In (nowAt : nat -> Z) (items : list KVTree.item) (k d : bytes) :
  forall n : nat,
    In (k, d) (liveRows nowAt n items) <->
    exists (i : nat) (v : bytes),
      nth_error items i = Some (k, v)
      /\ decodeValue (nowAt (n + i)%nat) v = Some d /\ d <> [].
Proof.
  induction items as [|[k' v'] items IH]; intros n; cbn [liveRows].
  - split; [intros []|]. intros (i & v & Hi & _). now destruct i.
  - assert (Hrest :
      In (k, d) (liveRows nowAt (S n) items) <->
      exists (i : nat) (v : bytes),
        nth_error ((k', v') :: items) (S i) = Some (k, v)
        /\ decodeValue (nowAt (n + S i)%nat) v = Some d /\ d <> []).
    { rewrite IH. split; intros (i & v & Hi & Hd & Hne); exists i, v;
        (split; [exact Hi|]); split; try assumption;
        now replace (n + S i)%nat with (S n + i)%nat in * by lia. }
    assert (Hhead :
      (exists (i : nat) (v : bytes),
         nth_error ((k', v') :: items) i = Some (k, v)
         /\ decodeValue (nowAt (n + i)%nat) v = Some d /\ d <> []) <->
      (k' = k /\ decodeValue (nowAt n) v' = Some d /\ d <> [])
      \/ In (k, d) (liveRows nowAt (S n) items)).
    { rewrite Hrest. split.
      - intros ([|i] & v & Hi & Hd & Hne).
        + left. simpl in Hi. injection Hi as -> ->.
          now rewrite Nat.add_0_r in Hd.
        + right. now exists i, v.
      - intros [(-> & Hd & Hne)|(i & v & Hi)].
        + exists 0%nat, v'. rewrite Nat.add_0_r. auto.
        + now exists (S i), v. }
    rewrite Hhead.
    destruct (decodeValue (nowAt n) v') as [[|b d']|] eqn:Hd.
    + split; [now right|]. intros [(_ & [= <-] & Hne)|H]; [congruence|exact H].
    + cbn [In]. split.
      * intros [[= -> <-]|H]; [left; repeat split; congruence|now right].
      * intros [(-> & [= <-] & _)|H]; [now left|now right].
    + split; [now right|]. intros [(_ & [=] & _)|H]. exact H.
Qed.

Lemma calls_incl {St E : Type} (h : @handler St E) (rows : list KVTree.item) :
  forall (st : St) (x : KVTree.item), In x (calls h st rows) -> In x rows.
Proof.
  induction rows as [|[k v] rows IH]; intros st x; cbn [calls]; [intros []|].
  destruct (h st k v) as [[st' [|]] [e|]]; cbn [In]; intuition eauto.
Qed.

(** A handler that never asks to stop. *)
Definition always_continues {St E : Type} (h : @handler St E) : Prop :=
  forall st k v, exists st', h st k v = (st', true, None).

Lemma calls_all {St E : Type} (h : @handler St E) (rows : list KVTree.item) :
  always_continues h -> forall st : St, calls h st rows = rows.
Proof.
  intros Hc. induction rows as [|[k v] rows IH]; intros st; cbn [calls];
    [reflexivity|].
  destruct (Hc st k v) as [st' ->]. now rewrite IH.
Qed.

Lemma filter_twice {A : Type} (f : A -> bool) (l : list A) :
  List.filter f (List.filter f l) = List.filter f l.
Proof.
  induction l as [|x l IH]; simpl; [reflexivity|].
  destruct (f x) eqn:E; simpl; [rewrite E, IH|]; auto.
Qed.

Lemma filter_all {A : Type} (f : A -> bool) (l : list A) :
  Forall (fun x => f x = true) l -> List.filter f l = l.
Proof.
  induction 1 as [|x l Hx _ IH]; simpl; [reflexivity|]. now rewrite Hx, IH.
Qed.

(** Reading back the file [CreateSnapshot] wrote: the loop of
    [ApplySnapshot] returns without error after putting, in order, every row
    of the range. *)
Lemma ApplySnapshot_CreateSnapshot (fs : FS) (s s0 : Storage) (path : string)
  (start end_ : bytes) :
  Forall (fun kv => snd kv <> [] /\ len (fst kv) < 2 ^ 32 /\ len (snd kv) < 2 ^ 32) (kv s) ->
  start <> [] -> end_ <> [] -> len start < 2 ^ 32 -> len end_ < 2 ^ 32 ->
  ApplySnapshot (fst (CreateSnapshot fs s path start end_)) s0 path
  = (fold_left applyItem (KVTree.range_items start end_ (kv s))
       (withKV (KVTree.RangeDelete start end_) s0), Returned None).
Proof.
  intros Hrows Hs He Hls Hle.
  rewrite CreateSnapshot_file. cbn [fst]. unfold ApplySnapshot.
  rewrite lookup_insert_eq.
  rewrite readBytes_written by assumption. rewrite (length_nonzero start Hs).
  rewrite readBytes_written by assumption. rewrite (length_nonzero end_ He).
  apply applyLoop_encoded.
  - pose proof (encodeItems_length (KVTree.range_items start end_ (kv s))). lia.
  - apply List.Forall_forall. intros [k v] Hin.
    apply filter_In in Hin as [Hin Hr]. cbn [fst] in Hr.
    rewrite List.Forall_forall in Hrows. destruct (Hrows _ Hin) as (Hv & Hk & Hl).
    repeat split; try assumption.
    exact (in_range_nonempty start end_ k Hs Hr).
Qed.

(** *** The rows the write operations leave in the tree *)

(** What holds of every storage built from [NewStorage] by [Set],
    [SetWithTTL], [Delete] and [RangeDelete]: keys in ascending order, raw
    values carrying the eight bytes of their expiry time. *)
Definition written (s : Storage) : Prop :=
  KVTree.sorted (kv s) /\ Forall (fun kv => (8 <= length (snd kv))%nat) (kv s).

Lemma NewStorage_written : written NewStorage.
Proof. split; constructor. Qed.

Lemma SetWithTTL_written (now : Z) (s : Storage) (key value : bytes) (ttl : Z) :
  written s -> written (SetWithTTL now s key value ttl).
Proof.
  intros [Hs Hv]. unfold written. rewrite SetWithTTL_kv. split.
  - now apply KVTree.Put_sorted.
  - apply KVTree.Forall_Put; [|exact Hv]. cbn [snd]. unfold encodeValue.
    rewrite length_app, Int64ToBytes_length. lia.
Qed.

Lemma Set_written (now : Z) (s : Storage) (key value : bytes) :
  written s -> written (Set_ now s key value).
Proof. intros H. unfold Set_. now apply SetWithTTL_written. Qed.

Lemma Forall_filter_keep {A : Type} (P : A -> Prop) (f : A -> bool) (l : list A) :
  Forall P l -> Forall P (List.filter f l).
Proof.
  intros H. apply List.Forall_forall. intros x Hx.
  apply filter_In in Hx as [Hx _]. rewrite List.Forall_forall in H. now apply H.
Qed.

Lemma Delete_written (s : Storage) (key : bytes) : written s -> written (Delete s key).
Proof.
  intros [Hs Hv]. split; [now apply KVTree.filter_sorted|].
  now apply Forall_filter_keep.
Qed.

Lemma RangeDelete_written (s : Storage) (start end_ : bytes) :
  written s -> written (RangeDelete s start end_).
Proof.
  intros [Hs Hv]. split; [now apply KVTree.filter_sorted|].
  now apply Forall_filter_keep.
Qed.

Lemma written_decodable (s : Storage) :
  written s -> Forall (fun kv => decodable (snd kv)) (kv s).
Proof.
  intros [_ Hv]. eapply List.Forall_impl; [|exact Hv]. intros kv Hkv. now right.
Qed.

Lemma written_nonempty (s : Storage) :
  written s -> Forall (fun kv => snd kv <> []) (kv s).
Proof.
  intros [_ Hv]. eapply List.Forall_impl; [|exact Hv].
  intros [k v] Hkv Hnil. cbn [snd] in Hkv, Hnil. subst v. cbn in Hkv. lia.
Qed.

End MemFacts.

(** ** Properties of the memory storage *)

Module MemSpec.
Import Bytes BytesFacts Mem MemFacts.

(** A handler that accepts every row and keeps going. *)
Definition collect : @handler unit error := fun st _ _ => (st, true, None).

(** A handler that stops the scan at the first row it is given. *)
Definition stopAtFirst : @handler unit error := fun st _ _ => (st, false, None).

(** Sample keys and values: ["a"], ["b"], ["c"], ["v"], ["w"]. *)
Definition key_a : bytes := [x61].
Definition key_b : bytes := [x62].
Definition key_c : bytes := [x63].
Definition val_v : bytes := [x76].
Definition val_w : bytes := [x77].

Definition one_row : Storage := Set_ 0 NewStorage key_a val_v.
Definition two_rows : Storage := Set_ 0 one_row key_b val_w.

(** C8: after [Set(key, value)], [Get(key)] returns exactly [value], for
    every key and every value, the empty one included, at whatever time the
    [Get] runs: the row is stored as eight zero bytes (expire-at 0, never
    expiring) followed by the value, and decoding strips those eight
    bytes. *)
Theorem Get_after_Set (now now' : Z) (s : Storage) (key value : bytes) :
  Get now' (Set_ now s key value) key = Some value
  /\ KVTree.Get key (kv (Set_ now s key value)) = encodeValue value 0
  /\ encodeValue value 0 = repeat x00 8 ++ value
  /\ Byte2Int64 (encodeValue value 0) = Some 0
  /\ skipn 8 (encodeValue value 0) = value.
Proof.
  assert (Hget : KVTree.Get key (kv (Set_ now s key value)) = encodeValue value 0).
  { rewrite Set_kv. apply KVTree.Get_Put_eq. }
  split; [unfold Get; rewrite Hget; apply decode_encode_zero|].
  split; [exact Hget|].
  split; [reflexivity|].
  split; [|reflexivity].
  unfold encodeValue. now rewrite Byte2Int64_Int64ToBytes by lia.
Qed.

(** C9: every [Set(key, value)] adds 2 to [WrittenKeys] and
    [2 * (len(key) + len(value))] to [WrittenBytes] (additions of the
    unsigned 64-bit counters, exact sums as long as the counters do not
    wrap), since [Set] counts the write and [SetWithTTL] counts it again;
    [BatchSet] with [n] pairs adds [3 * n] to [WrittenKeys] and returns no
    error. *)
Theorem Set_counts_twice (now : Z) (s : Storage) (key value : bytes) :
  WrittenKeys (stats (Set_ now s key value)) = AddUint64 (WrittenKeys (stats s)) 2
  /\ WrittenBytes (stats (Set_ now s key value))
     = AddUint64 (WrittenBytes (stats s)) (2 * (len key + len value))
  /\ stats (SetWithTTL now s key value 0)
     = mkStats (AddUint64 (WrittenKeys (stats s)) 1)
               (AddUint64 (WrittenBytes (stats s)) (len value + len key))
  /\ (forall (n : nat) (pairs : list bytes),
        length pairs = (2 * n)%nat ->
        snd (BatchSet now s pairs) = None
        /\ WrittenKeys (stats (fst (BatchSet now s pairs)))
           = AddUint64 (WrittenKeys (stats s)) (3 * Z.of_nat n))
  /\ (0 <= WrittenKeys (stats s) < 2 ^ 64 - 2 ->
      WrittenKeys (stats (Set_ now s key value)) = WrittenKeys (stats s) + 2)
  /\ (0 <= WrittenBytes (stats s) < 2 ^ 64 - 2 * (len key + len value) ->
      WrittenBytes (stats (Set_ now s key value))
      = WrittenBytes (stats s) + 2 * (len key + len value)).
Proof.
  split; [apply Set_WrittenKeys|].
  split; [apply Set_WrittenBytes|].
  split; [apply SetWithTTL_stats|].
  split; [|split].
  2:{ intros Hfit. rewrite Set_WrittenKeys. apply Z.mod_small. lia. }
  2:{ intros Hfit. rewrite Set_WrittenBytes. apply Z.mod_small.
      pose proof (len_nonneg key). pose proof (len_nonneg value). lia. }
  intros n pairs Hlen. unfold BatchSet. rewrite Hlen.
  replace (Z.of_nat (2 * n) mod 2) with 0
    by (rewrite Nat2Z.inj_mul, Z.mul_comm; symmetry; apply Z.mod_mul; lia).
  replace (Z.of_nat (2 * n) / 2) with (Z.of_nat n)
    by (rewrite Nat2Z.inj_mul, Z.mul_comm; symmetry; apply Z.div_mul; lia).
  cbn [Z.eqb negb fst snd]. split; [reflexivity|].
  rewrite (batchSetLoop_WrittenKeys now n) by
    (try assumption; cbn [addWrittenKeys stats WrittenKeys]; unfold AddUint64;
     apply Z.mod_mod; lia).
  cbn [addWrittenKeys stats WrittenKeys].
  rewrite AddUint64_uint64. unfold AddUint64.
  rewrite Z.add_mod_idemp_l by lia. f_equal. lia.
Qed.

Lemma Set_counts_twice_witness :
  length [key_a; val_v; key_b; val_w] = (2 * 2)%nat
  /\ WrittenKeys (stats (fst (BatchSet 0 NewStorage [key_a; val_v; key_b; val_w])))
     = AddUint64 0 6
  /\ WrittenKeys (stats (Set_ 0 NewStorage key_a val_v)) = 0 + 2
  /\ WrittenBytes (stats (Set_ 0 NewStorage key_a val_v)) = 0 + 2 * (1 + 1).
Proof.
  pose proof (Set_counts_twice 0 NewStorage key_a val_v)
    as (_ & _ & _ & Hbatch & Hkeys & Hbytes).
  split; [reflexivity|].
  split; [exact (proj2 (Hbatch 2%nat [key_a; val_v; key_b; val_w] eq_refl))|].
  split; [apply Hkeys|apply Hbytes]; split; reflexivity || discriminate.
Defined.

(** C5: [RangeDelete(start, end)] adds exactly 2 to [WrittenKeys] and
    [len(start) + len(end)] to [WrittenBytes] (additions of the unsigned
    64-bit counters, exact sums as long as the counters do not wrap)
    whatever the tree holds, and afterwards no key of
    [[start, end)] is in the tree, while every key outside keeps its
    value. *)
Theorem RangeDelete_counts_two (s : Storage) (start end_ : bytes) :
  WrittenKeys (stats (RangeDelete s start end_)) = AddUint64 (WrittenKeys (stats s)) 2
  /\ WrittenBytes (stats (RangeDelete s start end_))
     = AddUint64 (WrittenBytes (stats s)) (len start + len end_)
  /\ (forall k : bytes,
        in_range start end_ k = true ->
        ~ In k (KVTree.keys (kv (RangeDelete s start end_)))
        /\ KVTree.Get k (kv (RangeDelete s start end_)) = [])
  /\ (forall k : bytes,
        in_range start end_ k = false ->
        (In k (KVTree.keys (kv (RangeDelete s start end_))) <-> In k (KVTree.keys (kv s)))
        /\ KVTree.Get k (kv (RangeDelete s start end_)) = KVTree.Get k (kv s))
  /\ (0 <= WrittenKeys (stats s) < 2 ^ 64 - 2 ->
      WrittenKeys (stats (RangeDelete s start end_)) = WrittenKeys (stats s) + 2)
  /\ (0 <= WrittenBytes (stats s) < 2 ^ 64 - (len start + len end_) ->
      WrittenBytes (stats (RangeDelete s start end_))
      = WrittenBytes (stats s) + (len start + len end_)).
Proof.
  assert (Hbytes : WrittenBytes (stats (RangeDelete s start end_))
                   = AddUint64 (WrittenBytes (stats s)) (len start + len end_))
    by (unfold RangeDelete; cbn; apply AddUint64_uint64).
  change (kv (RangeDelete s start end_)) with (KVTree.RangeDelete start end_ (kv s)).
  split; [reflexivity|].
  split; [exact Hbytes|].
  split; [|split; [|split]].
  - intros k Hk. split.
    + rewrite KVTree.RangeDelete_keys, Hk. intros [_ H]. discriminate.
    + apply KVTree.Get_filter_drop. intros v. cbn [fst]. now rewrite Hk.
  - intros k Hk. split.
    + rewrite KVTree.RangeDelete_keys, Hk. tauto.
    + apply KVTree.Get_filter_keep. intros v. cbn [fst]. now rewrite Hk.
  - intros Hfit.
    change (WrittenKeys (stats (RangeDelete s start end_)))
      with (AddUint64 (WrittenKeys (stats s)) 2).
    apply AddUint64_small. lia.
  - intros Hfit. rewrite Hbytes. apply AddUint64_small.
    pose proof (len_nonneg start). pose proof (len_nonneg end_). lia.
Qed.

Lemma RangeDelete_counts_two_witness :
  in_range key_a key_b key_a = true
  /\ KVTree.Get key_a (kv (RangeDelete two_rows key_a key_b)) = []
  /\ KVTree.Get key_b (kv (RangeDelete two_rows key_a key_b)) = encodeValue val_w 0
  /\ WrittenKeys (stats (RangeDelete two_rows key_a key_b)) = 4 + 2.
Proof.
  pose proof (RangeDelete_counts_two two_rows key_a key_b)
    as (_ & _ & Hin & Hout & Hkeys & _).
  split; [reflexivity|].
  split; [exact (proj2 (Hin key_a eq_refl))|].
  split; [exact (proj2 (Hout key_b eq_refl))|].
  apply Hkeys. split; reflexivity || discriminate.
Defined.

(** C4, as the code has it: with rows written by [Set]/[SetWithTTL],
    [Scan] over [[start, end)] visits the rows of the range in key order,
    skips every row whose decoded value is empty, and passes the others to
    the handler until the handler returns [false] or an error, which ends
    the scan.  So every row passed has a non-empty decoded value; a handler
    that never stops is passed a row of the range if and only if its decoded
    value is non-empty; and a row with an empty explicit value, or whose
    TTL has expired, decodes to the empty value and is never passed. *)
Theorem Scan_passes_live_rows {St E : Type} (nowAt : nat -> Z) (s : Storage)
  (start end_ : bytes) (h : @handler St E) (st : St) :
  Forall (fun kv => decodable (snd kv)) (kv s) ->
  let items := KVTree.range_items start end_ (kv s) in
  let live := liveRows nowAt 0 items in
  delivered nowAt s start end_ h st = Some (calls h st live)
  /\ (forall k d : bytes,
        In (k, d) (calls h st live) ->
        exists (i : nat) (v : bytes),
          nth_error items i = Some (k, v)
          /\ decodeValue (nowAt i) v = Some d /\ d <> [])
  /\ (always_continues h ->
      forall k d : bytes,
        In (k, d) (calls h st live) <->
        exists (i : nat) (v : bytes),
          nth_error items i = Some (k, v)
          /\ decodeValue (nowAt i) v = Some d /\ d <> [])
  /\ (forall now e : Z,
        - 2 ^ 63 <= e < 2 ^ 63 -> decodeValue now (encodeValue [] e) = Some [])
  /\ (forall (now e : Z) (value : bytes),
        - 2 ^ 63 <= e < 2 ^ 63 -> e <> 0 -> e < now ->
        decodeValue now (encodeValue value e) = Some []).
Proof.
  intros Hok items live.
  split; [now apply delivered_calls|].
  split.
  { intros k d Hin. apply calls_incl in Hin.
    now apply (liveRows_In nowAt items k d 0) in Hin. }
  split.
  { intros Hc k d. rewrite (calls_all h live Hc st).
    exact (liveRows_In nowAt items k d 0). }
  split.
  - intros now e He. rewrite decode_encode by assumption.
    now destruct (negb (e =? 0) && (e <? now)).
  - intros now e value He Hnz Hlt. rewrite decode_encode by assumption.
    destruct (Z.eqb_spec e 0) as [->|_]; [lia|].
    destruct (Z.ltb_spec e now); [reflexivity|lia].
Qed.

Lemma Scan_passes_live_rows_witness :
  delivered (fun _ => 0) two_rows key_a key_c collect tt
  = Some [(key_a, val_v); (key_b, val_w)].
Proof.
  refine (proj1 (Scan_passes_live_rows (fun _ => 0) two_rows key_a key_c collect tt _)).
  repeat constructor; right; cbn; lia.
Defined.

(** C4 as stated fails when the handler ends the scan: the row of key ["b"]
    is stored in [["a", "c")] and its decoded value is the non-empty ["w"],
    yet a handler that returns [false] at the first row is never passed
    it. *)
Lemma Scan_stopped_handler_misses_live_row :
  In (key_b, encodeValue val_w 0) (KVTree.range_items key_a key_c (kv two_rows))
  /\ decodeValue 0 (encodeValue val_w 0) = Some val_w
  /\ val_w <> []
  /\ delivered (fun _ => 0) two_rows key_a key_c stopAtFirst tt
     = Some [(key_a, val_v)]
  /\ ~ In (key_b, val_w) [(key_a, val_v)].
Proof.
  split; [right; left; reflexivity|].
  split; [reflexivity|].
  split; [discriminate|].
  split; [reflexivity|].
  intros [H|[]]. discriminate.
Qed.

(** C1, as the code has it: for a storage whose rows have non-empty raw
    values (as every row written through the storage has), all lengths
    below [2^32], [CreateSnapshot(path, start, end)] succeeds.  For
    non-empty [start] and [end], [ApplySnapshot(path)] on an empty storage
    then returns without error, and the new storage holds exactly the rows
    of the original in [[start, end)], in the same order, so every scan of
    [[start, end)] on it behaves as on the original; if the original has
    rows only inside the range, the two trees are equal.  With an empty
    [start], [ApplySnapshot] on any storage rejects the file ("missing
    start field") and leaves the storage as it was; with a non-empty
    [start] and an empty [end] it does the same with "missing end
    field". *)
Theorem snapshot_round_trip (fs : FS) (s : Storage) (path : string)
  (start end_ : bytes) :
  KVTree.sorted (kv s) ->
  Forall (fun kv => snd kv <> [] /\ len (fst kv) < 2 ^ 32 /\ len (snd kv) < 2 ^ 32) (kv s) ->
  len start < 2 ^ 32 -> len end_ < 2 ^ 32 ->
  let created := CreateSnapshot fs s path start end_ in
  snd created = None
  /\ (start <> [] -> end_ <> [] ->
      let applied := ApplySnapshot (fst created) NewStorage path in
      snd applied = Returned None
      /\ kv (fst applied) = KVTree.range_items start end_ (kv s)
      /\ KVTree.range_items start end_ (kv (fst applied)) = kv (fst applied)
      /\ (forall (St E : Type) (nowAt : nat -> Z) (h : @handler St E) (st : St),
            Scan nowAt (fst applied) start end_ h st = Scan nowAt s start end_ h st)
      /\ (Forall (fun kv => in_range start end_ (fst kv) = true) (kv s) ->
          kv (fst applied) = kv s))
  /\ (start = [] ->
      forall s0 : Storage,
        ApplySnapshot (fst created) s0 path = (s0, Returned (Some ErrMissingStart)))
  /\ (start <> [] -> end_ = [] ->
      forall s0 : Storage,
        ApplySnapshot (fst created) s0 path = (s0, Returned (Some ErrMissingEnd))).
Proof.
  intros Hsorted Hrows Hls Hle created.
  split; [subst created; now rewrite CreateSnapshot_file|].
  split; [|split].
  - intros Hs He applied.
    assert (Hkv : kv (fst applied) = KVTree.range_items start end_ (kv s)).
    { subst applied created. rewrite ApplySnapshot_CreateSnapshot by assumption.
      cbn [fst]. rewrite kv_fold_applyItem.
      change (kv (withKV (KVTree.RangeDelete start end_) NewStorage))
        with (@nil KVTree.item).
      rewrite fold_Put_sorted; [reflexivity|].
      rewrite app_nil_l. now apply KVTree.filter_sorted. }
    split; [subst applied created; now rewrite ApplySnapshot_CreateSnapshot|].
    split; [exact Hkv|].
    split; [rewrite Hkv; apply filter_twice|].
    split.
    + intros St E nowAt h st. unfold Scan, KVTree.Scan. rewrite Hkv.
      unfold KVTree.range_items. now rewrite filter_twice.
    + intros Hin. rewrite Hkv. now apply filter_all.
  - intros Hs s0. subst created start. rewrite CreateSnapshot_file. cbn [fst].
    unfold ApplySnapshot. rewrite lookup_insert_eq.
    rewrite readBytes_written by exact Hls. reflexivity.
  - intros Hs He s0. subst created end_. rewrite CreateSnapshot_file. cbn [fst].
    unfold ApplySnapshot. rewrite lookup_insert_eq.
    rewrite readBytes_written by exact Hls. rewrite (length_nonzero start Hs).
    rewrite readBytes_written by exact Hle. reflexivity.
Qed.

Lemma snapshot_round_trip_witness :
  kv (fst (ApplySnapshot (fst (CreateSnapshot ∅ two_rows "snap" key_a key_c))
             NewStorage "snap"))
  = kv two_rows
  /\ ApplySnapshot (fst (CreateSnapshot ∅ two_rows "snap" [] key_c)) one_row "snap"
     = (one_row, Returned (Some ErrMissingStart))
  /\ ApplySnapshot (fst (CreateSnapshot ∅ two_rows "snap" key_a [])) one_row "snap"
     = (one_row, Returned (Some ErrMissingEnd)).
Proof.
  assert (Hsorted : KVTree.sorted (kv two_rows)) by repeat constructor.
  assert (Hrows : Forall (fun kv => snd kv <> [] /\ len (fst kv) < 2 ^ 32
                                    /\ len (snd kv) < 2 ^ 32) (kv two_rows))
    by (repeat constructor; discriminate).
  split; [|split].
  - refine (proj2 (proj2 (proj2 (proj2
              (proj1 (proj2 (snapshot_round_trip ∅ two_rows "snap" key_a key_c
                               Hsorted Hrows _ _)) _ _)))) _).
    + reflexivity.
    + reflexivity.
    + discriminate.
    + discriminate.
    + repeat constructor.
  - refine (proj1 (proj2 (proj2 (snapshot_round_trip ∅ two_rows "snap" [] key_c
                                   Hsorted Hrows _ _))) _ one_row).
    + reflexivity.
    + reflexivity.
    + reflexivity.
  - refine (proj2 (proj2 (proj2 (snapshot_round_trip ∅ two_rows "snap" key_a []
                                   Hsorted Hrows _ _))) _ _ one_row).
    + reflexivity.
    + reflexivity.
    + discriminate.
    + reflexivity.
Defined.

(** C1 as stated fails for the empty start key: the storage holds the single
    key ["a"], inside [["", "b")]; [CreateSnapshot] writes the snapshot, but
    [ApplySnapshot] rejects it ("missing start field") and the empty storage
    stays empty, so its enumeration differs from the original's. *)
Lemma snapshot_empty_start_not_applied :
  let created := CreateSnapshot ∅ one_row "snap" [] key_b in
  let applied := ApplySnapshot (fst created) NewStorage "snap" in
  Forall (fun kv => in_range [] key_b (fst kv) = true) (kv one_row)
  /\ snd created = None
  /\ snd applied = Returned (Some ErrMissingStart)
  /\ delivered (fun _ => 0) one_row [] key_b collect tt = Some [(key_a, val_v)]
  /\ delivered (fun _ => 0) (fst applied) [] key_b collect tt = Some []
  /\ delivered (fun _ => 0) (fst applied) [] key_b collect tt
     <> delivered (fun _ => 0) one_row [] key_b collect tt.
Proof.
  cbv zeta.
  split; [repeat constructor|].
  split; [reflexivity|].
  assert (Happ : ApplySnapshot (fst (CreateSnapshot ∅ one_row "snap" [] key_b))
                   NewStorage "snap"
                 = (NewStorage, Returned (Some ErrMissingStart))).
  { rewrite CreateSnapshot_file. cbn [fst]. unfold ApplySnapshot.
    rewrite lookup_insert_eq. reflexivity. }
  rewrite Happ. cbn [fst snd].
  split; [reflexivity|].
  split; [reflexivity|].
  split; [reflexivity|].
  discriminate.
Qed.

End MemSpec.

(** ** Operator steps: joint consensus *)

Module Operator.

(** [metapb.PeerRole]. *)
Inductive PeerRole : Type := Voter | Learner | IncomingVoter | DemotingVoter.

(** [metapb.Peer]. *)
Record Peer : Type := mkPeer { ID : Z; ContainerID : Z; Role : PeerRole }.

Definition PeerRole_eqb (a b : PeerRole) : bool :=
  match a, b with
  | Voter, Voter | Learner, Learner
  | IncomingVoter, IncomingVoter | DemotingVoter, DemotingVoter => true
  | _, _ => false
  end.

(** Modelled from the spec: the cached resource of the cluster cache
    ([core.CachedResource]; package [core] is not among the sources, its use
    in the step test is).  A resource has an ordered peer list and a current
    leader peer; its voters are the peers whose role is not [Learner]. *)
Record CachedResource : Type := mkResource { peers : list Peer; leader : option Peer }.

(** Modelled from the spec: [core.NewCachedResource(meta, leader)] as the
    step test calls it, with the peer list of the resource and its first
    peer as leader. *)
Definition NewCachedResource (ps : list Peer) : CachedResource :=
  mkResource ps (head ps).

Definition voters (res : CachedResource) : list Peer :=
  List.filter (fun p => negb (PeerRole_eqb (Role p) Learner)) (peers res).

(** Modelled from the spec: [GetContainerVoter(containerID)], the voter of
    the resource on the given container, if any. *)
Definition GetContainerVoter (res : CachedResource) (containerID : Z) : option Peer :=
  List.find (fun p => ContainerID p =? containerID) (voters res).

Definition IsVoterOrIncomingVoter (p : Peer) : bool :=
  match Role p with Voter | IncomingVoter => true | _ => false end.

Definition IsLearnerOrDemotingVoter (p : Peer) : bool :=
  match Role p with Learner | DemotingVoter => true | _ => false end.

(** The sub-steps a joint-consensus change is made of. *)
Record PromoteLearner : Type := mkPromote { plPeerID : Z; plToContainer : Z }.
Record DemoteVoter : Type := mkDemote { dvPeerID : Z; dvToContainer : Z }.

(** Modelled from the spec: the operator step [ChangePeerV2Enter] with its
    [ConfVerChanged] and [IsFinish] (schedule/operator/step.go is not among
    the sources; its test is).  The step enters the joint state: each
    promoted learner goes Learner -> IncomingVoter (-> Voter), each demoted
    voter goes Voter -> DemotingVoter (-> Learner), all of them in one
    atomic change. *)
Record ChangePeerV2Enter : Type :=
  mkEnter { PromoteLearners : list PromoteLearner; DemoteVoters : list DemoteVoter }.

(** Modelled from the spec: [ConfVerChanged(res)], the number of membership
    changes of the step that the resource shows: nothing unless every
    promoted peer is seen as (incoming) voter on its container and no
    demoted peer is still seen there as a plain voter or under another id;
    then one per sub-step. *)
Definition ConfVerChanged (cpe : ChangePeerV2Enter) (res : CachedResource) : Z :=
  if forallb
       (fun pl =>
          match GetContainerVoter res (plToContainer pl) with
          | Some peer => (ID peer =? plPeerID pl) && IsVoterOrIncomingVoter peer
          | None => false
          end) (PromoteLearners cpe)
     && forallb
          (fun dv =>
             match GetContainerVoter res (dvToContainer dv) with
             | Some peer => (ID peer =? dvPeerID dv) && IsLearnerOrDemotingVoter peer
             | None => true
             end) (DemoteVoters cpe)
  then Z.of_nat (length (PromoteLearners cpe) + length (DemoteVoters cpe))
  else 0.

(** Modelled from the spec: [IsFinish(res)]: every promoted peer is an
    [IncomingVoter] and every demoted peer a [DemotingVoter], each on its
    container and under its id. *)
Definition IsFinish (cpe : ChangePeerV2Enter) (res : CachedResource) : bool :=
  forallb
    (fun pl =>
       match GetContainerVoter res (plToContainer pl) with
       | Some peer => (ID peer =? plPeerID pl) && PeerRole_eqb (Role peer) IncomingVoter
       | None => false
       end) (PromoteLearners cpe)
  && forallb
       (fun dv =>
          match GetContainerVoter res (dvToContainer dv) with
          | Some peer => (ID peer =? dvPeerID dv) && PeerRole_eqb (Role peer) DemotingVoter
          | None => false
          end) (DemoteVoters cpe).

(** The step and the resources of [TestChangePeerV2Enter]. *)
Definition cpe : ChangePeerV2Enter :=
  mkEnter [mkPromote 3 3; mkPromote 4 4] [mkDemote 1 1; mkDemote 2 2].

Definition resource_of (roles : list (Z * Z * PeerRole)) : CachedResource :=
  NewCachedResource (map (fun '(id, c, r) => mkPeer id c r) roles).

Definition before_step : CachedResource :=
  resource_of [(1, 1, Voter); (2, 2, Voter); (3, 3, Learner); (4, 4, Learner)].

Definition after_step : CachedResource :=
  resource_of [(1, 1, DemotingVoter); (2, 2, DemotingVoter);
               (3, 3, IncomingVoter); (4, 4, IncomingVoter)].

(** The other cases of the test table, with the values the test expects for
    [ConfVerChanged] and [IsFinish]. *)
Definition test_table : list (CachedResource * Z * bool) :=
  [ (before_step, 0, false);
    (after_step, 4, true);
    (resource_of [(1, 1, Voter); (5, 2, Voter); (3, 3, Learner); (4, 4, Learner)], 0, false);
    (resource_of [(1, 1, Voter); (2, 5, Voter); (3, 3, Learner); (4, 4, Learner)], 0, false);
    (resource_of [(1, 1, DemotingVoter); (5, 2, DemotingVoter);
                  (3, 3, IncomingVoter); (4, 4, IncomingVoter)], 0, false);
    (resource_of [(1, 1, Voter); (2, 2, Voter);
                  (3, 3, IncomingVoter); (4, 4, IncomingVoter)], 0, false);
    (resource_of [(1, 1, DemotingVoter); (2, 2, DemotingVoter);
                  (3, 3, Learner); (4, 4, Learner)], 0, false);
    (resource_of [(1, 1, DemotingVoter); (2, 2, DemotingVoter);
                  (3, 3, IncomingVoter); (4, 4, IncomingVoter);
                  (5, 5, IncomingVoter)], 4, true);
    (resource_of [(1, 1, Voter); (2, 2, Voter); (3, 3, Learner); (4, 4, Learner);
                  (5, 5, IncomingVoter); (6, 6, DemotingVoter)], 0, false) ].

(** The model agrees with every row of the test table. *)
Lemma model_passes_test_table :
  Forall (fun '(res, conf, fin) =>
            ConfVerChanged cpe res = conf /\ IsFinish cpe res = fin) test_table.
Proof. repeat constructor. Qed.

(** C2: for [ChangePeerV2Enter] promoting learners 3 and 4 and demoting
    voters 1 and 2, on the resource with peers 1 and 2 [DemotingVoter] and 3
    and 4 [IncomingVoter] (peer [i] on container [i]) [ConfVerChanged] is 4
    and [IsFinish] is true; on the state before the step (1, 2 voters; 3, 4
    learners) [ConfVerChanged] is 0 and [IsFinish] is false. *)
Theorem ChangePeerV2Enter_joint_state :
  ConfVerChanged cpe after_step = 4
  /\ IsFinish cpe after_step = true
  /\ ConfVerChanged cpe before_step = 0
  /\ IsFinish cpe before_step = false.
Proof. repeat split. Qed.

End Operator.

(** ** schedulers/evict_leader.go *)

Module EvictLeader.

(** [EvictLeaderBatchSize]. *)
Definition EvictLeaderBatchSize : nat := 3.

(** [core.KeyRange]. *)
Record KeyRange : Type := mkKeyRange { StartKey : Bytes.bytes; EndKey : Bytes.bytes }.

(** What the scheduler touches of an [operator.Operator]: the resource it
    targets, the leader transfer it carries, and its priority. *)
Record Operator : Type :=
  mkOperator { ResourceID : Z; FromContainer : Z; ToContainer : Z; HighPriority : bool }.

Definition SetHighPriority (op : Operator) : Operator :=
  mkOperator (ResourceID op) (FromContainer op) (ToContainer op) true.

(** The part of the interface [opt.Cluster] that [scheduleOnce] calls.  The
    random picks consume generator state, threaded through [C].
    [RandomTarget] stands for the chain
    [NewCandidates(GetFollowerContainers(res)).FilterTarget(..).RandomPick()],
    giving the id of the chosen container; [None] is Go's [nil] result, and
    [CreateTransferLeaderOperator] returns [None] for an error. *)
Class Cluster (C : Type) : Type := {
  Resource : Type;
  LeaderContainerID : Resource -> Z;
  RandLeaderResource : C -> Z -> list KeyRange -> C * option Resource;
  RandomTarget : C -> Resource -> C * option Z;
  CreateTransferLeaderOperator : C -> Resource -> Z -> Z -> option Operator
}.

Section Scheduler.
Context {C : Type} `{Cluster C}.

(** [scheduleOnce]; [entries] is [conf.ContainerIDWithRanges] in the order
    this run of the [range] loop visits it. *)
Fixpoint scheduleOnce (c : C) (entries : list (Z * list KeyRange)) : C * list Operator :=
  match entries with
  | [] => (c, [])
  | (id, ranges) :: rest =>
      let '(c1, res) := RandLeaderResource c id ranges in
      match res with
      | None => scheduleOnce c1 rest
      | Some res =>
          let '(c2, target) := RandomTarget c1 res in
          match target with
          | None => scheduleOnce c2 rest
          | Some target =>
              match CreateTransferLeaderOperator c2 res (LeaderContainerID res) target with
              | None => scheduleOnce c2 rest
              | Some op =>
                  let '(c3, ops) := scheduleOnce c2 rest in
                  (c3, SetHighPriority op :: ops)
              end
          end
      end
  end.

(** [uniqueAppend]: [resIDs] is the Go map used as a set. *)
Definition uniqueAppend (dst src : list Operator) : list Operator :=
  let resIDs : gset Z := list_to_set (map ResourceID dst) in
  fst (fold_left
         (fun (acc : list Operator * gset Z) (op : Operator) =>
            if decide (ResourceID op ∈ acc.2) then acc
            else (acc.1 ++ [op], {[ResourceID op]} ∪ acc.2))
         src (dst, resIDs)).

(** The loop of [Schedule], [rounds] iterations from loop index [i];
    [order i] is the order in which iteration [i] ranges over the
    configuration map. *)
Fixpoint scheduleRounds (order : nat -> list (Z * list KeyRange))
  (rounds i : nat) (c : C) (ops : list Operator) : C * list Operator :=
  match rounds with
  | O => (c, ops)
  | S rounds' =>
      let '(c', once) := scheduleOnce c (order i) in
      if (length once =? 0)%nat then (c', ops)
      else
        let ops' := uniqueAppend ops once in
        if (EvictLeaderBatchSize <? length ops')%nat then (c', ops')
        else scheduleRounds order rounds' (S i) c' ops'
  end.

Definition Schedule (order : nat -> list (Z * list KeyRange)) (c : C) : C * list Operator :=
  scheduleRounds order EvictLeaderBatchSize 0 c [].

Lemma scheduleOnce_length (entries : list (Z * list KeyRange)) :
  forall c : C, (length (scheduleOnce c entries).2 <= length entries)%nat.
Proof.
  induction entries as [|[id ranges] rest IH]; intros c; cbn [scheduleOnce].
  - cbn. lia.
  - destruct (RandLeaderResource c id ranges) as [c1 [res|]].
    2:{ specialize (IH c1). cbn [length]. lia. }
    destruct (RandomTarget c1 res) as [c2 [target|]].
    2:{ specialize (IH c2). cbn [length]. lia. }
    destruct (CreateTransferLeaderOperator c2 res (LeaderContainerID res) target).
    2:{ specialize (IH c2). cbn [length]. lia. }
    specialize (IH c2). destruct (scheduleOnce c2 rest) as [c3 ops].
    cbn [snd length] in *. lia.
Qed.

(** The invariant of the loop in [uniqueAppend]. *)
Definition unique_inv (acc : list Operator * gset Z) : Prop :=
  NoDup (map ResourceID acc.1)
  /\ forall x : Z, x ∈ acc.2 <-> x ∈ map ResourceID acc.1.

Lemma uniqueAppend_fold (src : list Operator) :
  forall acc : list Operator * gset Z,
    unique_inv acc ->
    let acc' :=
      fold_left
        (fun (acc : list Operator * gset Z) (op : Operator) =>
           if decide (ResourceID op ∈ acc.2) then acc
           else (acc.1 ++ [op], {[ResourceID op]} ∪ acc.2))
        src acc in
    unique_inv acc' /\ (length acc'.1 <= length acc.1 + length src)%nat.
Proof.
  induction src as [|op src IH]; intros acc Hinv; cbn [fold_left].
  - split; [exact Hinv|lia].
  - destruct (decide (ResourceID op ∈ acc.2)) as [Hin|Hnin].
    + destruct (IH acc Hinv) as [Hi Hl]. split; [exact Hi|]. cbn [length]. lia.
    + destruct Hinv as [Hnd Hset].
      destruct (IH (acc.1 ++ [op], {[ResourceID op]} ∪ acc.2)) as [Hi Hl].
      * split; cbn [fst snd].
        -- rewrite map_app. apply NoDup_app. split; [exact Hnd|].
           split; [|apply NoDup_singleton].
           intros x Hx Hx'. cbn in Hx'. apply list_elem_of_singleton in Hx'.
           subst x. apply Hnin. now apply Hset.
        -- intros x. rewrite map_app, elem_of_app, elem_of_union, elem_of_singleton.
           cbn. rewrite list_elem_of_singleton, Hset. tauto.
      * split; [exact Hi|]. cbn [fst] in Hl. rewrite length_app in Hl.
        cbn [length] in *. lia.
Qed.

Lemma uniqueAppend_spec (dst src : list Operator) :
  NoDup (map ResourceID dst) ->
  NoDup (map ResourceID (uniqueAppend dst src))
  /\ (length (uniqueAppend dst src) <= length dst + length src)%nat.
Proof.
  intros Hnd. unfold uniqueAppend.
  destruct (uniqueAppend_fold src (dst, list_to_set (map ResourceID dst)))
    as [[Hi _] Hl].
  - split; [exact Hnd|]. intros x. cbn [fst snd]. apply elem_of_list_to_set.
  - split; [exact Hi|exact Hl].
Qed.

Lemma scheduleRounds_spec (order : nat -> list (Z * list KeyRange)) (n : nat) :
  (forall i, length (order i) = n) ->
  forall (rounds i : nat) (c : C) (ops : list Operator),
    NoDup (map ResourceID ops) ->
    NoDup (map ResourceID (scheduleRounds order rounds i c ops).2)
    /\ (length (scheduleRounds order rounds i c ops).2 <= length ops + rounds * n)%nat.
Proof.
  intros Hn. induction rounds as [|rounds IH]; intros i c ops Hnd;
    cbn [scheduleRounds].
  - cbn. split; [exact Hnd|lia].
  - pose proof (scheduleOnce_length (order i) c) as Hlen. rewrite Hn in Hlen.
    destruct (scheduleOnce c (order i)) as [c' once]. cbn [snd] in Hlen.
    destruct (length once =? 0)%nat; [cbn [snd]; split; [exact Hnd|lia]|].
    destruct (uniqueAppend_spec ops once Hnd) as [Hnd' Hlen'].
    destruct (EvictLeaderBatchSize <? length (uniqueAppend ops once))%nat.
    + cbn [snd]. split; [exact Hnd'|lia].
    + destruct (IH (S i) c' (uniqueAppend ops once) Hnd') as [H1 H2].
      split; [exact H1|lia].
Qed.

End Scheduler.

(** The cluster of [TestEvictLeader]: resource 1 is led by container 1 and
    has a follower on container 2; resources 2 and 3 are led by containers 2
    and 3.  Only container 1 is configured for eviction. *)
#[local] Instance test_cluster : Cluster unit := {|
  Resource := Z;
  LeaderContainerID := fun r => r;
  RandLeaderResource := fun c id _ =>
    (c, if (1 <=? id) && (id <=? 3) then Some id else None);
  RandomTarget := fun c r => (c, if r =? 1 then Some 2 else Some 1);
  CreateTransferLeaderOperator := fun _ res from to =>
    Some (mkOperator res from to false)
|}.

Example TestEvictLeader :
  (Schedule (fun _ => [(1, [])]) tt).2 = [mkOperator 1 1 2 true].
Proof. reflexivity. Qed.

(** Four containers 1 to 4, each leading the resource of its own number;
    every resource has a follower on container 5 that can take the
    leadership.  All four containers are configured for eviction. *)
#[local] Instance four_leaders : Cluster unit := {|
  Resource := Z;
  LeaderContainerID := fun r => r;
  RandLeaderResource := fun c id _ =>
    (c, if (1 <=? id) && (id <=? 4) then Some id else None);
  RandomTarget := fun c _ => (c, Some 5);
  CreateTransferLeaderOperator := fun _ res from to =>
    Some (mkOperator res from to false)
|}.

Definition conf4 : gmap Z (list KeyRange) :=
  <[1 := []]> (<[2 := []]> (<[3 := []]> (<[4 := []]> ∅))).

Definition order4 : nat -> list (Z * list KeyRange) := fun _ => map_to_list conf4.

(** What [Schedule] does keep of C3: one call runs [scheduleOnce] at most
    [EvictLeaderBatchSize] = 3 times, each run yields at most one operator
    per configured container, and [uniqueAppend] keeps one operator per
    resource.  So the operators returned target pairwise distinct
    resources, and their number stays within 3 times the number of
    configured containers, which is 3 only when a single container is
    configured. *)
Theorem Schedule_distinct_and_bounded {C : Type} `{Cluster C}
  (conf : gmap Z (list KeyRange)) (order : nat -> list (Z * list KeyRange)) (c : C) :
  (forall i, order i ≡ₚ map_to_list conf) ->
  NoDup (map ResourceID (Schedule order c).2)
  /\ (length (Schedule order c).2 <= EvictLeaderBatchSize * size conf)%nat
  /\ (size conf = 1%nat -> (length (Schedule order c).2 <= EvictLeaderBatchSize)%nat).
Proof.
  intros Horder.
  assert (Hn : forall i, length (order i) = size conf).
  { intros i. rewrite (Permutation_length (Horder i)). apply length_map_to_list. }
  destruct (scheduleRounds_spec order (size conf) Hn EvictLeaderBatchSize 0 c [])
    as [Hnd Hlen]; [constructor|].
  fold (Schedule order c) in Hnd, Hlen. cbn [length] in Hlen.
  split; [exact Hnd|]. split; [lia|]. intros Hone. rewrite Hone in Hlen. lia.
Qed.

Lemma Schedule_distinct_and_bounded_witness :
  NoDup (map ResourceID (Schedule (C := unit) order4 tt).2).
Proof.
  refine (proj1 (Schedule_distinct_and_bounded (C := unit) conf4 order4 tt _)).
  intros i. reflexivity.
Defined.

(** C3: the bound of 3 operators per invocation, which the comment of
    [EvictLeaderBatchSize] ("the number of operators ... by one
    scheduling") and the check commented "the batch has been fulfilled"
    state, is not kept by [Schedule]: the check is [len(ops) >
    EvictLeaderBatchSize] and nothing cuts [ops] down.  With the four
    leaders above the first [scheduleOnce] already yields four operators,
    and [Schedule] returns all four. *)
Lemma Schedule_returns_four_operators :
  size conf4 = 4%nat
  /\ map ResourceID (Schedule (C := unit) order4 tt).2 = [3; 4; 2; 1]
  /\ length (Schedule (C := unit) order4 tt).2 = 4%nat
  /\ ~ (length (Schedule (C := unit) order4 tt).2 <= EvictLeaderBatchSize)%nat.
Proof.
  assert (H4 : map ResourceID (Schedule (C := unit) order4 tt).2 = [3; 4; 2; 1])
    by (vm_compute; reflexivity).
  assert (Hl : length (Schedule (C := unit) order4 tt).2 = 4%nat)
    by (rewrite <- (length_map ResourceID), H4; reflexivity).
  split; [vm_compute; reflexivity|].
  split; [exact H4|]. split; [exact Hl|].
  rewrite Hl. unfold EvictLeaderBatchSize. lia.
Qed.

(** Three containers 1 to 3 whose leader resources differ from one call of
    [RandLeaderResource] to the next (the cluster state counts the calls),
    every resource having a follower on container 5. *)
#[local] Instance changing_leaders : Cluster nat := {|
  Resource := Z;
  LeaderContainerID := fun r => r mod 10;
  RandLeaderResource := fun n id _ =>
    (S n, if (1 <=? id) && (id <=? 3) then Some (10 * Z.of_nat n + id) else None);
  RandomTarget := fun n _ => (n, Some 5);
  CreateTransferLeaderOperator := fun _ res from to =>
    Some (mkOperator res from to false)
|}.

Definition conf3 : gmap Z (list KeyRange) :=
  <[1 := []]> (<[2 := []]> (<[3 := []]> ∅)).

(** With three containers the first round yields exactly three operators,
    which is not above the batch size, so a second round runs and three
    more operators are appended: six are returned. *)
Example Schedule_returns_six_operators :
  size conf3 = 3%nat
  /\ length (scheduleOnce (C := nat) 0%nat (map_to_list conf3)).2 = 3%nat
  /\ length (Schedule (C := nat) (fun _ => map_to_list conf3) 0%nat).2 = 6%nat.
Proof. vm_compute. repeat split. Qed.

End EvictLeader.

(** ** The prophet client: [syncDo] and [Close] *)

Module Client.

(** The error values a request context can end with.  [ErrClosed] and
    [ErrTimeout] are the client's own sentinels, [ErrNotLeader] is
    [util.ErrNotLeader]; [ErrResponse msg] is the fresh value
    [errors.New(resp.Error)], which is identical to no sentinel whatever its
    text. *)
Inductive error : Type :=
| ErrClosed
| ErrTimeout
| ErrNotLeader
| ErrResponse (msg : string).

Definition is_ErrNotLeader (e : error) : bool :=
  match e with ErrNotLeader => true | _ => false end.

(** [rpcpb.Response], as far as the client looks into it. *)
Record Response : Type := mkResponse { RespID : Z; Error : string; Payload : list byte }.

(** [util.IsNotLeaderError]: comparison with the text of
    [util.ErrNotLeader]. *)
Definition IsNotLeaderError (err : string) : bool :=
  String.eqb err "election: not leader".

(** How a pending synchronous request gets completed, that is, who calls
    [ctx.done] first: the timeout wheel ([timeout]), the read loop at stop,
    or the read loop on the response carrying the request's id. *)
Inductive completion : Type :=
| ByTimeout
| ByStop
| ByResponse (resp : Response).

(** The fields [ctx.resp] and [ctx.err] after [done]: [timeout] calls
    [done(nil, ErrTimeout)], the stopping read loop [done(nil, ErrClosed)];
    on a response the read loop calls [requestDoneWithRetry] (that is
    [done(nil, util.ErrNotLeader)]) when its error is the not-leader text,
    else [requestDone]. *)
Definition done_fields (cpl : completion) : option Response * option error :=
  match cpl with
  | ByTimeout => (None, Some ErrTimeout)
  | ByStop => (None, Some ErrClosed)
  | ByResponse resp =>
      if negb (String.eqb (Error resp) "") && IsNotLeaderError (Error resp)
      then (None, Some ErrNotLeader)
      else if negb (String.eqb (Error resp) "")
           then (None, Some (ErrResponse (Error resp)))
           else (Some resp, None)
  end.

(** What one round of the loop in [do] finds under the read lock: the
    client stopped, the write channel full, or room in it. *)
Inductive observation : Type := Stopped | ChannelFull | ChannelRoom.

Inductive do_result : Type :=
| DoReturns (err : option error)
| DoSpins (* the write channel stays full and the client running *).

(** [do]: return [ErrClosed] once the client is seen stopped, [nil] once the
    context is queued; retry while the channel is full.  [obs] lists what
    the successive rounds observe. *)
Fixpoint do (obs : list observation) : do_result :=
  match obs with
  | [] => DoSpins
  | Stopped :: _ => DoReturns (Some ErrClosed)
  | ChannelRoom :: _ => DoReturns None
  | ChannelFull :: rest => do rest
  end.

(** The environment of one attempt of [syncDo]. *)
Record attempt : Type := mkAttempt { observed : list observation; completed : completion }.

Inductive run : Type :=
| Returns (resp : option Response) (err : option error)
| Spins      (* [do] never returns *)
| StillRetrying (* the attempts looked at all ended with not-leader *).

(** The result of [syncDo] with the number of attempts made and the
    milliseconds slept. *)
Record syncDo_run : Type := mkRun { result : run; attempts : nat; slept : Z }.

(** [syncDo], looking at no more than [fuel] attempts; attempt [i] meets the
    environment [env i]. *)
Fixpoint syncDo (fuel : nat) (env : nat -> attempt) (i : nat) (slept : Z) : syncDo_run :=
  match fuel with
  | O => mkRun StillRetrying i slept
  | S fuel' =>
      match do (observed (env i)) with
      | DoSpins => mkRun Spins (S i) slept
      | DoReturns (Some err) => mkRun (Returns None (Some err)) (S i) slept
      | DoReturns None =>
          match done_fields (completed (env i)) with
          | (resp, Some err) =>
              if is_ErrNotLeader err
              then syncDo fuel' env (S i) (slept + 100)
              else mkRun (Returns None (Some err)) (S i) slept
          | (resp, None) => mkRun (Returns resp None) (S i) slept
          end
      end
  end.

(** An attempt that is queued and then answered "not leader". *)
Definition not_leader_attempt (a : attempt) : Prop :=
  do (observed a) = DoReturns None
  /\ snd (done_fields (completed a)) = Some ErrNotLeader.

(** What a single attempt leads to: [None] when [syncDo] goes round
    again. *)
Definition attempt_outcome (a : attempt) : option run :=
  match do (observed a) with
  | DoSpins => Some Spins
  | DoReturns (Some err) => Some (Returns None (Some err))
  | DoReturns None =>
      match done_fields (completed a) with
      | (resp, Some err) =>
          if is_ErrNotLeader err then None else Some (Returns None (Some err))
      | (resp, None) => Some (Returns resp None)
      end
  end.

Lemma do_error (obs : list observation) (err : error) :
  do obs = DoReturns (Some err) -> err = ErrClosed.
Proof.
  induction obs as [|[| |] obs IH]; simpl; try discriminate; auto.
  now intros [= <-].
Qed.

Lemma done_fields_shape (cpl : completion) :
  (exists resp, done_fields cpl = (Some resp, None))
  \/ (exists err, done_fields cpl = (None, Some err)).
Proof.
  destruct cpl as [| |resp]; simpl; eauto.
  destruct (negb (String.eqb (Error resp) "") && IsNotLeaderError (Error resp));
    [eauto|].
  destruct (negb (String.eqb (Error resp) "")); eauto.
Qed.

Lemma syncDo_retry (fuel : nat) (env : nat -> attempt) (i : nat) (slept : Z) :
  not_leader_attempt (env i) ->
  syncDo (S fuel) env i slept = syncDo fuel env (S i) (slept + 100).
Proof.
  intros [Hdo Hdone]. cbn [syncDo]. rewrite Hdo.
  destruct (done_fields (completed (env i))) as [resp err]. cbn [snd] in Hdone.
  now rewrite Hdone.
Qed.

Lemma syncDo_S (fuel : nat) (env : nat -> attempt) (i : nat) (slept : Z) :
  syncDo (S fuel) env i slept =
  match attempt_outcome (env i) with
  | None => syncDo fuel env (S i) (slept + 100)
  | Some r => mkRun r (S i) slept
  end.
Proof.
  cbn [syncDo]. unfold attempt_outcome.
  destruct (do (observed (env i))) as [[e|]|]; try reflexivity.
  destruct (done_fields (completed (env i))) as [resp [e|]]; [|reflexivity].
  now destruct (is_ErrNotLeader e).
Qed.

Lemma not_leader_attempt_outcome (a : attempt) :
  not_leader_attempt a <-> attempt_outcome a = None.
Proof.
  unfold not_leader_attempt, attempt_outcome. split.
  - intros [-> Hd]. destruct (done_fields (completed a)) as [resp err].
    cbn [snd] in Hd. now subst err.
  - destruct (do (observed a)) as [[e|]|]; try discriminate.
    destruct (done_fields (completed a)) as [resp [e|]]; [|discriminate].
    destruct e; cbn [is_ErrNotLeader]; try discriminate. auto.
Qed.

(** After [k] not-leader attempts in a row, the next attempt decides. *)
Lemma syncDo_after_retries (env : nat -> attempt) (r : run) (k : nat) :
  forall (i : nat) (slept : Z) (fuel : nat),
    (forall j, (j < k)%nat -> not_leader_attempt (env (i + j)%nat)) ->
    attempt_outcome (env (i + k)%nat) = Some r ->
    (k < fuel)%nat ->
    syncDo fuel env i slept = mkRun r (S (i + k)) (slept + 100 * Z.of_nat k).
Proof.
  induction k as [|k IH]; intros i slept fuel Hnl Hr Hfuel;
    (destruct fuel as [|fuel]; [lia|]); rewrite syncDo_S.
  - rewrite Nat.add_0_r in *. rewrite Hr. f_equal. lia.
  - assert (H0 : attempt_outcome (env i) = None).
    { apply not_leader_attempt_outcome. specialize (Hnl 0%nat).
      rewrite Nat.add_0_r in Hnl. apply Hnl. lia. }
    rewrite H0. rewrite (IH (S i) (slept + 100) fuel).
    + f_equal; lia.
    + intros j Hj. replace (S i + j)%nat with (i + S j)%nat by lia.
      apply Hnl. lia.
    + now replace (S i + k)%nat with (i + S k)%nat by lia.
    + lia.
Qed.

Lemma syncDo_returns_not_leader_free (fuel : nat) (env : nat -> attempt) :
  forall (i : nat) (slept : Z) (resp : option Response) (err : option error),
    result (syncDo fuel env i slept) = Returns resp err ->
    err <> Some ErrNotLeader
    /\ ((err = None /\ exists r, resp = Some r) \/ (resp = None /\ err <> None)).
Proof.
  induction fuel as [|fuel IH]; intros i slept resp err; cbn [syncDo]; [discriminate|].
  destruct (do (observed (env i))) as [[e|]|] eqn:Hdo; cbn [result].
  - apply do_error in Hdo. subst e. intros [= <- <-].
    split; [discriminate|]. right. split; [reflexivity|discriminate].
  - destruct (done_fields_shape (completed (env i))) as [[r ->]|[e ->]].
    + cbn [result]. intros [= <- <-]. split; [discriminate|]. left. eauto.
    + destruct e; cbn [is_ErrNotLeader result]; try apply IH;
        intros [= <- <-]; (split; [discriminate|]); right;
        (split; [reflexivity|discriminate]).
  - discriminate.
Qed.

(** Two attempts answered "not leader", then one that times out. *)
Definition env_two_not_leader : nat -> attempt :=
  fun i =>
    if (i <? 2)%nat
    then mkAttempt [ChannelFull; ChannelRoom]
           (ByResponse (mkResponse 1 "election: not leader" []))
    else mkAttempt [ChannelRoom] ByTimeout.

(** C6: when a synchronous request completes with the not-leader sentinel,
    [syncDo] sleeps 100 ms and issues the request again instead of returning
    the error; what it returns is a response without error or an error other
    than not-leader ([ErrTimeout], [ErrClosed], the server's error text), and
    after any number [k] of not-leader rounds the first attempt that ends
    otherwise gives the result, [100 * k] ms of sleep later. *)
Theorem syncDo_retries_NotLeader (env : nat -> attempt) :
  (forall (fuel i : nat) (slept : Z),
     not_leader_attempt (env i) ->
     syncDo (S fuel) env i slept = syncDo fuel env (S i) (slept + 100))
  /\ (forall (fuel i : nat) (slept : Z) (resp : option Response) (err : option error),
        result (syncDo fuel env i slept) = Returns resp err ->
        err <> Some ErrNotLeader
        /\ ((err = None /\ exists r, resp = Some r) \/ (resp = None /\ err <> None)))
  /\ (forall (i k : nat) (slept : Z) (fuel : nat) (r : run),
        (forall j, (j < k)%nat -> not_leader_attempt (env (i + j)%nat)) ->
        attempt_outcome (env (i + k)%nat) = Some r ->
        (k < fuel)%nat ->
        syncDo fuel env i slept = mkRun r (S (i + k)) (slept + 100 * Z.of_nat k)).
Proof.
  split; [intros; now apply syncDo_retry|].
  split; [intros fuel i slept resp err; apply syncDo_returns_not_leader_free|].
  intros i k slept fuel r. apply syncDo_after_retries.
Qed.

Lemma syncDo_retries_NotLeader_witness :
  syncDo 5 env_two_not_leader 0 0 = mkRun (Returns None (Some ErrTimeout)) 3 200.
Proof.
  refine (proj2 (proj2 (syncDo_retries_NotLeader env_two_not_leader))
            0%nat 2%nat 0 5%nat (Returns None (Some ErrTimeout)) _ _ _).
  - intros j Hj. destruct j as [|[|j]]; [split; reflexivity|split; reflexivity|lia].
  - reflexivity.
  - lia.
Defined.

(** *** [Close] *)

(** A Go channel is open or closed; [close] on a closed channel panics,
    which is [None]. *)
Inductive chan_state : Type := ChanOpen | ChanClosed.

Definition close (ch : chan_state) : option chan_state :=
  match ch with
  | ChanOpen => Some ChanClosed
  | ChanClosed => None
  end.













End Client.

(** ** The system-time monitor *)

Module Monitor.

(** The case a round of the [select] statement takes: a tick of the 100 ms
    ticker, or [<-ctx.Done()], which is ready only once the context is
    done. *)
Inductive selected : Type := TickC | CtxDone.

(** The monitor between two rounds of its loop: how often it has called
    [now], and the calls of [systimeErrHandler] so far, recorded by the
    value of [last] they were made at. *)
Record monitor : Type := mkMonitor { samples : nat; handlerCalls : list Z }.

Inductive status : Type := Running | Returned.

(** One round of the loop of [StartMonitor]: [last := now().UnixNano()],
    then the [select].  The clock is the sequence [now] of the values the
    successive calls of [now().UnixNano()] return. *)
Definition round (now : nat -> Z) (m : monitor) (ev : selected) : status * monitor :=
  let last := now (samples m) in
  match ev with
  | TickC =>
      if now (S (samples m)) <? last
      then (Running, mkMonitor (S (S (samples m))) (handlerCalls m ++ [last]))
      else (Running, mkMonitor (S (S (samples m))) (handlerCalls m))
  | CtxDone => (Returned, mkMonitor (S (samples m)) (handlerCalls m))
  end.

(** [StartMonitor] over the cases its successive [select]s take.  It stops
    reading them when it returns; with none left it is still waiting. *)
Fixpoint StartMonitor (now : nat -> Z) (evs : list selected) (m : monitor) : status * monitor :=
  match evs with
  | [] => (Running, m)
  | ev :: rest =>
      match round now m ev with
      | (Running, m') => StartMonitor now rest m'
      | (Returned, m') => (Returned, m')
      end
  end.

Definition start : monitor := mkMonitor 0 [].








(** A clock that is set back by 50 between its third and fourth reading. *)
Definition clock_set_back : nat -> Z :=
  fun i => if (i <? 3)%nat then 100 * Z.of_nat i else 100 * Z.of_nat i - 150.

Example monitor_reports_jump :
  StartMonitor clock_set_back [TickC; TickC; TickC; CtxDone] start
  = (Returned, mkMonitor 7 [200]).
Proof. reflexivity. Qed.


End Monitor.

(** ** More of storage/mem/storage.go: deletes, TTL, batches, split check *)

Module MemOps.
Import Bytes BytesFacts Mem MemFacts.

(** [BatchDelete]: the keys are deleted one by one while [n] sums their
    lengths, then the counters are updated.  [n] is a Go [int]; converted to
    [uint64] it is the sum modulo [2^64] whether or not the [int] wrapped. *)
Definition BatchDelete (s : Storage) (keys : list bytes) : Storage :=
  let '(tr, n) :=
    fold_left (fun (acc : KVTree.t * Z) (key : bytes) =>
                 (KVTree.Delete key acc.1, acc.2 + len key))
      keys (kv s, 0) in
  addWrittenBytes (uint64 n)
    (addWrittenKeys (uint64 (Z.of_nat (length keys))) (withKV (fun _ => tr) s)).

(** [MGet]: [values = append(values, decodeValue(s.kv.Get(key)))] for each
    key; [None] if a decode panics. *)
Fixpoint MGet (now : Z) (s : Storage) (keys : list bytes) : option (list bytes) :=
  match keys with
  | [] => Some []
  | key :: rest =>
      v ← Get now s key;
      vs ← MGet now s rest;
      Some (v :: vs)
  end.

(** [Sync]. *)
Definition Sync (s : Storage) : Storage :=
  mkStorage (kv s) (stats s) (AddUint64 (SyncCount s) 1).

(** [RemoveShardData]: the shard descriptor is not looked at. *)
Definition RemoveShardData (s : Storage) (encodedStartKey encodedEndKey : bytes) : Storage :=
  RangeDelete s encodedStartKey encodedEndKey.

Definition lens (keys : list bytes) : Z := fold_right (fun k acc => len k + acc) 0 keys.

(** A filter that decides on the key alone acts on [Get] key by key. *)
Lemma Get_filter_key (f : bytes -> bool) (k : bytes) (tr : KVTree.t) :
  KVTree.Get k (List.filter (fun kv => f (fst kv)) tr)
  = if f k then KVTree.Get k tr else [].
Proof.
  destruct (f k) eqn:Hf.
  - apply KVTree.Get_filter_keep. intros v. exact Hf.
  - apply KVTree.Get_filter_drop. intros v. exact Hf.
Qed.

Lemma Get_Delete (k0 k : bytes) (tr : KVTree.t) :
  KVTree.Get k (KVTree.Delete k0 tr) = if eqb k0 k then [] else KVTree.Get k tr.
Proof.
  unfold KVTree.Delete.
  rewrite (Get_filter_key (fun x => negb (eqb k0 x)) k tr).
  now destruct (eqb k0 k).
Qed.

Lemma eqb_refl (k : bytes) : eqb k k = true.
Proof. now apply eqb_eq. Qed.

Lemma eqb_neq (a b : bytes) : a <> b -> eqb a b = false.
Proof.
  intros Hne. destruct (eqb a b) eqn:E; [|reflexivity].
  apply eqb_eq in E. contradiction.
Qed.

Lemma decodeValue_nil (now : Z) : decodeValue now [] = Some [].
Proof. reflexivity. Qed.

Lemma batchDelete_fold (keys : list bytes) :
  forall (tr : KVTree.t) (n : Z),
    fold_left (fun (acc : KVTree.t * Z) (key : bytes) =>
                 (KVTree.Delete key acc.1, acc.2 + len key)) keys (tr, n)
    = (fold_left (fun t key => KVTree.Delete key t) keys tr, n + lens keys).
Proof.
  induction keys as [|k keys IH]; intros tr n; cbn [fold_left].
  - cbn. now rewrite Z.add_0_r.
  - cbn [fst snd]. rewrite IH. unfold lens. cbn [fold_right]. f_equal. lia.
Qed.

Lemma Get_fold_Delete (keys : list bytes) (k : bytes) :
  forall tr : KVTree.t,
    KVTree.Get k (fold_left (fun t key => KVTree.Delete key t) keys tr)
    = if existsb (fun key => eqb key k) keys then [] else KVTree.Get k tr.
Proof.
  induction keys as [|k0 keys IH]; intros tr; cbn [fold_left existsb];
    [reflexivity|].
  rewrite IH, Get_Delete.
  destruct (eqb k0 k); cbn [orb]; [now destruct (existsb _ keys)|reflexivity].
Qed.

Lemma existsb_eqb_In (keys : list bytes) (k : bytes) :
  existsb (fun key => eqb key k) keys = true <-> In k keys.
Proof.
  rewrite existsb_exists. split.
  - intros (x & Hx & He). apply eqb_eq in He. now subst.
  - intros Hin. exists k. split; [exact Hin|apply eqb_refl].
Qed.

(** Sample rows. *)
Definition k1 : bytes := [x6b; x31].
Definition k2 : bytes := [x6b; x32].
Definition k3 : bytes := [x6b; x33].
Definition v1 : bytes := [x76; x31].
Definition v2 : bytes := [x76; x32].
Definition sample : Storage := Set_ 0 (Set_ 0 NewStorage k1 v1) k2 v2.

(** [Delete(key)]: afterwards [Get(key)] returns the empty value, whatever
    was stored; every other key reads as before; [WrittenKeys] grows by 1
    and [WrittenBytes] by [len(key)], also when the key was absent. *)
Theorem Delete_removes_key (now : Z) (s : Storage) (key : bytes) :
  Get now (Delete s key) key = Some []
  /\ ~ In key (KVTree.keys (kv (Delete s key)))
  /\ (forall k : bytes, k <> key -> Get now (Delete s key) k = Get now s k)
  /\ WrittenKeys (stats (Delete s key)) = AddUint64 (WrittenKeys (stats s)) 1
  /\ WrittenBytes (stats (Delete s key)) = AddUint64 (WrittenBytes (stats s)) (len key).
Proof.
  change (kv (Delete s key)) with (KVTree.Delete key (kv s)).
  split; [|split; [|split; [|split]]].
  - unfold Get. change (kv (Delete s key)) with (KVTree.Delete key (kv s)).
    now rewrite Get_Delete, eqb_refl.
  - unfold KVTree.keys, KVTree.Delete. rewrite in_map_iff.
    intros ([a b] & Ha & Hin). apply filter_In in Hin as [_ Hf].
    cbn [fst] in *. subst a. now rewrite eqb_refl in Hf.
  - intros k Hk. unfold Get.
    change (kv (Delete s key)) with (KVTree.Delete key (kv s)).
    rewrite Get_Delete, eqb_neq; [reflexivity|congruence].
  - reflexivity.
  - unfold Delete. cbn. apply AddUint64_uint64.
Qed.

Lemma Delete_removes_key_witness :
  Get 5 (Delete sample k1) k2 = Get 5 sample k2.
Proof.
  refine (proj1 (proj2 (proj2 (Delete_removes_key 5 sample k1))) k2 _).
  discriminate.
Defined.

(** [BatchDelete(keys...)]: afterwards every listed key reads as empty and
    every other key as before; [WrittenKeys] grows by the number of keys
    given and [WrittenBytes] by the sum of their lengths (duplicates and
    absent keys counted too). *)
Theorem BatchDelete_removes_keys (now : Z) (s : Storage) (keys : list bytes) :
  (forall k : bytes, In k keys -> Get now (BatchDelete s keys) k = Some [])
  /\ (forall k : bytes, ~ In k keys -> Get now (BatchDelete s keys) k = Get now s k)
  /\ kv (BatchDelete s keys) = fold_left (fun t key => KVTree.Delete key t) keys (kv s)
  /\ WrittenKeys (stats (BatchDelete s keys))
     = AddUint64 (WrittenKeys (stats s)) (Z.of_nat (length keys))
  /\ WrittenBytes (stats (BatchDelete s keys))
     = AddUint64 (WrittenBytes (stats s)) (lens keys).
Proof.
  assert (Hkv : kv (BatchDelete s keys)
                = fold_left (fun t key => KVTree.Delete key t) keys (kv s)).
  { unfold BatchDelete. now rewrite batchDelete_fold. }
  split; [|split; [|split; [exact Hkv|split]]].
  - intros k Hin. unfold Get. rewrite Hkv, Get_fold_Delete.
    now rewrite (proj2 (existsb_eqb_In keys k) Hin).
  - intros k Hnin. unfold Get. rewrite Hkv, Get_fold_Delete.
    destruct (existsb (fun key => eqb key k) keys) eqn:E; [|reflexivity].
    apply existsb_eqb_In in E. contradiction.
  - unfold BatchDelete. rewrite batchDelete_fold. cbn. apply AddUint64_uint64.
  - unfold BatchDelete. rewrite batchDelete_fold. cbn. apply AddUint64_uint64.
Qed.

Lemma BatchDelete_removes_keys_witness :
  Get 5 (BatchDelete sample [k1; k3]) k1 = Some []
  /\ Get 5 (BatchDelete sample [k1; k3]) k2 = Get 5 sample k2.
Proof.
  pose proof (BatchDelete_removes_keys 5 sample [k1; k3]) as (Hin & Hout & _).
  split; [apply Hin; now left|].
  apply Hout. intros [H|[H|[]]]; discriminate.
Defined.

Lemma Get_SetWithTTL_no_expiry (now now' : Z) (s : Storage) (key value : bytes) (ttl : Z) :
  ttl <= 0 -> Get now' (SetWithTTL now s key value ttl) key = Some value.
Proof.
  intros Httl. unfold Get. rewrite SetWithTTL_kv, KVTree.Get_Put_eq.
  destruct (Z.gtb_spec ttl 0); [lia|]. apply decode_encode_zero.
Qed.

(** [SetWithTTL] with a positive TTL (clock at or after the epoch): [Get]
    returns the value up to and including the second [now + ttl] and the
    empty value after it; the expired row is still in the tree.  With a TTL
    of zero or below the row never expires. *)
Theorem SetWithTTL_expires (now now' : Z) (s : Storage) (key value : bytes) (ttl : Z) :
  (0 <= now < 2 ^ 62 -> 0 < ttl < 2 ^ 31 ->
   (now' <= now + ttl -> Get now' (SetWithTTL now s key value ttl) key = Some value)
   /\ (now + ttl < now' -> Get now' (SetWithTTL now s key value ttl) key = Some [])
   /\ KVTree.Get key (kv (SetWithTTL now s key value ttl))
      = encodeValue value (now + ttl))
  /\ (ttl <= 0 -> Get now' (SetWithTTL now s key value ttl) key = Some value).
Proof.
  split.
  - intros Hnow Httl.
    assert (Hraw : KVTree.Get key (kv (SetWithTTL now s key value ttl))
                   = encodeValue value (now + ttl)).
    { rewrite SetWithTTL_kv, KVTree.Get_Put_eq.
      destruct (Z.gtb_spec ttl 0); [reflexivity|lia]. }
    assert (Hdec : decodeValue now' (encodeValue value (now + ttl))
                   = Some (if negb (now + ttl =? 0) && (now + ttl <? now')
                           then [] else value)).
    { apply decode_encode. change (2 ^ 62) with 4611686018427387904 in Hnow.
      change (2 ^ 31) with 2147483648 in Httl.
      change (2 ^ 63) with 9223372036854775808. lia. }
    unfold Get. rewrite Hraw, Hdec.
    destruct (Z.eqb_spec (now + ttl) 0) as [H0|_]; [lia|]. cbn [negb andb].
    split; [|split; [|reflexivity]]; intros Hcmp;
      destruct (Z.ltb_spec (now + ttl) now'); try reflexivity; lia.
  - apply Get_SetWithTTL_no_expiry.
Qed.

Lemma SetWithTTL_expires_witness :
  Get 160 (SetWithTTL 100 sample k3 v1 60) k3 = Some v1
  /\ Get 161 (SetWithTTL 100 sample k3 v1 60) k3 = Some [].
Proof.
  split.
  - refine (proj1 (proj1 (SetWithTTL_expires 100 160 sample k3 v1 60) _ _) _); lia.
  - refine (proj1 (proj2 (proj1 (SetWithTTL_expires 100 161 sample k3 v1 60) _ _)) _);
      lia.
Defined.

(** [Set] and [Get] together: the last value set for a key is the one read,
    and setting a key leaves the values read for all other keys as they
    were. *)
Theorem Set_last_write_wins (now1 now2 now' : Z) (s : Storage) (key value1 value2 : bytes) :
  Get now' (Set_ now2 (Set_ now1 s key value1) key value2) key = Some value2
  /\ (forall k : bytes, k <> key -> Get now' (Set_ now1 s key value1) k = Get now' s k).
Proof.
  split.
  - unfold Get. rewrite Set_kv, KVTree.Get_Put_eq. apply decode_encode_zero.
  - intros k Hk. unfold Get. now rewrite Set_kv, KVTree.Get_Put_ne.
Qed.

Lemma Set_last_write_wins_witness :
  Get 9 (Set_ 0 sample k1 v2) k2 = Get 9 sample k2.
Proof.
  refine (proj2 (Set_last_write_wins 0 0 9 sample k1 v2 v2) k2 _). discriminate.
Defined.

(** *** [BatchSet] *)

Lemma batchSetLoop_app (now : Z) (n : nat) :
  forall (front rest : list bytes) (s : Storage),
    length front = (2 * n)%nat ->
    batchSetLoop now (front ++ rest) s = batchSetLoop now rest (batchSetLoop now front s).
Proof.
  induction n as [|n IH]; intros front rest s Hlen.
  - destruct front; [reflexivity|simpl in Hlen; lia].
  - destruct front as [|k [|v front]]; simpl in Hlen; try lia.
    cbn [app batchSetLoop]. apply IH. lia.
Qed.

Lemma batchSetLoop_WrittenBytes (now : Z) (n : nat) :
  forall (pairs : list bytes) (s : Storage),
    length pairs = (2 * n)%nat ->
    0 <= WrittenBytes (stats s) < 2 ^ 64 ->
    WrittenBytes (stats (batchSetLoop now pairs s))
    = AddUint64 (WrittenBytes (stats s)) (3 * lens pairs).
Proof.
  induction n as [|n IH]; intros pairs s Hlen Hfit.
  - destruct pairs; [|simpl in Hlen; lia]. cbn.
    unfold AddUint64. rewrite Z.add_0_r. symmetry. now apply Z.mod_small.
  - destruct pairs as [|k [|v rest]]; simpl in Hlen; try lia.
    cbn [batchSetLoop]. rewrite IH; [| lia |].
    + cbn [addWrittenBytes stats WrittenBytes].
      rewrite AddUint64_uint64, Set_WrittenBytes. unfold AddUint64, lens.
      cbn [fold_right]. rewrite !Z.add_mod_idemp_l by lia.
      rewrite <- Z.add_assoc, Z.add_mod_idemp_l by lia. f_equal. lia.
    + cbn [addWrittenBytes stats WrittenBytes]. unfold AddUint64.
      apply Z.mod_pos_bound. lia.
Qed.

(** [BatchSet(pairs...)]: an odd number of arguments is rejected and
    nothing changes, the counters included.  With key/value pairs
    [WrittenBytes] grows by three times the bytes given, and a pair is read
    back by [Get] unless a later pair sets the same key: the last pair
    always is. *)
Theorem BatchSet_pairs (now now' : Z) (s : Storage) :
  (forall pairs : list bytes,
     Z.of_nat (length pairs) mod 2 <> 0 ->
     BatchSet now s pairs = (s, Some (ErrInvalidArgsLen (Z.of_nat (length pairs)))))
  /\ (forall (n : nat) (pairs : list bytes),
        length pairs = (2 * n)%nat ->
        0 <= WrittenBytes (stats s) < 2 ^ 64 ->
        WrittenBytes (stats (fst (BatchSet now s pairs)))
        = AddUint64 (WrittenBytes (stats s)) (3 * lens pairs))
  /\ (forall (n : nat) (front : list bytes) (key value : bytes),
        length front = (2 * n)%nat ->
        snd (BatchSet now s (front ++ [key; value])) = None
        /\ Get now' (fst (BatchSet now s (front ++ [key; value]))) key = Some value).
Proof.
  split; [|split].
  - intros pairs Hodd. unfold BatchSet.
    destruct (Z.eqb_spec (Z.of_nat (length pairs) mod 2) 0); [contradiction|].
    reflexivity.
  - intros n pairs Hlen Hfit. unfold BatchSet. rewrite Hlen.
    replace (Z.of_nat (2 * n) mod 2) with 0
      by (rewrite Nat2Z.inj_mul, Z.mul_comm; symmetry; apply Z.mod_mul; lia).
    cbn [Z.eqb negb fst]. now rewrite (batchSetLoop_WrittenBytes now n).
  - intros n front key value Hlen. unfold BatchSet.
    replace (Z.of_nat (length (front ++ [key; value])) mod 2) with 0.
    2:{ rewrite length_app, Hlen. cbn [length].
        replace (Z.of_nat (2 * n + 2)) with (Z.of_nat (S n) * 2) by lia.
        symmetry. apply Z.mod_mul. lia. }
    cbn [Z.eqb negb fst snd]. split; [reflexivity|].
    rewrite (batchSetLoop_app now n) by assumption.
    cbn [batchSetLoop]. unfold Get. cbn [addWrittenBytes kv].
    rewrite Set_kv, KVTree.Get_Put_eq. apply decode_encode_zero.
Qed.

Lemma BatchSet_pairs_witness :
  BatchSet 0 sample [k1; v1; k2] = (sample, Some (ErrInvalidArgsLen 3))
  /\ Get 7 (fst (BatchSet 0 sample [k3; v1; k3; v2])) k3 = Some v2.
Proof.
  pose proof (BatchSet_pairs 0 7 sample) as (Hodd & _ & Hlast).
  split; [apply (Hodd [k1; v1; k2]); discriminate|].
  exact (proj2 (Hlast 1%nat [k3; v1] k3 v2 eq_refl)).
Defined.

(** *** The order in which [Scan] delivers rows *)

Lemma liveRows_keys (P : bytes -> Prop) (nowAt : nat -> Z) (items : list KVTree.item) :
  forall n : nat,
    Forall (fun kv => P (fst kv)) items ->
    Forall (fun kv => P (fst kv)) (liveRows nowAt n items).
Proof.
  induction items as [|[k v] items IH]; intros n Hall; cbn [liveRows];
    [constructor|].
  inversion Hall as [|? ? Hk Hrest]; subst.
  destruct (decodeValue (nowAt n) v) as [[|b d]|]; auto.
Qed.

Lemma liveRows_sorted (nowAt : nat -> Z) (items : list KVTree.item) :
  forall n : nat, KVTree.sorted items -> KVTree.sorted (liveRows nowAt n items).
Proof.
  unfold KVTree.sorted.
  induction items as [|[k v] items IH]; intros n Hs; cbn [liveRows];
    [constructor|].
  inversion Hs as [|? ? Hrest Hall]; subst.
  destruct (decodeValue (nowAt n) v) as [[|b d]|]; auto.
  constructor; [now apply IH|].
  exact (liveRows_keys (fun x => ltb k x = true) nowAt items (S n) Hall).
Qed.

Lemma calls_prefix {St E : Type} (h : @handler St E) (rows : list KVTree.item) :
  forall st : St, exists rest, rows = calls h st rows ++ rest.
Proof.
  induction rows as [|[k v] rows IH]; intros st; cbn [calls]; [now exists []|].
  destruct (h st k v) as [[st' [|]] [e|]]; try (now exists rows).
  destruct (IH st') as [rest Hrest]. exists rest. cbn [app]. now f_equal.
Qed.

Lemma sorted_app_l (a b : KVTree.t) : KVTree.sorted (a ++ b) -> KVTree.sorted a.
Proof.
  unfold KVTree.sorted. induction a as [|x a IH]; cbn [app]; intros Hs;
    [constructor|].
  inversion Hs as [|? ? Hrest Hall]; subst. constructor; [now apply IH|].
  now apply Forall_app in Hall as [Hall _].
Qed.

(** [Scan] hands rows to the handler in strictly ascending key order, each
    key inside [[start, end)], so no key twice. *)
Theorem Scan_delivers_in_key_order {St E : Type} (nowAt : nat -> Z) (s : Storage)
  (start end_ : bytes) (h : @handler St E) (st : St) :
  written s ->
  exists log : list KVTree.item,
    delivered nowAt s start end_ h st = Some log
    /\ KVTree.sorted log
    /\ Forall (fun kv => in_range start end_ (fst kv) = true) log
    /\ NoDup (KVTree.keys log).
Proof.
  intros Hw. pose proof (written_decodable s Hw) as Hdec. destruct Hw as [Hs _].
  set (live := liveRows nowAt 0 (KVTree.range_items start end_ (kv s))).
  assert (Hlive : KVTree.sorted live)
    by (apply liveRows_sorted; now apply KVTree.filter_sorted).
  assert (Hrange : Forall (fun kv => in_range start end_ (fst kv) = true) live).
  { apply (liveRows_keys (fun k => in_range start end_ k = true)).
    apply List.Forall_forall. intros x Hx. now apply filter_In in Hx as [_ Hx]. }
  destruct (calls_prefix h live st) as [rest Hrest].
  assert (Hsorted : KVTree.sorted (calls h st live)).
  { rewrite Hrest in Hlive. now apply sorted_app_l in Hlive. }
  exists (calls h st live). split; [now apply delivered_calls|].
  split; [exact Hsorted|]. split.
  - rewrite Hrest in Hrange. now apply Forall_app in Hrange as [Hr _].
  - clear - Hsorted. unfold KVTree.sorted in Hsorted.
    induction Hsorted as [|a l Hs IH Hall]; [constructor|].
    cbn. apply NoDup_cons. split; [|exact IH].
    intros Hin. apply list_elem_of_In, in_map_iff in Hin as (x & Hx & Hin).
    rewrite List.Forall_forall in Hall. specialize (Hall x Hin).
    unfold KVTree.key_lt in Hall. rewrite Hx, ltb_irrefl in Hall. discriminate.
Qed.

Lemma Scan_delivers_in_key_order_witness :
  exists log : list KVTree.item,
    delivered (fun _ => 0) sample k1 k3 (fun (st : unit) _ _ => (st, true, @None error)) tt
    = Some log
    /\ KVTree.sorted log.
Proof.
  destruct (Scan_delivers_in_key_order (fun _ => 0) sample k1 k3
              (fun (st : unit) _ _ => (st, true, @None error)) tt)
    as (log & Hlog & Hsorted & _).
  - exact (Set_written 0 _ k2 v2 (Set_written 0 _ k1 v1 NewStorage_written)).
  - exists log. split; assumption.
Defined.

(** *** [SplitCheck] *)

(** The variables the callback of [SplitCheck] closes over. *)
Record splitState : Type := mkSplit {
  total : Z;
  keyCount : Z;
  sum : Z;
  appendSplitKey : bool;
  splitKeys : list bytes
}.

(** What the callback does with a row whose decoded value [value] is not
    empty; [size] is the [uint64] limit. *)
Definition splitStep (size : Z) (st : splitState) (row : KVTree.item) : splitState :=
  let st1 :=
    if appendSplitKey st
    then mkSplit (total st) (keyCount st) 0 false (splitKeys st ++ [fst row])
    else st in
  let n := uint64 (len (fst row) + len (snd row)) in
  let sum' := AddUint64 (sum st1) n in
  mkSplit (AddUint64 (total st1) n) (AddUint64 (keyCount st1) 1) sum'
    ((size <=? sum') || appendSplitKey st1) (splitKeys st1).

Definition splitCallback (nowAt : nat -> Z) (size : Z) :
  @KVTree.callback (nat * splitState) error :=
  fun '(n, st) key value =>
    match decodeValue (nowAt n) value with
    | None => None
    | Some value' =>
        if (length value' =? 0)%nat then Some ((S n, st), true, None)
        else Some ((S n, splitStep size st (key, value')), true, None)
    end.

(** [SplitCheck]: total bytes, number of keys, split keys; the error is
    always [nil].  [None] is a panic in [decodeValue]. *)
Definition SplitCheck (nowAt : nat -> Z) (s : Storage) (start end_ : bytes) (size : Z) :
  option (Z * Z * list bytes) :=
  match KVTree.Scan start end_ (splitCallback nowAt size) (kv s)
          (0%nat, mkSplit 0 0 0 false []) with
  | None => None
  | Some ((_, st), _) => Some (total st, keyCount st, splitKeys st)
  end.

Definition row_bytes (row : KVTree.item) : Z := len (fst row) + len (snd row).

Definition rows_bytes (rows : list KVTree.item) : Z :=
  fold_right (fun row acc => row_bytes row + acc) 0 rows.

Lemma visit_split (nowAt : nat -> Z) (size : Z) (items : list KVTree.item) :
  forall (n : nat) (st : splitState),
    Forall (fun kv => decodable (snd kv)) items ->
    exists n',
      KVTree.visit (splitCallback nowAt size) items (n, st)
      = Some ((n', fold_left (splitStep size) (liveRows nowAt n items) st), None).
Proof.
  induction items as [|[k v] items IH]; intros n st Hok.
  - now exists n.
  - inversion Hok as [|? ? Hv Hrest]; subst. cbn [snd] in Hv.
    destruct (decodeValue_total (nowAt n) v Hv) as [d Hd].
    cbn [KVTree.visit splitCallback liveRows]. rewrite Hd.
    destruct d as [|b d]; cbn [length Nat.eqb fold_left].
    + exact (IH (S n) st Hrest).
    + exact (IH (S n) _ Hrest).
Qed.

Lemma liveRows_nonempty (nowAt : nat -> Z) (items : list KVTree.item) :
  forall n : nat, Forall (fun row => snd row <> []) (liveRows nowAt n items).
Proof.
  induction items as [|[k v] items IH]; intros n; cbn [liveRows]; [constructor|].
  destruct (decodeValue (nowAt n) v) as [[|b d]|]; auto.
Qed.

Lemma row_bytes_pos (row : KVTree.item) : snd row <> [] -> 1 <= row_bytes row.
Proof.
  destruct row as [k [|b d]]; cbn [snd]; [congruence|]. intros _.
  unfold row_bytes, len. cbn [fst snd length]. lia.
Qed.

Lemma rows_bytes_length (rows : list KVTree.item) :
  Forall (fun row => snd row <> []) rows -> Z.of_nat (length rows) <= rows_bytes rows.
Proof.
  induction 1 as [|row rows Hrow _ IH]; cbn [length rows_bytes fold_right]; [lia|].
  apply row_bytes_pos in Hrow. fold (rows_bytes rows). lia.
Qed.

(** The loop invariant: no counter has wrapped, every finished segment
    holds at least [size] bytes, and a pending split has its segment
    full. *)
Definition split_inv (size : Z) (st : splitState) : Prop :=
  0 <= sum st
  /\ 0 <= keyCount st
  /\ size * Z.of_nat (length (splitKeys st)) + sum st <= total st
  /\ (appendSplitKey st = true -> size <= sum st).

Lemma splitStep_inv (size : Z) (st : splitState) (row : KVTree.item) :
  0 <= size ->
  split_inv size st ->
  total st + row_bytes row < 2 ^ 64 ->
  keyCount st + 1 < 2 ^ 64 ->
  split_inv size (splitStep size st row)
  /\ total (splitStep size st row) = total st + row_bytes row
  /\ keyCount (splitStep size st row) = keyCount st + 1.
Proof.
  intros Hsize (Hsum & Hkeys & Hseg & Hflag) Htot Hcnt.
  assert (Hrow : 0 <= row_bytes row)
    by (unfold row_bytes; pose proof (len_nonneg (fst row));
        pose proof (len_nonneg (snd row)); lia).
  assert (Hlen : 0 <= size * Z.of_nat (length (splitKeys st))) by nia.
  unfold splitStep. fold (row_bytes row).
  destruct (appendSplitKey st) eqn:Hf; cbn [total keyCount sum appendSplitKey splitKeys].
  - specialize (Hflag eq_refl).
    rewrite !AddUint64_uint64, !AddUint64_small by lia.
    unfold split_inv. cbn [total keyCount sum appendSplitKey splitKeys].
    rewrite length_app. cbn [length]. rewrite orb_false_r.
    repeat split; try lia; try nia;
      try (intros Hle; apply Z.leb_le in Hle; lia).
  - rewrite !AddUint64_uint64, !AddUint64_small by lia.
    unfold split_inv. cbn [total keyCount sum appendSplitKey splitKeys].
    rewrite Hf, orb_false_r.
    repeat split; try lia; try (intros Hle; apply Z.leb_le in Hle; lia).
Qed.

Lemma split_fold_inv (size : Z) (rows : list KVTree.item) :
  forall st : splitState,
    0 <= size ->
    split_inv size st ->
    total st + rows_bytes rows < 2 ^ 64 ->
    keyCount st + Z.of_nat (length rows) < 2 ^ 64 ->
    let st' := fold_left (splitStep size) rows st in
    split_inv size st'
    /\ total st' = total st + rows_bytes rows
    /\ keyCount st' = keyCount st + Z.of_nat (length rows).
Proof.
  induction rows as [|row rows IH]; intros st Hsize Hinv Htot Hcnt;
    cbn [fold_left rows_bytes fold_right length] in *.
  - repeat split; try lia; apply Hinv.
  - fold (rows_bytes rows) in *.
    assert (Hrows : 0 <= rows_bytes rows).
    { clear. induction rows as [|r rows IH]; cbn [rows_bytes fold_right]; [lia|].
      fold (rows_bytes rows). unfold row_bytes.
      pose proof (len_nonneg (fst r)). pose proof (len_nonneg (snd r)). lia. }
    destruct (splitStep_inv size st row Hsize Hinv) as (Hinv' & Ht & Hk); [lia..|].
    destruct (IH (splitStep size st row) Hsize Hinv') as (Hi & Ht' & Hk'); [lia..|].
    split; [exact Hi|]. split; lia.
Qed.

Lemma split_fold_keys (size : Z) (rows : list KVTree.item) :
  forall st : splitState,
    exists extra : list bytes,
      splitKeys (fold_left (splitStep size) rows st) = splitKeys st ++ extra
      /\ extra `sublist_of`
           (if appendSplitKey st then KVTree.keys rows else tail (KVTree.keys rows)).
Proof.
  induction rows as [|row rows IH]; intros st; cbn [fold_left].
  - exists []. rewrite app_nil_r. split; [reflexivity|apply sublist_nil_l].
  - destruct (IH (splitStep size st row)) as (extra & Heq & Hsub).
    assert (Hsub' : extra `sublist_of` KVTree.keys rows).
    { destruct (appendSplitKey (splitStep size st row)); [exact Hsub|].
      etransitivity; [exact Hsub|]. destruct (KVTree.keys rows); [reflexivity|].
      cbn. now apply sublist_cons. }
    assert (Hk : splitKeys (splitStep size st row)
                 = if appendSplitKey st then splitKeys st ++ [fst row]
                   else splitKeys st)
      by (unfold splitStep; now destruct (appendSplitKey st)).
    rewrite Hk in Heq. destruct (appendSplitKey st) eqn:Hf.
    + exists (fst row :: extra). rewrite Heq, <- app_assoc. split; [reflexivity|].
      cbn. now apply sublist_skip.
    + exists extra. split; [exact Heq|exact Hsub'].
Qed.

Lemma split_fold_size_zero (rows : list KVTree.item) :
  forall st : splitState,
    appendSplitKey st = true ->
    splitKeys (fold_left (splitStep 0) rows st) = splitKeys st ++ KVTree.keys rows.
Proof.
  induction rows as [|row rows IH]; intros st Hf; cbn [fold_left].
  - cbn. now rewrite app_nil_r.
  - rewrite IH.
    + unfold splitStep. rewrite Hf. cbn [splitKeys]. now rewrite <- app_assoc.
    + unfold splitStep. rewrite Hf. cbn [appendSplitKey sum].
      apply orb_true_iff. left. apply Z.leb_le. unfold AddUint64.
      apply Z.mod_pos_bound. lia.
Qed.

Lemma rows_bytes_app (rows1 rows2 : list KVTree.item) :
  rows_bytes (rows1 ++ rows2) = rows_bytes rows1 + rows_bytes rows2.
Proof.
  induction rows1 as [|row rows1 IH]; cbn [app rows_bytes fold_right]; [reflexivity|].
  fold (rows_bytes (rows1 ++ rows2)). fold (rows_bytes rows1). lia.
Qed.

Lemma rows_bytes_nonneg (rows : list KVTree.item) : 0 <= rows_bytes rows.
Proof.
  induction rows as [|r rows IH]; cbn [rows_bytes fold_right]; [lia|].
  fold (rows_bytes rows). unfold row_bytes.
  pose proof (len_nonneg (fst r)). pose proof (len_nonneg (snd r)). lia.
Qed.

(** The rows [front] of a run do not fill it: there are none, or they hold
    fewer than [size] bytes. *)
Definition unfilled (size : Z) (front : list KVTree.item) : Prop :=
  front = [] \/ rows_bytes front < size.

(** [split_runs size rows sk]: the rows fall into consecutive runs, each
    ending with the first of its rows at which its bytes reach [size] (the
    last run ends with the last row, full or not), and [sk] lists, in
    order, the key of the row that follows each full run. *)
Inductive split_runs (size : Z) : list KVTree.item -> list bytes -> Prop :=
| runs_none : split_runs size [] []
| runs_last (front : list KVTree.item) (last : KVTree.item) :
    unfilled size front ->
    split_runs size (front ++ [last]) []
| runs_full (front : list KVTree.item) (last : KVTree.item) (key value : bytes)
    (rest : list KVTree.item) (sk : list bytes) :
    unfilled size front ->
    size <= rows_bytes (front ++ [last]) ->
    split_runs size ((key, value) :: rest) sk ->
    split_runs size ((front ++ [last]) ++ (key, value) :: rest) (key :: sk).

Lemma unfilled_front (size : Z) (front : list KVTree.item) (last : KVTree.item) :
  unfilled size (front ++ [last]) -> unfilled size front.
Proof.
  intros [Hnil|Hlt]; [now destruct front|].
  right. rewrite rows_bytes_app in Hlt. pose proof (rows_bytes_nonneg [last]). lia.
Qed.

Lemma splitStep_pending (size : Z) (st : splitState) (row : KVTree.item) :
  appendSplitKey st = true ->
  splitStep size st row
  = splitStep size
      (mkSplit (total st) (keyCount st) 0 false (splitKeys st ++ [fst row])) row.
Proof. intros Hf. unfold splitStep. now rewrite Hf. Qed.

Lemma splitStep_open (size : Z) (st : splitState) (row : KVTree.item) :
  appendSplitKey st = false ->
  0 <= sum st -> sum st + row_bytes row < 2 ^ 64 ->
  sum (splitStep size st row) = sum st + row_bytes row
  /\ appendSplitKey (splitStep size st row) = (size <=? sum st + row_bytes row)
  /\ splitKeys (splitStep size st row) = splitKeys st.
Proof.
  intros Hf Hsum Hfit.
  assert (Hrow : 0 <= row_bytes row).
  { pose proof (rows_bytes_nonneg [row]) as H. cbn [rows_bytes fold_right] in H. lia. }
  unfold splitStep. rewrite Hf. fold (row_bytes row).
  cbn [total keyCount sum appendSplitKey splitKeys].
  rewrite Hf, orb_false_r. rewrite AddUint64_uint64, AddUint64_small by lia. auto.
Qed.

(** The split keys the loop adds while it goes through [rows], the run in
    progress holding the rows [cur] so far. *)
Lemma split_fold_runs (size : Z) (rows : list KVTree.item) :
  forall (st : splitState) (cur : list KVTree.item),
    appendSplitKey st = false ->
    sum st = rows_bytes cur ->
    unfilled size cur ->
    rows_bytes cur + rows_bytes rows < 2 ^ 64 ->
    exists sk : list bytes,
      splitKeys (fold_left (splitStep size) rows st) = splitKeys st ++ sk
      /\ split_runs size (cur ++ rows) sk.
Proof.
  induction rows as [|row rows IH]; intros st cur Hf Hsum Hcur Hfit.
  - exists []. cbn [fold_left]. rewrite !app_nil_r. split; [reflexivity|].
    destruct cur as [|row cur]; [constructor|].
    destruct (@exists_last _ (row :: cur)) as (front & last & Heq); [discriminate|].
    rewrite Heq in Hcur |- *.
    apply runs_last. exact (unfilled_front size front last Hcur).
  - cbn [rows_bytes fold_right] in Hfit. fold (rows_bytes rows) in Hfit.
    pose proof (rows_bytes_nonneg cur) as Hc. pose proof (rows_bytes_nonneg rows) as Hr.
    assert (Hrow : 0 <= row_bytes row).
    { pose proof (rows_bytes_nonneg [row]) as H. cbn [rows_bytes fold_right] in H. lia. }
    destruct (splitStep_open size st row Hf) as (Hs1 & Hf1 & Hk1); [lia..|].
    cbn [fold_left].
    assert (Hbytes : rows_bytes (cur ++ [row]) = sum st + row_bytes row).
    { rewrite rows_bytes_app, Hsum. cbn [rows_bytes fold_right]. lia. }
    destruct (Z.leb_spec size (sum st + row_bytes row)) as [Hfull|Hopen].
    + destruct rows as [|[key value] rest].
      * exists []. cbn [fold_left]. rewrite Hk1, app_nil_r.
        split; [reflexivity|]. now apply runs_last.
      * set (st1 := splitStep size st row) in *.
        set (st2 := mkSplit (total st1) (keyCount st1) 0 false
                      (splitKeys st1 ++ [key])).
        destruct (IH st2 []) as (sk & Hsk & Hruns).
        -- reflexivity.
        -- reflexivity.
        -- now left.
        -- cbn [rows_bytes fold_right] in *. lia.
        -- exists (key :: sk). split.
           ++ cbn [fold_left] in Hsk |- *.
              rewrite (splitStep_pending size st1 (key, value) Hf1).
              cbn [fst]. fold st2. rewrite Hsk.
              subst st2. cbn [splitKeys]. subst st1. rewrite Hk1, <- app_assoc.
              reflexivity.
           ++ change (cur ++ row :: (key, value) :: rest)
                with (cur ++ [row] ++ (key, value) :: rest).
              rewrite app_assoc. apply runs_full; [exact Hcur|lia|exact Hruns].
    + destruct (IH (splitStep size st row) (cur ++ [row])) as (sk & Hsk & Hruns).
      * exact Hf1.
      * now rewrite Hs1.
      * right. lia.
      * rewrite rows_bytes_app. cbn [rows_bytes fold_right]. lia.
      * exists sk. split; [now rewrite Hsk, Hk1|].
        now rewrite <- app_assoc in Hruns.
Qed.

(** Every split key is the key of the row right after a run that holds at
    least [size] bytes and held fewer before its last row. *)
Lemma split_runs_closes (size : Z) (rows : list KVTree.item) (sk : list bytes) :
  split_runs size rows sk ->
  forall k : bytes, In k sk ->
    exists (before front : list KVTree.item) (last : KVTree.item) (value : bytes)
           (after : list KVTree.item),
      rows = before ++ (front ++ [last]) ++ (k, value) :: after
      /\ size <= rows_bytes (front ++ [last])
      /\ unfilled size front.
Proof.
  induction 1 as [|front last Hfront|front last key value rest sk Hfront Hfull Hruns IH];
    intros k Hin; try contradiction.
  destruct Hin as [<-|Hin].
  - exists [], front, last, value, rest. auto.
  - destruct (IH k Hin) as (before & front' & last' & value' & after & Heq & Hf & Hu).
    exists ((front ++ [last]) ++ before), front', last', value', after.
    rewrite Heq, <- !app_assoc. auto.
Qed.

(** [SplitCheck(start, end, size)] on rows written through the storage,
    their bytes in the range staying below [2^64]: it returns the bytes
    (key and decoded value) and the number of the rows of [[start, end)]
    whose decoded value is not empty.  These rows fall into runs, each
    ending with the first row at which the bytes of the run reach [size],
    and the split keys are, in order, the keys of the rows that follow a
    full run ([split_runs]): every split key closes a run of at least
    [size] bytes that was below [size] before its last row.  Hence the
    split keys are keys of such rows in ascending order, never the first
    one; a range holding fewer than [size] bytes gets no split key, and
    with [size = 0] every row after the first is a split key. *)
Theorem SplitCheck_result (nowAt : nat -> Z) (s : Storage) (start end_ : bytes) (size : Z) :
  Forall (fun kv => decodable (snd kv)) (kv s) ->
  0 <= size ->
  let live := liveRows nowAt 0 (KVTree.range_items start end_ (kv s)) in
  rows_bytes live < 2 ^ 64 ->
  exists sk : list bytes,
    SplitCheck nowAt s start end_ size
    = Some (rows_bytes live, Z.of_nat (length live), sk)
    /\ split_runs size live sk
    /\ (forall k : bytes, In k sk ->
          exists (before front : list KVTree.item) (last : KVTree.item)
                 (value : bytes) (after : list KVTree.item),
            live = before ++ (front ++ [last]) ++ (k, value) :: after
            /\ size <= rows_bytes (front ++ [last])
            /\ unfilled size front)
    /\ sk `sublist_of` tail (KVTree.keys live)
    /\ size * Z.of_nat (length sk) <= rows_bytes live
    /\ (rows_bytes live < size -> sk = [])
    /\ (size = 0 -> sk = tail (KVTree.keys live)).
Proof.
  intros Hdec Hsize live Hfit.
  pose (init := mkSplit 0 0 0 false []).
  destruct (visit_split nowAt size (KVTree.range_items start end_ (kv s)) 0 init)
    as [n' Hvisit].
  { apply List.Forall_forall. intros x Hx. apply filter_In in Hx as [Hx _].
    rewrite List.Forall_forall in Hdec. now apply Hdec. }
  fold live in Hvisit.
  assert (Hlen : Z.of_nat (length live) <= rows_bytes live)
    by (apply rows_bytes_length, liveRows_nonempty).
  pose proof (split_fold_inv size live init Hsize) as Hinv.
  pose proof (split_fold_keys size live init) as (extra & Hsk & Hsub).
  destruct (split_fold_runs size live init [] eq_refl eq_refl) as (sk' & Hsk' & Hruns).
  { now left. }
  { cbn [rows_bytes fold_right]. lia. }
  cbv zeta in Hinv.
  remember (fold_left (splitStep size) live init) as fin eqn:Hfin.
  destruct Hinv as ((Hsum & _ & Hseg & _) & Htot & Hcnt).
  { repeat split; cbn; try lia; discriminate. }
  { cbn. lia. }
  { cbn. lia. }
  change (total init) with 0 in Htot. change (keyCount init) with 0 in Hcnt.
  change (splitKeys init ++ extra) with extra in Hsk.
  change (splitKeys init ++ sk') with sk' in Hsk'.
  change (appendSplitKey init) with false in Hsub. cbv iota in Hsub.
  rewrite Z.add_0_l in Htot, Hcnt.
  exists (splitKeys fin).
  split; [|split; [|split; [|split; [|split; [|split]]]]].
  - unfold SplitCheck, KVTree.Scan. fold init. rewrite Hvisit.
    now rewrite Htot, Hcnt.
  - rewrite Hsk'. exact Hruns.
  - rewrite Hsk'. exact (split_runs_closes size live sk' Hruns).
  - now rewrite Hsk.
  - lia.
  - intros Hsmall.
    assert (Hn : Z.of_nat (length (splitKeys fin)) = 0) by nia.
    destruct (splitKeys fin); [reflexivity|cbn [length] in Hn; lia].
  - intros ->. rewrite Hfin. destruct live as [|row rows]; [reflexivity|].
    cbn [fold_left]. rewrite split_fold_size_zero.
    + reflexivity.
    + unfold splitStep, init. cbn [appendSplitKey sum].
      apply orb_true_iff. left. apply Z.leb_le. unfold AddUint64.
      apply Z.mod_pos_bound. lia.
Qed.

Lemma SplitCheck_result_witness :
  exists sk : list bytes,
    SplitCheck (fun _ => 0) sample k1 k3 4 = Some (8, 2, sk)
    /\ sk `sublist_of` [k2].
Proof.
  destruct (SplitCheck_result (fun _ => 0) sample k1 k3 4)
    as (sk & Heq & _ & _ & Hsub & _).
  - repeat constructor; right; cbn; lia.
  - lia.
  - reflexivity.
  - exists sk. split; [exact Heq|exact Hsub].
Defined.

Example SplitCheck_sample :
  SplitCheck (fun _ => 0) sample k1 k3 4 = Some (8, 2, [k2])
  /\ SplitCheck (fun _ => 0) sample k1 k3 9 = Some (8, 2, []).
Proof. split; reflexivity. Qed.

(** *** [Write] *)

(** The operation codes of a write batch: the two [Write] switches on,
    [util.OpSet] and [util.OpDelete], and any other value, which falls
    through the [switch]. *)
Inductive batchOp : Type := OpSet | OpDelete | OpOther.

(** [util.WriteBatch] as [Write] uses it: four slices indexed by the
    position of the operation. *)
Record WriteBatch : Type := mkBatch {
  Ops : list batchOp;
  Keys : list bytes;
  Values : list bytes;
  TTLs : list Z
}.

(** The [range] loop of [Write] from index [idx] on; [nowAt i] is the clock
    reading during operation [i].  Indexing a slice out of range panics,
    which is [None]. *)
Fixpoint writeLoop (nowAt : nat -> Z) (wb : WriteBatch) (idx : nat)
  (ops : list batchOp) (s : Storage) : option Storage :=
  match ops with
  | [] => Some s
  | OpDelete :: rest =>
      key ← Keys wb !! idx;
      writeLoop nowAt wb (S idx) rest (Delete s key)
  | OpSet :: rest =>
      key ← Keys wb !! idx;
      value ← Values wb !! idx;
      ttl ← TTLs wb !! idx;
      writeLoop nowAt wb (S idx) rest (SetWithTTL (nowAt idx) s key value ttl)
  | OpOther :: rest => writeLoop nowAt wb (S idx) rest s
  end.

(** [Write(wb, sync)]; the returned error is always [nil]. *)
Definition Write (nowAt : nat -> Z) (s : Storage) (wb : WriteBatch) (sync : bool) :
  option Storage :=
  if (length (Ops wb) =? 0)%nat then Some s
  else writeLoop nowAt wb 0 (Ops wb) s.

(** A batch whose slices cover every operation. *)
Definition batch_complete (wb : WriteBatch) : Prop :=
  (length (Ops wb) <= length (Keys wb))%nat
  /\ (length (Ops wb) <= length (Values wb))%nat
  /\ (length (Ops wb) <= length (TTLs wb))%nat.

Lemma Write_loop (nowAt : nat -> Z) (s : Storage) (wb : WriteBatch) (sync : bool) :
  Write nowAt s wb sync = writeLoop nowAt wb 0 (Ops wb) s.
Proof. unfold Write. now destruct (Ops wb). Qed.

Lemma writeLoop_app (nowAt : nat -> Z) (wb : WriteBatch) (ops1 ops2 : list batchOp) :
  forall (idx : nat) (s : Storage),
    writeLoop nowAt wb idx (ops1 ++ ops2) s
    = s' ← writeLoop nowAt wb idx ops1 s;
      writeLoop nowAt wb (idx + length ops1) ops2 s'.
Proof.
  induction ops1 as [|op ops1 IH]; intros idx s; cbn [app writeLoop length].
  - cbn. now rewrite Nat.add_0_r.
  - replace (idx + S (length ops1))%nat with (S idx + length ops1)%nat by lia.
    destruct op.
    + destruct (Keys wb !! idx) as [key|]; [|reflexivity].
      destruct (Values wb !! idx) as [value|]; [|reflexivity].
      destruct (TTLs wb !! idx) as [ttl|]; [|reflexivity].
      cbn. apply IH.
    + destruct (Keys wb !! idx) as [key|]; [|reflexivity]. cbn. apply IH.
    + apply IH.
Qed.

Lemma writeLoop_total (nowAt : nat -> Z) (wb : WriteBatch) (ops : list batchOp) :
  forall (idx : nat) (s : Storage),
    (idx + length ops <= length (Keys wb))%nat ->
    (idx + length ops <= length (Values wb))%nat ->
    (idx + length ops <= length (TTLs wb))%nat ->
    exists s',
      writeLoop nowAt wb idx ops s = Some s'
      /\ SyncCount s' = SyncCount s
      /\ (written s -> written s')
      /\ forall (now : Z) (k : bytes), ~ In k (Keys wb) -> Get now s' k = Get now s k.
Proof.
  induction ops as [|op ops IH]; intros idx s Hk Hv Ht; cbn [writeLoop length] in *.
  - exists s. split; [reflexivity|]. split; [reflexivity|]. split; [auto|].
    reflexivity.
  - destruct (lookup_lt_is_Some_2 (Keys wb) idx) as [key Hkey]; [lia|].
    destruct (lookup_lt_is_Some_2 (Values wb) idx) as [value Hvalue]; [lia|].
    destruct (lookup_lt_is_Some_2 (TTLs wb) idx) as [ttl Httl]; [lia|].
    assert (Hin : In key (Keys wb))
      by (apply list_elem_of_In, list_elem_of_lookup; eauto).
    destruct op; rewrite ?Hkey, ?Hvalue, ?Httl; cbn.
    + destruct (IH (S idx) (SetWithTTL (nowAt idx) s key value ttl))
        as (s' & Hs' & Hsync & Hw & Hget); [lia..|].
      exists s'. split; [exact Hs'|].
      split; [rewrite Hsync; unfold SetWithTTL; now destruct (ttl >? 0)|]. split.
      * intros H. now apply Hw, SetWithTTL_written.
      * intros now k Hnin. rewrite (Hget now k Hnin). unfold Get.
        rewrite SetWithTTL_kv, KVTree.Get_Put_ne; [reflexivity|congruence].
    + destruct (IH (S idx) (Delete s key)) as (s' & Hs' & Hsync & Hw & Hget); [lia..|].
      exists s'. split; [exact Hs'|]. split; [exact Hsync|]. split.
      * intros H. now apply Hw, Delete_written.
      * intros now k Hnin. rewrite (Hget now k Hnin). unfold Get.
        change (kv (Delete s key)) with (KVTree.Delete key (kv s)).
        rewrite Get_Delete, eqb_neq; [reflexivity|congruence].
    + destruct (IH (S idx) s) as (s' & Hs' & Hrest); [lia..|].
      exists s'. split; [exact Hs'|exact Hrest].
Qed.

(** [Write]: with slices covering every operation it does not panic, it
    never syncs (whatever [sync] says), keys the batch does not name read as
    before, and the last operation of the batch decides what its key reads:
    the value of a set without TTL, the empty value after a delete. *)
Theorem Write_applies_in_order (nowAt : nat -> Z) (now' : Z) (s : Storage)
  (wb : WriteBatch) (sync : bool) :
  batch_complete wb ->
  exists s' : Storage,
    Write nowAt s wb sync = Some s'
    /\ SyncCount s' = SyncCount s
    /\ (forall k : bytes, ~ In k (Keys wb) -> Get now' s' k = Get now' s k)
    /\ (forall (front : list batchOp) (key value : bytes) (ttl : Z),
          Ops wb = front ++ [OpSet] ->
          Keys wb !! length front = Some key ->
          Values wb !! length front = Some value ->
          TTLs wb !! length front = Some ttl ->
          ttl <= 0 ->
          Get now' s' key = Some value)
    /\ (forall (front : list batchOp) (key : bytes),
          Ops wb = front ++ [OpDelete] ->
          Keys wb !! length front = Some key ->
          Get now' s' key = Some []).
Proof.
  intros (Hk & Hv & Ht). rewrite Write_loop.
  destruct (writeLoop_total nowAt wb (Ops wb) 0 s) as (s' & Hs' & Hsync & _ & Hget);
    [cbn; lia..|].
  exists s'. split; [exact Hs'|]. split; [exact Hsync|].
  split; [intros k Hnin; now apply Hget|]. split.
  - intros front key value ttl Hops Hkey Hvalue Httl Hle.
    rewrite Hops, writeLoop_app in Hs'.
    destruct (writeLoop nowAt wb 0 front s) as [s1|]; [|discriminate].
    cbn in Hs'. rewrite Hkey, Hvalue, Httl in Hs'. cbn in Hs'.
    injection Hs' as <-. now apply Get_SetWithTTL_no_expiry.
  - intros front key Hops Hkey.
    rewrite Hops, writeLoop_app in Hs'.
    destruct (writeLoop nowAt wb 0 front s) as [s1|]; [|discriminate].
    cbn in Hs'. rewrite Hkey in Hs'. cbn in Hs'. injection Hs' as <-.
    unfold Get. change (kv (Delete s1 key)) with (KVTree.Delete key (kv s1)).
    now rewrite Get_Delete, eqb_refl.
Qed.

Definition sample_batch : WriteBatch :=
  mkBatch [OpSet; OpDelete; OpSet] [k3; k1; k1] [v1; []; v2] [0; 0; 0].

Lemma Write_applies_in_order_witness :
  exists s' : Storage,
    Write (fun _ => 0) sample sample_batch true = Some s'
    /\ Get 3 s' k1 = Some v2
    /\ Get 3 s' k2 = Get 3 sample k2.
Proof.
  destruct (Write_applies_in_order (fun _ => 0) 3 sample sample_batch true)
    as (s' & Hs' & _ & Hframe & Hset & _).
  - repeat split; cbn; lia.
  - exists s'. split; [exact Hs'|]. split.
    + apply (Hset [OpSet; OpDelete] k1 v2 0); reflexivity || lia.
    + apply Hframe. intros [H|[H|[H|[]]]]; discriminate.
Defined.

(** *** Snapshot files that are incomplete, and restoring over rows *)

(** The content of the snapshot file under [path], if there is one. *)
Definition snapshotFile (fs : FS) (path : string) : option bytes :=
  fs !! PathJoin path "db.data".

Lemma readBytes_short (n : Z) (data : bytes) :
  Z.of_nat (length data) < n < 2 ^ 32 ->
  readBytes (PutUint32 n ++ data) = ReadHang.
Proof.
  intros Hn. unfold readBytes.
  change (PutUint32 n ++ data)
    with (byte_of_Z (Z.shiftr (n mod 2 ^ 32) 24)
          :: byte_of_Z (Z.shiftr (n mod 2 ^ 32) 16)
          :: byte_of_Z (Z.shiftr (n mod 2 ^ 32) 8)
          :: byte_of_Z (n mod 2 ^ 32) :: data).
  cbv zeta.
  change (firstn 4 (_ ++ repeat x00 4)) with (PutUint32 n).
  change (skipn 4 (_ :: _ :: _ :: _ :: data)) with data.
  replace (Uint32 (PutUint32 n)) with n.
  2:{ rewrite <- (app_nil_r (PutUint32 n)), Uint32_PutUint32_app.
      symmetry. apply Z.mod_small. lia. }
  destruct (Nat.leb_spec (Z.to_nat n) (length data)); [lia|reflexivity].
Qed.

Lemma applyLoop_encoded_app (rows : list KVTree.item) :
  forall (fuel : nat) (s : Storage) (rest : bytes),
    (length rows < fuel)%nat ->
    Forall storable rows ->
    applyLoop fuel (encodeItems rows ++ rest) s
    = applyLoop (fuel - length rows) rest (fold_left applyItem rows s).
Proof.
  induction rows as [|[k v] rows IH]; intros fuel s rest Hfuel Hok.
  - cbn [length fold_left]. now rewrite Nat.sub_0_r.
  - destruct fuel as [|fuel]; [cbn [length] in Hfuel; lia|].
    inversion Hok as [|? ? (Hk & Hv & Hlk & Hlv) Hrest]; subst.
    cbn [fst snd] in Hk, Hv, Hlk, Hlv. cbn [length] in Hfuel.
    rewrite applyLoop_S, encodeItems_cons, <- !app_assoc.
    rewrite readBytes_written by assumption. rewrite (length_nonzero k Hk).
    rewrite readBytes_written by assumption. rewrite (length_nonzero v Hv).
    cbn [fold_left length]. rewrite IH by (assumption || lia).
    reflexivity.
Qed.

Lemma ApplySnapshot_header (fs : FS) (s0 : Storage) (path : string)
  (start end_ body : bytes) :
  snapshotFile fs path
  = Some (PutUint32 (len start) ++ start ++ PutUint32 (len end_) ++ end_ ++ body) ->
  start <> [] -> end_ <> [] -> len start < 2 ^ 32 -> len end_ < 2 ^ 32 ->
  ApplySnapshot fs s0 path
  = applyLoop (S (length body)) body (withKV (KVTree.RangeDelete start end_) s0).
Proof.
  intros Hfile Hs He Hls Hle. unfold snapshotFile in Hfile.
  unfold ApplySnapshot. rewrite Hfile.
  rewrite readBytes_written by assumption. rewrite (length_nonzero start Hs).
  rewrite readBytes_written by assumption. now rewrite (length_nonzero end_ He).
Qed.

(** [ApplySnapshot] on what is not a whole snapshot.  Without the file, or
    with an empty one, it returns an error and leaves the storage as it
    was.  When the file ends inside the key of a row, or inside the value
    of a row whose key is complete, the read loop of [readBytes] never
    returns; when it ends right after a key, the error is "missing value
    field".  In all three cases the range has already been cleared and the
    rows read so far put. *)
Theorem ApplySnapshot_incomplete (fs : FS) (s0 : Storage) (path : string) :
  (snapshotFile fs path = None ->
   ApplySnapshot fs s0 path
   = (s0, Returned (Some (ErrNotExist (PathJoin path "db.data")))))
  /\ (snapshotFile fs path = Some [] ->
      ApplySnapshot fs s0 path = (s0, Returned (Some ErrMissingStart)))
  /\ (forall (start end_ : bytes) (rows : list KVTree.item) (n : Z) (data : bytes),
        start <> [] -> end_ <> [] -> len start < 2 ^ 32 -> len end_ < 2 ^ 32 ->
        Forall storable rows ->
        Z.of_nat (length data) < n < 2 ^ 32 ->
        snapshotFile fs path
        = Some (PutUint32 (len start) ++ start ++ PutUint32 (len end_) ++ end_
                ++ encodeItems rows ++ PutUint32 n ++ data) ->
        ApplySnapshot fs s0 path
        = (fold_left applyItem rows (withKV (KVTree.RangeDelete start end_) s0), Hangs))
  /\ (forall (start end_ : bytes) (rows : list KVTree.item) (key : bytes),
        start <> [] -> end_ <> [] -> len start < 2 ^ 32 -> len end_ < 2 ^ 32 ->
        Forall storable rows ->
        key <> [] -> len key < 2 ^ 32 ->
        snapshotFile fs path
        = Some (PutUint32 (len start) ++ start ++ PutUint32 (len end_) ++ end_
                ++ encodeItems rows ++ PutUint32 (len key) ++ key) ->
        ApplySnapshot fs s0 path
        = (fold_left applyItem rows (withKV (KVTree.RangeDelete start end_) s0),
           Returned (Some ErrMissingValue)))
  /\ (forall (start end_ : bytes) (rows : list KVTree.item) (key : bytes) (n : Z)
             (data : bytes),
        start <> [] -> end_ <> [] -> len start < 2 ^ 32 -> len end_ < 2 ^ 32 ->
        Forall storable rows ->
        key <> [] -> len key < 2 ^ 32 ->
        Z.of_nat (length data) < n < 2 ^ 32 ->
        snapshotFile fs path
        = Some (PutUint32 (len start) ++ start ++ PutUint32 (len end_) ++ end_
                ++ encodeItems rows ++ PutUint32 (len key) ++ key
                ++ PutUint32 n ++ data) ->
        ApplySnapshot fs s0 path
        = (fold_left applyItem rows (withKV (KVTree.RangeDelete start end_) s0), Hangs)).
Proof.
  split; [|split; [|split; [|split]]].
  - intros Hnone. unfold snapshotFile in Hnone. unfold ApplySnapshot.
    now rewrite Hnone.
  - intros Hempty. unfold snapshotFile in Hempty. unfold ApplySnapshot.
    now rewrite Hempty.
  - intros start end_ rows n data Hs He Hls Hle Hrows Hn Hfile.
    rewrite (ApplySnapshot_header fs s0 path start end_ _ Hfile) by assumption.
    pose proof (encodeItems_length rows) as Hlen.
    rewrite applyLoop_encoded_app
      by (try assumption; rewrite length_app; lia).
    replace (S (length (encodeItems rows ++ PutUint32 n ++ data)) - length rows)%nat
      with (S (length (encodeItems rows ++ PutUint32 n ++ data) - length rows))
      by (rewrite length_app; lia).
    rewrite applyLoop_S. now rewrite readBytes_short.
  - intros start end_ rows key Hs He Hls Hle Hrows Hk Hlk Hfile.
    rewrite (ApplySnapshot_header fs s0 path start end_ _ Hfile) by assumption.
    pose proof (encodeItems_length rows) as Hlen.
    rewrite applyLoop_encoded_app
      by (try assumption; rewrite length_app; lia).
    replace (S (length (encodeItems rows ++ PutUint32 (len key) ++ key)) - length rows)%nat
      with (S (length (encodeItems rows ++ PutUint32 (len key) ++ key) - length rows))
      by (rewrite length_app; lia).
    rewrite applyLoop_S.
    rewrite <- (app_nil_r key) at 2. rewrite readBytes_written by assumption.
    now rewrite (length_nonzero key Hk).
  - intros start end_ rows key n data Hs He Hls Hle Hrows Hk Hlk Hn Hfile.
    rewrite (ApplySnapshot_header fs s0 path start end_ _ Hfile) by assumption.
    pose proof (encodeItems_length rows) as Hlen.
    rewrite applyLoop_encoded_app
      by (try assumption; rewrite length_app; lia).
    replace (S (length (encodeItems rows ++ PutUint32 (len key) ++ key
                        ++ PutUint32 n ++ data)) - length rows)%nat
      with (S (length (encodeItems rows ++ PutUint32 (len key) ++ key
                       ++ PutUint32 n ++ data) - length rows))
      by (rewrite length_app; lia).
    rewrite applyLoop_S.
    rewrite readBytes_written by assumption.
    rewrite (length_nonzero key Hk). now rewrite readBytes_short.
Qed.

(** A snapshot file that stops after one byte of a start key announced as
    two bytes long. *)
Definition cut_file : bytes := PutUint32 2 ++ [x6b].

Lemma ApplySnapshot_incomplete_witness :
  ApplySnapshot ∅ sample "none" = (sample, Returned (Some (ErrNotExist "none/db.data")))
  /\ ApplySnapshot (<[PathJoin "snap" "db.data" :=
                        PutUint32 (len k1) ++ k1 ++ PutUint32 (len k3) ++ k3
                        ++ encodeItems [] ++ PutUint32 (len k2) ++ k2]> ∅)
       NewStorage "snap"
     = (NewStorage, Returned (Some ErrMissingValue))
  /\ ApplySnapshot (<[PathJoin "snap" "db.data" :=
                        PutUint32 (len k1) ++ k1 ++ PutUint32 (len k3) ++ k3
                        ++ encodeItems [(k1, v1)] ++ PutUint32 (len k2) ++ k2
                        ++ PutUint32 5 ++ v2]> ∅)
       NewStorage "snap"
     = (fold_left applyItem [(k1, v1)] (withKV (KVTree.RangeDelete k1 k3) NewStorage),
        Hangs).
Proof.
  split; [|split].
  - exact (proj1 (ApplySnapshot_incomplete ∅ sample "none") eq_refl).
  - refine (proj1 (proj2 (proj2 (proj2 (ApplySnapshot_incomplete _ NewStorage "snap"))))
              k1 k3 [] k2 _ _ _ _ _ _ _ _);
      try discriminate; try reflexivity; try constructor.
  - refine (proj2 (proj2 (proj2 (proj2 (ApplySnapshot_incomplete _ NewStorage "snap"))))
              k1 k3 [(k1, v1)] k2 5 v2 _ _ _ _ _ _ _ _ _).
    + discriminate.
    + discriminate.
    + reflexivity.
    + reflexivity.
    + repeat constructor; cbn; try discriminate; reflexivity.
    + discriminate.
    + reflexivity.
    + cbn. lia.
    + apply lookup_insert_eq.
Defined.

Example ApplySnapshot_cut_file :
  ApplySnapshot (<[PathJoin "snap" "db.data" := cut_file]> ∅) sample "snap"
  = (sample, Hangs).
Proof. reflexivity. Qed.

Lemma Get_absent (k : bytes) (tr : KVTree.t) :
  ~ In k (KVTree.keys tr) -> KVTree.Get k tr = [].
Proof.
  induction tr as [|[k' v'] tr IH]; cbn [KVTree.Get KVTree.keys map fst];
    [reflexivity|].
  intros Hnin. rewrite eqb_neq; [apply IH|]; intros H; apply Hnin; [now right|].
  left. now symmetry.
Qed.

Lemma Get_present (k v : bytes) (tr : KVTree.t) :
  KVTree.sorted tr -> In (k, v) tr -> KVTree.Get k tr = v.
Proof.
  unfold KVTree.sorted. induction 1 as [|[k' v'] tr Hs IH Hall];
    cbn [KVTree.Get]; [intros []|].
  intros [[= -> ->]|Hin]; [now rewrite eqb_refl|].
  rewrite eqb_neq; [now apply IH|]. intros ->.
  rewrite List.Forall_forall in Hall. specialize (Hall _ Hin).
  unfold KVTree.key_lt in Hall. cbn [fst] in Hall.
  rewrite ltb_irrefl in Hall. discriminate.
Qed.

Lemma keys_In_dec (k : bytes) (tr : KVTree.t) :
  (exists v, In (k, v) tr) \/ ~ In k (KVTree.keys tr).
Proof.
  induction tr as [|[k' v'] tr IH]; [right; intros []|].
  destruct (eqb k k') eqn:E.
  - apply eqb_eq in E. subst k'. left. exists v'. now left.
  - destruct IH as [[v Hv]|Hnin]; [left; exists v; now right|].
    right. cbn [KVTree.keys map fst]. intros [H|H]; [|now apply Hnin].
    subst k'. now rewrite eqb_refl in E.
Qed.

Lemma Get_fold_Put_absent (items : list KVTree.item) (k : bytes) :
  forall tr : KVTree.t,
    ~ In k (KVTree.keys items) ->
    KVTree.Get k (fold_left (fun t kv => KVTree.Put (fst kv) (snd kv) t) items tr)
    = KVTree.Get k tr.
Proof.
  induction items as [|[k' v'] items IH]; intros tr Hnin; cbn [fold_left];
    [reflexivity|].
  cbn [KVTree.keys map fst] in Hnin. rewrite IH by (intros H; apply Hnin; now right).
  cbn [fst snd]. apply KVTree.Get_Put_ne. intros ->. apply Hnin. now left.
Qed.

Lemma Get_fold_Put_present (items : list KVTree.item) (k v : bytes) :
  KVTree.sorted items ->
  In (k, v) items ->
  forall tr : KVTree.t,
    KVTree.Get k (fold_left (fun t kv => KVTree.Put (fst kv) (snd kv) t) items tr) = v.
Proof.
  unfold KVTree.sorted. induction 1 as [|[k' v'] items Hs IH Hall];
    [intros []|].
  intros [[= -> ->]|Hin] tr; cbn [fold_left fst snd].
  - rewrite Get_fold_Put_absent; [apply KVTree.Get_Put_eq|].
    intros Hk. apply in_map_iff in Hk as ([a b] & Ha & Hab). cbn [fst] in Ha. subst a.
    rewrite List.Forall_forall in Hall. specialize (Hall _ Hab).
    unfold KVTree.key_lt in Hall. cbn [fst] in Hall.
    rewrite ltb_irrefl in Hall. discriminate.
  - now apply IH.
Qed.

Lemma fold_Put_keeps_sorted (items : list KVTree.item) :
  forall tr : KVTree.t,
    KVTree.sorted tr ->
    KVTree.sorted (fold_left (fun t kv => KVTree.Put (fst kv) (snd kv) t) items tr).
Proof.
  induction items as [|x items IH]; intros tr Hs; cbn [fold_left]; [exact Hs|].
  now apply IH, KVTree.Put_sorted.
Qed.

Lemma WrittenKeys_fold_applyItem (items : list KVTree.item) :
  forall s : Storage,
    0 <= WrittenKeys (stats s) < 2 ^ 64 ->
    WrittenKeys (stats (fold_left applyItem items s))
    = AddUint64 (WrittenKeys (stats s)) (Z.of_nat (length items)).
Proof.
  induction items as [|x items IH]; intros s Hfit; cbn [fold_left length].
  - unfold AddUint64. rewrite Z.add_0_r. symmetry. now apply Z.mod_small.
  - rewrite IH.
    + unfold applyItem. cbn [withKV addWrittenBytes addWrittenKeys stats WrittenKeys].
      unfold AddUint64. rewrite Z.add_mod_idemp_l by lia. f_equal. lia.
    + unfold applyItem. cbn [withKV addWrittenBytes addWrittenKeys stats WrittenKeys].
      unfold AddUint64. apply Z.mod_pos_bound. lia.
Qed.

(** Restoring a snapshot of [[start, end)] taken from [s] into a storage
    [s0] that already holds rows (non-empty [start] and [end], lengths
    below [2^32]): afterwards every key of the range reads as in [s], also
    the keys [s] lacks, every key outside the range reads as it did in [s0],
    the tree is still in key order, and [WrittenKeys] has grown by the
    number of rows in the snapshot. *)
Theorem ApplySnapshot_replaces_range (fs : FS) (s s0 : Storage) (path : string)
  (start end_ : bytes) :
  KVTree.sorted (kv s) ->
  Forall (fun kv => snd kv <> [] /\ len (fst kv) < 2 ^ 32 /\ len (snd kv) < 2 ^ 32) (kv s) ->
  start <> [] -> end_ <> [] -> len start < 2 ^ 32 -> len end_ < 2 ^ 32 ->
  let applied := ApplySnapshot (fst (CreateSnapshot fs s path start end_)) s0 path in
  snd applied = Returned None
  /\ (forall k : bytes,
        in_range start end_ k = true ->
        KVTree.Get k (kv (fst applied)) = KVTree.Get k (kv s))
  /\ (forall k : bytes,
        in_range start end_ k = false ->
        KVTree.Get k (kv (fst applied)) = KVTree.Get k (kv s0))
  /\ (KVTree.sorted (kv s0) -> KVTree.sorted (kv (fst applied)))
  /\ (0 <= WrittenKeys (stats s0) < 2 ^ 64 ->
      WrittenKeys (stats (fst applied))
      = AddUint64 (WrittenKeys (stats s0))
          (Z.of_nat (length (KVTree.range_items start end_ (kv s))))).
Proof.
  intros Hsorted Hrows Hs He Hls Hle applied. subst applied.
  rewrite ApplySnapshot_CreateSnapshot by assumption. cbn [fst snd].
  set (items := KVTree.range_items start end_ (kv s)).
  assert (Hitems : KVTree.sorted items) by now apply KVTree.filter_sorted.
  rewrite kv_fold_applyItem.
  change (kv (withKV (KVTree.RangeDelete start end_) s0))
    with (KVTree.RangeDelete start end_ (kv s0)).
  split; [reflexivity|]. split; [|split; [|split]].
  - intros k Hk. destruct (keys_In_dec k (kv s)) as [[v Hv]|Hnin].
    + rewrite (Get_fold_Put_present items k v Hitems).
      * symmetry. now apply Get_present.
      * apply filter_In. now split.
    + rewrite Get_fold_Put_absent.
      * rewrite (Get_absent k (kv s) Hnin).
        apply KVTree.Get_filter_drop. intros v. cbn [fst]. now rewrite Hk.
      * intros Hin. apply Hnin. apply in_map_iff in Hin as (x & Hx & Hin).
        apply filter_In in Hin as [Hin _]. apply in_map_iff. eauto.
  - intros k Hk. rewrite Get_fold_Put_absent.
    + apply KVTree.Get_filter_keep. intros v. cbn [fst]. now rewrite Hk.
    + intros Hin. apply in_map_iff in Hin as ([a b] & Ha & Hin).
      apply filter_In in Hin as [_ Hr]. cbn [fst] in *. subst a. congruence.
  - intros Hs0. now apply fold_Put_keeps_sorted, KVTree.filter_sorted.
  - intros Hfit. now rewrite WrittenKeys_fold_applyItem.
Qed.

Lemma ApplySnapshot_replaces_range_witness :
  KVTree.Get k1 (kv (fst (ApplySnapshot
                            (fst (CreateSnapshot ∅ sample "snap" k1 k2))
                            (Set_ 0 (Set_ 0 NewStorage k1 v2) k3 v2) "snap")))
  = KVTree.Get k1 (kv sample).
Proof.
  refine (proj1 (proj2 (ApplySnapshot_replaces_range ∅ sample
                          (Set_ 0 (Set_ 0 NewStorage k1 v2) k3 v2) "snap" k1 k2
                          _ _ _ _ _ _)) k1 _).
  - repeat constructor.
  - repeat constructor; discriminate.
  - discriminate.
  - discriminate.
  - reflexivity.
  - reflexivity.
  - reflexivity.
Defined.

(** *** What every storage built through the write operations satisfies *)

(** The storages reachable from [NewStorage] by the operations that write
    rows. *)
Inductive built : Storage -> Prop :=
| built_new : built NewStorage
| built_Set (now : Z) (s : Storage) (key value : bytes) :
    built s -> built (Set_ now s key value)
| built_SetWithTTL (now : Z) (s : Storage) (key value : bytes) (ttl : Z) :
    built s -> built (SetWithTTL now s key value ttl)
| built_BatchSet (now : Z) (s : Storage) (pairs : list bytes) :
    built s -> built (fst (BatchSet now s pairs))
| built_Delete (s : Storage) (key : bytes) : built s -> built (Delete s key)
| built_BatchDelete (s : Storage) (keys : list bytes) :
    built s -> built (BatchDelete s keys)
| built_RangeDelete (s : Storage) (start end_ : bytes) :
    built s -> built (RangeDelete s start end_)
| built_Write (nowAt : nat -> Z) (s s' : Storage) (wb : WriteBatch) (sync : bool) :
    built s -> Write nowAt s wb sync = Some s' -> built s'
| built_Sync (s : Storage) : built s -> built (Sync s).

(** The counters as unsigned 64-bit numbers. *)
Definition counters_fit (s : Storage) : Prop :=
  0 <= WrittenKeys (stats s) < 2 ^ 64
  /\ 0 <= WrittenBytes (stats s) < 2 ^ 64
  /\ 0 <= SyncCount s < 2 ^ 64.

Definition sound (s : Storage) : Prop := written s /\ counters_fit s.

Lemma AddUint64_fit (c d : Z) : 0 <= AddUint64 c d < 2 ^ 64.
Proof. unfold AddUint64. apply Z.mod_pos_bound. lia. Qed.

Lemma SetWithTTL_sound (now : Z) (s : Storage) (key value : bytes) (ttl : Z) :
  sound s -> sound (SetWithTTL now s key value ttl).
Proof.
  intros [Hw (Hk & Hb & Hc)]. split; [now apply SetWithTTL_written|].
  unfold counters_fit. rewrite SetWithTTL_stats. cbn [WrittenKeys WrittenBytes].
  repeat split; try apply AddUint64_fit;
    unfold SetWithTTL; destruct (ttl >? 0); cbn; lia.
Qed.

Lemma Set_sound (now : Z) (s : Storage) (key value : bytes) :
  sound s -> sound (Set_ now s key value).
Proof.
  intros [Hw (Hk & Hb & Hc)]. unfold Set_. apply SetWithTTL_sound.
  split; [exact Hw|]. unfold counters_fit. cbn.
  repeat split; try apply AddUint64_fit; lia.
Qed.

Lemma batchSetLoop_sound (now : Z) (n : nat) :
  forall (pairs : list bytes) (s : Storage),
    (length pairs <= n)%nat -> sound s -> sound (batchSetLoop now pairs s).
Proof.
  induction n as [|n IH]; intros pairs s Hlen Hs.
  - destruct pairs; [exact Hs|cbn in Hlen; lia].
  - destruct pairs as [|k [|v rest]]; try exact Hs.
    cbn [batchSetLoop]. apply IH; [cbn in Hlen; lia|].
    destruct (Set_sound now s k v Hs) as [Hw (Hk & Hb & Hc)].
    split; [exact Hw|]. unfold counters_fit. cbn [addWrittenBytes stats WrittenKeys
      WrittenBytes SyncCount]. repeat split; try apply AddUint64_fit; lia.
Qed.

Lemma BatchSet_sound (now : Z) (s : Storage) (pairs : list bytes) :
  sound s -> sound (fst (BatchSet now s pairs)).
Proof.
  intros Hs. unfold BatchSet. destruct (negb _); [exact Hs|]. cbn [fst].
  apply (batchSetLoop_sound now (length pairs)); [lia|].
  destruct Hs as [Hw (Hk & Hb & Hc)]. split; [exact Hw|].
  unfold counters_fit. cbn. repeat split; try apply AddUint64_fit; lia.
Qed.

Lemma Delete_sound (s : Storage) (key : bytes) : sound s -> sound (Delete s key).
Proof.
  intros [Hw (Hk & Hb & Hc)]. split; [now apply Delete_written|].
  unfold counters_fit. cbn. repeat split; try apply AddUint64_fit; lia.
Qed.

Lemma RangeDelete_sound (s : Storage) (start end_ : bytes) :
  sound s -> sound (RangeDelete s start end_).
Proof.
  intros [Hw (Hk & Hb & Hc)]. split; [now apply RangeDelete_written|].
  unfold counters_fit. cbn. repeat split; try apply AddUint64_fit; lia.
Qed.

Lemma fold_Delete_written (keys : list bytes) :
  forall tr : KVTree.t,
    KVTree.sorted tr /\ Forall (fun kv => (8 <= length (snd kv))%nat) tr ->
    KVTree.sorted (fold_left (fun t key => KVTree.Delete key t) keys tr)
    /\ Forall (fun kv => (8 <= length (snd kv))%nat)
         (fold_left (fun t key => KVTree.Delete key t) keys tr).
Proof.
  induction keys as [|k keys IH]; intros tr [Hs Hv]; cbn [fold_left]; [now split|].
  apply IH. split; [now apply KVTree.filter_sorted|now apply Forall_filter_keep].
Qed.

Lemma BatchDelete_sound (s : Storage) (keys : list bytes) :
  sound s -> sound (BatchDelete s keys).
Proof.
  intros [Hw (Hk & Hb & Hc)]. unfold BatchDelete. rewrite batchDelete_fold. split.
  - exact (fold_Delete_written keys (kv s) Hw).
  - unfold counters_fit. cbn. repeat split; try apply AddUint64_fit; lia.
Qed.

Lemma writeLoop_sound (nowAt : nat -> Z) (wb : WriteBatch) (ops : list batchOp) :
  forall (idx : nat) (s s' : Storage),
    sound s -> writeLoop nowAt wb idx ops s = Some s' -> sound s'.
Proof.
  induction ops as [|op ops IH]; intros idx s s' Hs; cbn [writeLoop].
  - now intros [= <-].
  - destruct op.
    + destruct (Keys wb !! idx) as [key|]; [|discriminate].
      destruct (Values wb !! idx) as [value|]; [|discriminate].
      destruct (TTLs wb !! idx) as [ttl|]; [|discriminate]. cbn.
      apply IH. now apply SetWithTTL_sound.
    + destruct (Keys wb !! idx) as [key|]; [|discriminate]. cbn.
      apply IH. now apply Delete_sound.
    + now apply IH.
Qed.

Lemma built_sound (s : Storage) : built s -> sound s.
Proof.
  induction 1 as [|now s key value _ IH|now s key value ttl _ IH|now s pairs _ IH
                  |s key _ IH|s keys _ IH|s start end_ _ IH
                  |nowAt s s' wb sync _ IH Hw|s _ IH].
  - split; [exact NewStorage_written|]. unfold counters_fit. cbn. lia.
  - now apply Set_sound.
  - now apply SetWithTTL_sound.
  - now apply BatchSet_sound.
  - now apply Delete_sound.
  - now apply BatchDelete_sound.
  - now apply RangeDelete_sound.
  - rewrite Write_loop in Hw. exact (writeLoop_sound nowAt wb (Ops wb) 0 s s' IH Hw).
  - destruct IH as [Hw (Hk & Hb & Hc)]. split; [exact Hw|].
    unfold counters_fit. cbn. repeat split; try apply AddUint64_fit; lia.
Qed.

Lemma Get_decodable (k : bytes) (tr : KVTree.t) :
  Forall (fun kv => decodable (snd kv)) tr -> decodable (KVTree.Get k tr).
Proof.
  induction 1 as [|[k' v'] tr Hv _ IH]; cbn [KVTree.Get]; [now left|].
  now destruct (eqb k k').
Qed.

Lemma visit_scan_total {St E : Type} (nowAt : nat -> Z) (h : @handler St E)
  (items : list KVTree.item) :
  forall (n : nat) (st : St),
    Forall (fun kv => decodable (snd kv)) items ->
    exists r, KVTree.visit (scanCallback nowAt h) items (n, st) = Some r.
Proof.
  induction items as [|[k v] items IH]; intros n st Hok; [now eexists|].
  inversion Hok as [|? ? Hv Hrest]; subst. cbn [snd] in Hv.
  destruct (decodeValue_total (nowAt n) v Hv) as [d Hd].
  cbn [KVTree.visit scanCallback]. rewrite Hd.
  destruct d as [|b d]; cbn [length Nat.eqb]; [now apply IH|].
  destruct (h st k (b :: d)) as [[st' [|]] [e|]]; try (now eexists).
  now apply IH.
Qed.

(** Whatever sequence of [Set], [SetWithTTL], [BatchSet], [Delete],
    [BatchDelete], [RangeDelete], [Write] and [Sync] built the storage:
    its keys are in strictly ascending order, every raw value carries its
    eight bytes of expiry time, the counters are within 64 bits, and
    therefore no [Get], [MGet], [Scan] or [SplitCheck] on it panics. *)
Theorem built_storage_is_sound (s : Storage) :
  built s ->
  KVTree.sorted (kv s)
  /\ Forall (fun kv => (8 <= length (snd kv))%nat) (kv s)
  /\ counters_fit s
  /\ (forall (now : Z) (key : bytes), exists v, Get now s key = Some v)
  /\ (forall (now : Z) (keys : list bytes),
        exists vs, MGet now s keys = Some vs /\ length vs = length keys)
  /\ (forall (St E : Type) (nowAt : nat -> Z) (start end_ : bytes)
             (h : @handler St E) (st : St),
        exists r, Scan nowAt s start end_ h st = Some r)
  /\ (forall (nowAt : nat -> Z) (start end_ : bytes) (size : Z),
        exists r, SplitCheck nowAt s start end_ size = Some r).
Proof.
  intros Hb. destruct (built_sound s Hb) as [Hw Hc].
  pose proof (written_decodable s Hw) as Hdec. destruct Hw as [Hs Hv].
  assert (Hget : forall (now : Z) (key : bytes), exists v, Get now s key = Some v).
  { intros now key. apply decodeValue_total. now apply Get_decodable. }
  assert (Hrange : forall start end_,
            Forall (fun kv => decodable (snd kv)) (KVTree.range_items start end_ (kv s))).
  { intros start end_. now apply Forall_filter_keep. }
  split; [exact Hs|]. split; [exact Hv|]. split; [exact Hc|]. split; [exact Hget|].
  split; [|split].
  - intros now keys. induction keys as [|key keys IH]; [now exists []|].
    destruct IH as (vs & Hvs & Hlen). destruct (Hget now key) as [v Hvk].
    exists (v :: vs). cbn [MGet]. rewrite Hvk, Hvs. cbn. now rewrite Hlen.
  - intros St E nowAt start end_ h st. unfold Scan, KVTree.Scan.
    destruct (visit_scan_total nowAt h _ 0%nat st (Hrange start end_))
      as [[[n' st'] e] Hr].
    rewrite Hr. now eexists.
  - intros nowAt start end_ size. unfold SplitCheck, KVTree.Scan.
    destruct (visit_split nowAt size _ 0%nat (mkSplit 0 0 0 false []) (Hrange start end_))
      as [n' Hr].
    rewrite Hr. now eexists.
Qed.

Lemma built_storage_is_sound_witness :
  counters_fit (Delete sample k1) /\ exists v, Get 1 (Delete sample k1) k2 = Some v.
Proof.
  destruct (built_storage_is_sound (Delete sample k1)) as (_ & _ & Hc & Hget & _).
  - apply built_Delete. unfold sample. apply built_Set, built_Set, built_new.
  - split; [exact Hc|exact (Hget 1 k2)].
Defined.

End MemOps.

(** ** More of schedulers/evict_leader.go: [uniqueAppend] and [Schedule] *)

Module EvictLeaderMore.
Import EvictLeader.

Section Scheduler.
Context {C : Type} `{Cluster C}.

(** The body of the second loop of [uniqueAppend]. *)
Definition appendUnique (acc : list Operator * gset Z) (op : Operator) :
  list Operator * gset Z :=
  if decide (ResourceID op ∈ acc.2) then acc
  else (acc.1 ++ [op], {[ResourceID op]} ∪ acc.2).

Lemma uniqueAppend_unfold (dst src : list Operator) :
  uniqueAppend dst src
  = (fold_left appendUnique src (dst, list_to_set (map ResourceID dst))).1.
Proof. reflexivity. Qed.

(** [resIDs] holds exactly the resources of the operators collected. *)
Definition ids_inv (acc : list Operator * gset Z) : Prop :=
  forall x : Z, x ∈ acc.2 <-> x ∈ map ResourceID acc.1.

Lemma appendUnique_fold (src : list Operator) :
  forall acc : list Operator * gset Z,
    ids_inv acc ->
    exists extra : list Operator,
      (fold_left appendUnique src acc).1 = acc.1 ++ extra
      /\ extra `sublist_of` src
      /\ ids_inv (fold_left appendUnique src acc)
      /\ (forall op, op ∈ src -> ResourceID op ∈ (fold_left appendUnique src acc).2)
      /\ acc.2 ⊆ (fold_left appendUnique src acc).2.
Proof.
  induction src as [|op src IH]; intros acc Hinv; cbn [fold_left].
  - exists []. rewrite app_nil_r. repeat split; auto; try apply Hinv.
    intros op Hop. now apply elem_of_nil in Hop.
  - unfold appendUnique at 2 4 6 8. destruct (decide (ResourceID op ∈ acc.2)) as [Hin|Hnin].
    + destruct (IH acc Hinv) as (extra & Heq & Hsub & Hinv' & Hcov & Hmono).
      exists extra. split; [exact Heq|]. split; [now apply sublist_cons|].
      split; [exact Hinv'|]. split; [|exact Hmono].
      intros op' Hop'. apply elem_of_cons in Hop' as [->|Hop']; [|now apply Hcov].
      now apply Hmono.
    + destruct (IH (acc.1 ++ [op], {[ResourceID op]} ∪ acc.2))
        as (extra & Heq & Hsub & Hinv' & Hcov & Hmono).
      { intros x. cbn [fst snd]. rewrite map_app, elem_of_app, elem_of_union,
          elem_of_singleton. cbn. rewrite list_elem_of_singleton, (Hinv x). tauto. }
      cbn [fst snd] in *. exists (op :: extra).
      split; [now rewrite Heq, <- app_assoc|]. split; [now apply sublist_skip|].
      split; [exact Hinv'|]. split.
      * intros op' Hop'. apply elem_of_cons in Hop' as [->|Hop']; [|now apply Hcov].
        apply Hmono. set_solver.
      * set_solver.
Qed.

Lemma appendUnique_fold_known (src : list Operator) :
  forall acc : list Operator * gset Z,
    (forall op, op ∈ src -> ResourceID op ∈ acc.2) ->
    fold_left appendUnique src acc = acc.
Proof.
  induction src as [|op src IH]; intros acc Hall; cbn [fold_left]; [reflexivity|].
  unfold appendUnique at 2. destruct (decide (ResourceID op ∈ acc.2)) as [Hin|Hnin].
  - apply IH. intros op' Hop'. apply Hall. now right.
  - exfalso. apply Hnin, Hall. now left.
Qed.

End Scheduler.

Section Properties.
Context {C : Type} `{Cluster C}.

Lemma uniqueAppend_ids_init (dst : list Operator) :
  ids_inv (dst, list_to_set (map ResourceID dst) : gset Z).
Proof. intros x. cbn [fst snd]. apply elem_of_list_to_set. Qed.

Lemma uniqueAppend_prefix_shape (dst src : list Operator) :
  exists extra : list Operator,
    uniqueAppend dst src = dst ++ extra /\ extra `sublist_of` src.
Proof.
  destruct (appendUnique_fold src _ (uniqueAppend_ids_init dst))
    as (extra & Heq & Hsub & _).
  exists extra. rewrite uniqueAppend_unfold. now split.
Qed.

(** [uniqueAppend(dst, src...)] keeps [dst] as it is and appends operators
    of [src] in their order, so that afterwards every resource targeted in
    [src] is targeted by some operator of the result; operators whose
    resource is already there are dropped, so distinct resources stay
    distinct and appending the same operators again changes nothing. *)
Theorem uniqueAppend_prefix_and_cover (dst src : list Operator) :
  (exists extra : list Operator,
     uniqueAppend dst src = dst ++ extra /\ extra `sublist_of` src)
  /\ (forall op, op ∈ src -> ResourceID op ∈ map ResourceID (uniqueAppend dst src))
  /\ (NoDup (map ResourceID dst) -> NoDup (map ResourceID (uniqueAppend dst src)))
  /\ uniqueAppend (uniqueAppend dst src) src = uniqueAppend dst src.
Proof.
  destruct (appendUnique_fold src _ (uniqueAppend_ids_init dst))
    as (extra & Heq & Hsub & Hinv & Hcov & _).
  cbn [fst] in Heq.
  split; [apply uniqueAppend_prefix_shape|].
  split; [intros op Hop; rewrite uniqueAppend_unfold; now apply Hinv, Hcov|].
  split; [intros Hnd; now apply uniqueAppend_spec|].
  rewrite (uniqueAppend_unfold (uniqueAppend dst src) src).
  rewrite appendUnique_fold_known; [reflexivity|].
  intros op Hop. cbn [snd]. apply elem_of_list_to_set.
  rewrite uniqueAppend_unfold. now apply Hinv, Hcov.
Qed.

Lemma scheduleOnce_high (entries : list (Z * list KeyRange)) :
  forall c : C, Forall (fun op => HighPriority op = true) (scheduleOnce c entries).2.
Proof.
  induction entries as [|[id ranges] rest IH]; intros c; cbn [scheduleOnce];
    [constructor|].
  destruct (RandLeaderResource c id ranges) as [c1 [res|]]; [|apply IH].
  destruct (RandomTarget c1 res) as [c2 [target|]]; [|apply IH].
  destruct (CreateTransferLeaderOperator c2 res (LeaderContainerID res) target);
    [|apply IH].
  specialize (IH c2). destruct (scheduleOnce c2 rest) as [c3 ops].
  cbn [snd] in *. now constructor.
Qed.

Lemma uniqueAppend_Forall (P : Operator -> Prop) (dst src : list Operator) :
  Forall P dst -> Forall P src -> Forall P (uniqueAppend dst src).
Proof.
  intros Hd Hs.
  destruct (uniqueAppend_prefix_shape dst src) as (extra & Heq & Hsub).
  rewrite Heq. apply Forall_app. split; [exact Hd|].
  rewrite Forall_forall in Hs |- *. intros x Hx. apply Hs.
  eapply elem_of_sublist; eassumption.
Qed.

Lemma scheduleRounds_high (order : nat -> list (Z * list KeyRange)) :
  forall (rounds i : nat) (c : C) (ops : list Operator),
    Forall (fun op => HighPriority op = true) ops ->
    Forall (fun op => HighPriority op = true) (scheduleRounds order rounds i c ops).2.
Proof.
  induction rounds as [|rounds IH]; intros i c ops Hops; cbn [scheduleRounds];
    [exact Hops|].
  pose proof (scheduleOnce_high (order i) c) as Honce.
  destruct (scheduleOnce c (order i)) as [c' once]. cbn [snd] in Honce.
  destruct (length once =? 0)%nat; [exact Hops|].
  pose proof (uniqueAppend_Forall _ ops once Hops Honce) as Hnew.
  destruct (EvictLeaderBatchSize <? length (uniqueAppend ops once))%nat;
    [exact Hnew|].
  now apply IH.
Qed.

Lemma scheduleRounds_overshoot (order : nat -> list (Z * list KeyRange)) (n : nat) :
  (forall i, length (order i) = n) ->
  forall (rounds i : nat) (c : C) (ops : list Operator),
    (length ops <= EvictLeaderBatchSize)%nat ->
    (length (scheduleRounds order rounds i c ops).2 <= EvictLeaderBatchSize + n)%nat.
Proof.
  intros Hn. induction rounds as [|rounds IH]; intros i c ops Hops;
    cbn [scheduleRounds].
  - cbn [snd]. lia.
  - pose proof (scheduleOnce_length (order i) c) as Hlen. rewrite Hn in Hlen.
    destruct (scheduleOnce c (order i)) as [c' once]. cbn [snd] in Hlen.
    destruct (length once =? 0)%nat; [cbn [snd]; lia|].
    assert (Hnew : (length (uniqueAppend ops once) <= length ops + length once)%nat).
    { destruct (uniqueAppend_prefix_shape ops once) as (extra & Heq & Hsub).
      rewrite Heq, length_app. apply sublist_length in Hsub. lia. }
    destruct (Nat.ltb_spec EvictLeaderBatchSize (length (uniqueAppend ops once)))
      as [Hgt|Hle].
    + cbn [snd]. lia.
    + now apply IH.
Qed.

(** [Schedule]: every operator returned has high priority; with nothing to
    evict in the first round, nothing is returned; and since the loop stops
    as soon as more than [EvictLeaderBatchSize] operators are collected,
    the result has at most [EvictLeaderBatchSize] plus one operator per
    configured container. *)
Theorem Schedule_priority_and_overshoot (conf : gmap Z (list KeyRange))
  (order : nat -> list (Z * list KeyRange)) (c : C) :
  (forall i, order i ≡ₚ map_to_list conf) ->
  Forall (fun op => HighPriority op = true) (Schedule order c).2
  /\ (length (Schedule order c).2 <= EvictLeaderBatchSize + size conf)%nat
  /\ ((scheduleOnce c (order 0%nat)).2 = [] -> (Schedule order c).2 = [])
  /\ (size conf = 0%nat -> (Schedule order c).2 = []).
Proof.
  intros Horder.
  assert (Hn : forall i, length (order i) = size conf).
  { intros i. rewrite (Permutation_length (Horder i)). apply length_map_to_list. }
  assert (Hempty : (scheduleOnce c (order 0%nat)).2 = [] -> (Schedule order c).2 = []).
  { intros Hnone. unfold Schedule. cbn [scheduleRounds EvictLeaderBatchSize].
    destruct (scheduleOnce c (order 0%nat)) as [c' once]. cbn [snd] in Hnone.
    now subst once. }
  split; [apply scheduleRounds_high; constructor|].
  split; [apply (scheduleRounds_overshoot order (size conf) Hn); cbn; lia|].
  split; [exact Hempty|].
  intros H0. apply Hempty.
  pose proof (scheduleOnce_length (order 0%nat) c) as Hlen.
  rewrite Hn, H0 in Hlen. destruct (scheduleOnce c (order 0%nat)).2; [reflexivity|].
  cbn in Hlen. lia.
Qed.

End Properties.

Lemma uniqueAppend_prefix_and_cover_witness :
  NoDup (map ResourceID
           (uniqueAppend [mkOperator 1 1 2 true]
              [mkOperator 1 1 3 true; mkOperator 2 2 1 true])).
Proof.
  refine (proj1 (proj2 (proj2 (uniqueAppend_prefix_and_cover
            [mkOperator 1 1 2 true]
            [mkOperator 1 1 3 true; mkOperator 2 2 1 true]))) _).
  apply NoDup_singleton.
Defined.

Example uniqueAppend_first_wins :
  uniqueAppend [mkOperator 1 1 2 true]
    [mkOperator 1 1 3 true; mkOperator 2 2 1 true; mkOperator 2 2 3 true]
  = [mkOperator 1 1 2 true; mkOperator 2 2 1 true].
Proof. vm_compute. reflexivity. Qed.

Lemma Schedule_priority_and_overshoot_witness :
  Forall (fun op => HighPriority op = true)
    (Schedule (C := unit) (H := four_leaders) order4 tt).2.
Proof.
  refine (proj1 (Schedule_priority_and_overshoot (C := unit) (H := four_leaders)
                   conf4 order4 tt _)).
  intros i. reflexivity.
Defined.

End EvictLeaderMore.

(** ** More of the prophet client: request contexts and their completion *)

Module ClientMore.
Import Client.

(** [type ctx struct], without the request itself.  [doneState] is the
    field [state] that [done] swaps from 0 to 1, [waitC] the channel [c] a
    synchronous caller waits on, [hasCb] whether [cb] is not [nil], and
    [cbCalls] the calls made to [cb], in order. *)
Record ctx : Type := mkCtx {
  doneState : Z;
  isSync : bool;
  hasCb : bool;
  ctxResp : option Response;
  ctxErr : option error;
  waitC : chan_state;
  cbCalls : list (option Response * option error)
}.

Definition newSyncCtx : ctx := mkCtx 0 true false None None ChanOpen [].

(** [newAsyncCtx(req, cb)]; its channel is never made nor used. *)
Definition newAsyncCtx (cb : bool) : ctx := mkCtx 0 false cb None None ChanOpen [].

(** [ctx.done(resp, err)]: the compare-and-swap lets only the first call
    through.  [None] is the panic of closing a closed channel. *)
Definition done (x : ctx) (resp : option Response) (err : option error) : option ctx :=
  if doneState x =? 0 then
    if isSync x then
      ch ← close (waitC x);
      Some (mkCtx 1 (isSync x) (hasCb x) resp err ch (cbCalls x))
    else if hasCb x then
      Some (mkCtx 1 (isSync x) (hasCb x) (ctxResp x) (ctxErr x) (waitC x)
              (cbCalls x ++ [(resp, err)]))
    else
      Some (mkCtx 1 (isSync x) (hasCb x) (ctxResp x) (ctxErr x) (waitC x) (cbCalls x))
  else Some x.

(** The request contexts of a client: the context objects by request id,
    the ids currently stored in the map [c.contexts], and the resource ids
    sent on [resourceHeartbeatRspC]. *)
Record pending : Type := mkPending {
  objects : gmap Z ctx;
  registered : gset Z;
  heartbeatRsps : list Z
}.

(** The call of [done(resp, err)] on the context object that the map holds
    for request [id]. *)
Definition complete (p : pending) (id : Z) (resp : option Response)
  (err : option error) : option pending :=
  match objects p !! id with
  | None => Some p
  | Some x =>
      x' ← done x resp err;
      Some (mkPending (<[id := x']> (objects p)) (registered p) (heartbeatRsps p))
  end.

Definition unregister (p : pending) (id : Z) : pending :=
  mkPending (objects p) (registered p ∖ {[id]}) (heartbeatRsps p).

(** [timeout(arg)]. *)
Definition timeout (p : pending) (id : Z) : option pending :=
  if decide (id ∈ registered p)
  then complete (unregister p id) id None (Some ErrTimeout)
  else Some p.

(** [requestDoneWithRetry(resp)]: the context stays in the map. *)
Definition requestDoneWithRetry (p : pending) (resp : Response) : option pending :=
  if decide (RespID resp ∈ registered p)
  then complete p (RespID resp) None (Some ErrNotLeader)
  else Some p.

(** [requestDone(resp)]. *)
Definition requestDone (p : pending) (resp : Response) : option pending :=
  if decide (RespID resp ∈ registered p)
  then
    if negb (String.eqb (Error resp) "")
    then complete (unregister p (RespID resp)) (RespID resp) None
           (Some (ErrResponse (Error resp)))
    else complete (unregister p (RespID resp)) (RespID resp) (Some resp) None
  else Some p.

(** A message read from the leader: the response, whether its type is
    [TypeResourceHeartbeatRsp], and [ResourceHeartbeat.ResourceID]. *)
Record message : Type := mkMessage {
  msgResp : Response;
  isResourceHeartbeatRsp : bool;
  hbResourceID : Z
}.

(** [maybeAddResourceHeartbeatResp]. *)
Definition maybeAddResourceHeartbeatResp (p : pending) (m : message) : pending * bool :=
  if isResourceHeartbeatRsp m && String.eqb (Error (msgResp m)) ""
     && (0 <? hbResourceID m)
  then (mkPending (objects p) (registered p) (heartbeatRsps p ++ [hbResourceID m]), true)
  else (p, false).

(** What the read loop does with one message; [resetOk] is the result of
    [scheduleResetLeaderConn] where it is called. *)
Definition onMessage (p : pending) (m : message) (resetOk : bool) : option pending :=
  if negb (String.eqb (Error (msgResp m)) "") && IsNotLeaderError (Error (msgResp m))
  then if resetOk then requestDoneWithRetry p (msgResp m) else Some p
  else
    match maybeAddResourceHeartbeatResp p m with
    | (p', true) => Some p'
    | (_, false) => requestDone p (msgResp m)
    end.

(** The read loop at stop: [done(nil, ErrClosed)] on every context in the
    map. *)
Definition onStop (p : pending) : option pending :=
  foldr (fun id acc => p' ← acc; complete p' id None (Some ErrClosed))
    (Some p) (elements (registered p)).

Inductive event : Type :=
| EvTimeout (id : Z)
| EvMessage (m : message) (resetOk : bool)
| EvStop.

Definition step (p : pending) (ev : event) : option pending :=
  match ev with
  | EvTimeout id => timeout p id
  | EvMessage m resetOk => onMessage p m resetOk
  | EvStop => onStop p
  end.

Fixpoint run (evs : list event) (p : pending) : option pending :=
  match evs with
  | [] => Some p
  | ev :: rest => p' ← step p ev; run rest p'
  end.

(** A context is either pending, with its channel open and its callback
    not yet called, or done, with the channel of a synchronous context
    closed and the callback called at most once. *)
Definition ctx_ok (x : ctx) : Prop :=
  (doneState x = 0 /\ waitC x = ChanOpen /\ cbCalls x = [])
  \/ (doneState x = 1
      /\ (isSync x = true -> waitC x = ChanClosed)
      /\ (length (cbCalls x) <= 1)%nat).

Definition is_done (x : ctx) : Prop := doneState x = 1.

(** What relates the contexts before and after some events: nothing
    panicked on the way, the same requests have context objects, every
    object is well-formed, an object that was done is unchanged, and no
    request got registered. *)
Definition evolves (p p' : pending) : Prop :=
  dom (objects p') = dom (objects p)
  /\ (forall id x', objects p' !! id = Some x' -> ctx_ok x')
  /\ (forall id x, objects p !! id = Some x -> is_done x -> objects p' !! id = Some x)
  /\ registered p' ⊆ registered p.

Lemma done_ok (x : ctx) (resp : option Response) (err : option error) :
  ctx_ok x ->
  exists x', done x resp err = Some x' /\ ctx_ok x' /\ is_done x'
             /\ (is_done x -> x' = x).
Proof.
  intros [(Hs & Hc & Hcb)|(Hs & Hc & Hcb)]; unfold done, is_done; rewrite Hs; cbn.
  - destruct x as [st sy cb r e ch calls]. cbn in *. subst.
    destruct sy; cbn.
    + eexists. split; [reflexivity|]. split; [|split; [reflexivity|discriminate]].
      right. cbn. auto.
    + destruct cb; eexists; (split; [reflexivity|]);
        (split; [|split; [reflexivity|discriminate]]); right; cbn;
        (split; [reflexivity|split; [discriminate|lia]]).
  - exists x. split; [reflexivity|]. split; [now right|]. auto.
Qed.

Lemma evolves_refl (p : pending) :
  (forall id x, objects p !! id = Some x -> ctx_ok x) -> evolves p p.
Proof. intros Hok. repeat split; auto. Qed.

Lemma evolves_trans (p1 p2 p3 : pending) :
  evolves p1 p2 -> evolves p2 p3 -> evolves p1 p3.
Proof.
  intros (Hd1 & Hok1 & Hf1 & Hr1) (Hd2 & Hok2 & Hf2 & Hr2).
  split; [congruence|]. split; [exact Hok2|].
  split; [|transitivity (registered p2); assumption].
  intros id x Hx Hdone. apply Hf2; [|exact Hdone]. now apply Hf1.
Qed.

Lemma complete_evolves (p : pending) (id : Z) (resp : option Response)
  (err : option error) :
  (forall id x, objects p !! id = Some x -> ctx_ok x) ->
  exists p', complete p id resp err = Some p' /\ evolves p p'
             /\ registered p' = registered p
             /\ heartbeatRsps p' = heartbeatRsps p.
Proof.
  intros Hok. unfold complete. destruct (objects p !! id) as [x|] eqn:Hx.
  - destruct (done_ok x resp err (Hok id x Hx)) as (x' & Hd & Hok' & _ & Hsame).
    rewrite Hd. cbn. eexists. split; [reflexivity|]. split; [|split; reflexivity].
    split; [|split; [|split]]; cbn [objects registered].
    + rewrite dom_insert_L. apply elem_of_dom_2 in Hx.
      apply subseteq_union_1_L, singleton_subseteq_l, Hx.
    + intros id' y Hy. destruct (decide (id = id')) as [->|Hne].
      * rewrite lookup_insert_eq in Hy. now injection Hy as <-.
      * rewrite lookup_insert_ne in Hy by exact Hne. eauto.
    + intros id' y Hy Hdone. destruct (decide (id = id')) as [->|Hne].
      * rewrite lookup_insert_eq. rewrite Hx in Hy. injection Hy as <-.
        f_equal. now apply Hsame.
      * now rewrite lookup_insert_ne by exact Hne.
    + reflexivity.
  - exists p. split; [reflexivity|]. split; [now apply evolves_refl|]. split; reflexivity.
Qed.

Lemma unregister_evolves (p : pending) (id : Z) :
  (forall id x, objects p !! id = Some x -> ctx_ok x) -> evolves p (unregister p id).
Proof.
  intros Hok. repeat split; auto. cbn. now apply subseteq_difference_l.
Qed.

Lemma complete_unregister_evolves (p : pending) (id : Z) (resp : option Response)
  (err : option error) :
  (forall id x, objects p !! id = Some x -> ctx_ok x) ->
  exists p', complete (unregister p id) id resp err = Some p' /\ evolves p p'
             /\ registered p' = registered p ∖ {[id]}.
Proof.
  intros Hok.
  destruct (complete_evolves (unregister p id) id resp err Hok)
    as (p' & Hc & He & Hr & _).
  exists p'. split; [exact Hc|]. split; [|exact Hr].
  eapply evolves_trans; [apply unregister_evolves; exact Hok|exact He].
Qed.

Definition well_formed (p : pending) : Prop :=
  forall id x, objects p !! id = Some x -> ctx_ok x.

Lemma evolves_well_formed (p p' : pending) : evolves p p' -> well_formed p'.
Proof. intros (_ & Hok & _). exact Hok. Qed.

Lemma complete_object (p : pending) (id : Z) (x : ctx) (resp : option Response)
  (err : option error) :
  well_formed p -> objects p !! id = Some x ->
  exists x', done x resp err = Some x'
             /\ complete p id resp err
                = Some (mkPending (<[id := x']> (objects p)) (registered p) (heartbeatRsps p))
             /\ is_done x'.
Proof.
  intros Hok Hx. destruct (done_ok x resp err (Hok id x Hx)) as (x' & Hd & _ & Hdone & _).
  exists x'. split; [exact Hd|]. split; [|exact Hdone].
  unfold complete. rewrite Hx, Hd. reflexivity.
Qed.

Lemma onStop_loop (ids : list Z) (p : pending) :
  well_formed p ->
  exists p', foldr (fun id acc => p' ← acc; complete p' id None (Some ErrClosed))
               (Some p) ids = Some p'
             /\ evolves p p' /\ registered p' = registered p.
Proof.
  intros Hok. induction ids as [|id ids IH]; cbn [foldr].
  - exists p. split; [reflexivity|]. split; [now apply evolves_refl|reflexivity].
  - destruct IH as (p1 & -> & He & Hr). cbn.
    destruct (complete_evolves p1 id None (Some ErrClosed) (evolves_well_formed _ _ He))
      as (p2 & Hc & He2 & Hr2 & _).
    exists p2. split; [exact Hc|]. split; [eapply evolves_trans; eassumption|congruence].
Qed.

Lemma step_evolves (p : pending) (ev : event) :
  well_formed p -> exists p', step p ev = Some p' /\ evolves p p'.
Proof.
  intros Hok. destruct ev as [id|m resetOk|]; cbn [step].
  - unfold timeout. destruct (decide (id ∈ registered p)).
    + destruct (complete_unregister_evolves p id None (Some ErrTimeout) Hok)
        as (p' & Hc & He & _). eauto.
    + exists p. split; [reflexivity|now apply evolves_refl].
  - unfold onMessage.
    destruct (negb (String.eqb (Error (msgResp m)) "")
              && IsNotLeaderError (Error (msgResp m))).
    + destruct resetOk; [|exists p; split; [reflexivity|now apply evolves_refl]].
      unfold requestDoneWithRetry. destruct (decide (RespID (msgResp m) ∈ registered p)).
      * destruct (complete_evolves p (RespID (msgResp m)) None (Some ErrNotLeader) Hok)
          as (p' & Hc & He & _). eauto.
      * exists p. split; [reflexivity|now apply evolves_refl].
    + unfold maybeAddResourceHeartbeatResp.
      destruct (isResourceHeartbeatRsp m && String.eqb (Error (msgResp m)) ""
                && (0 <? hbResourceID m)).
      * eexists. split; [reflexivity|]. repeat split; auto.
      * unfold requestDone. destruct (decide (RespID (msgResp m) ∈ registered p)).
        -- destruct (negb (String.eqb (Error (msgResp m)) "")).
           ++ destruct (complete_unregister_evolves p (RespID (msgResp m)) None
                          (Some (ErrResponse (Error (msgResp m)))) Hok)
                as (p' & Hc & He & _). eauto.
           ++ destruct (complete_unregister_evolves p (RespID (msgResp m))
                          (Some (msgResp m)) None Hok)
                as (p' & Hc & He & _). eauto.
        -- exists p. split; [reflexivity|now apply evolves_refl].
  - unfold onStop. destruct (onStop_loop (elements (registered p)) p Hok)
      as (p' & Hc & He & _). eauto.
Qed.

Lemma run_evolves (evs : list event) (p : pending) :
  well_formed p -> exists p', run evs p = Some p' /\ evolves p p'.
Proof.
  revert p. induction evs as [|ev evs IH]; intros p Hok; cbn [run].
  - exists p. split; [reflexivity|now apply evolves_refl].
  - destruct (step_evolves p ev Hok) as (p1 & -> & He1). cbn.
    destruct (IH p1 (evolves_well_formed _ _ He1)) as (p2 & Hr & He2).
    exists p2. split; [exact Hr|eapply evolves_trans; eassumption].
Qed.

Lemma run_app (evs1 evs2 : list event) (p : pending) :
  run (evs1 ++ evs2) p = p1 ← run evs1 p; run evs2 p1.
Proof.
  revert p. induction evs1 as [|ev evs1 IH]; intros p; cbn [run app]; [reflexivity|].
  destruct (step p ev) as [p1|]; cbn; [apply IH|reflexivity].
Qed.

(** A request is settled when its context object is done. *)
Definition settled (p : pending) (id : Z) : Prop :=
  exists x, objects p !! id = Some x /\ is_done x.

Lemma evolves_settled (p p' : pending) (id : Z) :
  evolves p p' -> settled p id -> settled p' id.
Proof.
  intros (_ & _ & Hf & _) (x & Hx & Hd). exists x. split; [now apply Hf|exact Hd].
Qed.

Lemma complete_settles (p p' : pending) (id : Z) (resp : option Response)
  (err : option error) :
  well_formed p -> id ∈ dom (objects p) ->
  complete p id resp err = Some p' -> settled p' id.
Proof.
  intros Hok Hdom Hc. apply elem_of_dom in Hdom as [x Hx].
  destruct (complete_object p id x resp err Hok Hx) as (x' & _ & Hc' & Hd).
  rewrite Hc' in Hc. injection Hc as <-. exists x'. cbn.
  now rewrite lookup_insert_eq.
Qed.

Lemma complete_registered (p p' : pending) (id : Z) (resp : option Response)
  (err : option error) :
  complete p id resp err = Some p' -> registered p' = registered p.
Proof.
  unfold complete. destruct (objects p !! id) as [x|]; [|now intros [= <-]].
  destruct (done x resp err); cbn; [|discriminate]. now intros [= <-].
Qed.

Lemma step_keeps_or_settles (p p' : pending) (ev : event) (id : Z) :
  well_formed p -> id ∈ dom (objects p) ->
  step p ev = Some p' -> id ∈ registered p ->
  id ∈ registered p' \/ settled p' id.
Proof.
  intros Hok Hdom Hstep Hreg. destruct ev as [id0|m resetOk|]; cbn [step] in Hstep.
  - unfold timeout in Hstep. destruct (decide (id0 ∈ registered p)).
    + destruct (decide (id0 = id)) as [->|Hne].
      * right. eapply complete_settles; [| |exact Hstep]; [exact Hok|exact Hdom].
      * left. rewrite (complete_registered _ _ _ _ _ Hstep). cbn. set_solver.
    + injection Hstep as <-. now left.
  - unfold onMessage in Hstep.
    destruct (negb (String.eqb (Error (msgResp m)) "")
              && IsNotLeaderError (Error (msgResp m))).
    + destruct resetOk; [|injection Hstep as <-; now left].
      unfold requestDoneWithRetry in Hstep.
      destruct (decide (RespID (msgResp m) ∈ registered p)).
      * left. now rewrite (complete_registered _ _ _ _ _ Hstep).
      * injection Hstep as <-. now left.
    + unfold maybeAddResourceHeartbeatResp in Hstep.
      destruct (isResourceHeartbeatRsp m && String.eqb (Error (msgResp m)) ""
                && (0 <? hbResourceID m)).
      * injection Hstep as <-. now left.
      * unfold requestDone in Hstep.
        destruct (decide (RespID (msgResp m) ∈ registered p)).
        -- destruct (decide (RespID (msgResp m) = id)) as [Heq|Hne].
           ++ right. rewrite Heq in Hstep. destruct (negb (String.eqb (Error (msgResp m)) ""));
                (eapply complete_settles; [| |exact Hstep]; [exact Hok|exact Hdom]).
           ++ left. destruct (negb (String.eqb (Error (msgResp m)) ""));
                rewrite (complete_registered _ _ _ _ _ Hstep); cbn; set_solver.
        -- injection Hstep as <-. now left.
  - unfold onStop in Hstep.
    destruct (onStop_loop (elements (registered p)) p Hok) as (p1 & Hc & _ & Hr).
    rewrite Hc in Hstep. injection Hstep as <-. left. now rewrite Hr.
Qed.

Lemma run_keeps_or_settles (evs : list event) (p p' : pending) (id : Z) :
  well_formed p -> id ∈ dom (objects p) ->
  run evs p = Some p' -> id ∈ registered p ->
  id ∈ registered p' \/ settled p' id.
Proof.
  revert p. induction evs as [|ev evs IH]; intros p Hok Hdom Hrun Hreg; cbn [run] in Hrun.
  - injection Hrun as <-. now left.
  - destruct (step_evolves p ev Hok) as (p1 & Hs & He1). rewrite Hs in Hrun. cbn in Hrun.
    assert (Hdom1 : id ∈ dom (objects p1)) by (destruct He1 as (-> & _); exact Hdom).
    destruct (step_keeps_or_settles p p1 ev id Hok Hdom Hs Hreg) as [Hreg1|Hset].
    + exact (IH p1 (evolves_well_formed _ _ He1) Hdom1 Hrun Hreg1).
    + right. destruct (run_evolves evs p1 (evolves_well_formed _ _ He1)) as (p2 & Hr & He2).
      rewrite Hr in Hrun. injection Hrun as <-. eapply evolves_settled; eassumption.
Qed.

(** The event [ev] completes the registered request [id] the way [cpl]
    says: its timeout, the stop of the read loop, or a message with its id
    that the read loop hands to [requestDone] or, with the not-leader text
    and the client running, to [requestDoneWithRetry]. *)
Inductive completes_by (id : Z) : event -> completion -> Prop :=
| by_timeout : completes_by id (EvTimeout id) ByTimeout
| by_stop : completes_by id EvStop ByStop
| by_response (m : message) (resetOk : bool) :
    RespID (msgResp m) = id ->
    negb (String.eqb (Error (msgResp m)) "") && IsNotLeaderError (Error (msgResp m)) = false ->
    isResourceHeartbeatRsp m && String.eqb (Error (msgResp m)) ""
      && (0 <? hbResourceID m) = false ->
    completes_by id (EvMessage m resetOk) (ByResponse (msgResp m))
| by_not_leader (m : message) :
    RespID (msgResp m) = id ->
    negb (String.eqb (Error (msgResp m)) "") && IsNotLeaderError (Error (msgResp m)) = true ->
    completes_by id (EvMessage m true) (ByResponse (msgResp m)).

(** What the owner of context [x] finds in it, as [x'], once it was
    completed with [out]: a synchronous caller the response and the error
    behind a closed channel, an asynchronous one exactly one call of its
    callback. *)
Definition carries (x x' : ctx) (out : option Response * option error) : Prop :=
  is_done x'
  /\ (isSync x = true ->
      ctxResp x' = out.1 /\ ctxErr x' = out.2 /\ waitC x' = ChanClosed)
  /\ (isSync x = false -> hasCb x = true -> cbCalls x' = [out]).

Lemma done_pending (x : ctx) (resp : option Response) (err : option error) :
  ctx_ok x -> doneState x = 0 ->
  exists x', done x resp err = Some x' /\ carries x x' (resp, err).
Proof.
  intros [(Hs & Hc & Hcb)|(Hs & _)] Hp; [|lia].
  destruct x as [st sy cb r e ch calls]. cbn in *. subst. unfold done, carries, is_done.
  cbn. destruct sy; cbn.
  - eexists. split; [reflexivity|]. cbn. split; [reflexivity|]. split; [auto|discriminate].
  - destruct cb; eexists; (split; [reflexivity|]); cbn;
      (split; [reflexivity|]); (split; [discriminate|]); intros _ Hcb;
      [reflexivity|discriminate].
Qed.

Lemma complete_other (p p' : pending) (i id : Z) (resp : option Response)
  (err : option error) :
  complete p i resp err = Some p' -> i <> id -> objects p' !! id = objects p !! id.
Proof.
  unfold complete. destruct (objects p !! i) as [x|]; [|now intros [= <-]].
  destruct (done x resp err); cbn; [|discriminate]. intros [= <-] Hne. cbn.
  now rewrite lookup_insert_ne.
Qed.

Lemma complete_pending (p : pending) (id : Z) (x : ctx) (resp : option Response)
  (err : option error) :
  well_formed p -> objects p !! id = Some x -> doneState x = 0 ->
  exists p' x', complete p id resp err = Some p' /\ objects p' !! id = Some x'
                /\ carries x x' (resp, err) /\ registered p' = registered p.
Proof.
  intros Hok Hx Hp.
  destruct (done_pending x resp err (Hok id x Hx) Hp) as (x' & Hd & Hcar).
  unfold complete. rewrite Hx, Hd. cbn. eexists. exists x'.
  split; [reflexivity|]. cbn. rewrite lookup_insert_eq. auto.
Qed.

Lemma onStop_loop_object (ids : list Z) (p : pending) (id : Z) (x : ctx) :
  well_formed p -> objects p !! id = Some x -> doneState x = 0 ->
  exists p' x', foldr (fun id acc => p' ← acc; complete p' id None (Some ErrClosed))
                  (Some p) ids = Some p'
                /\ well_formed p'
                /\ objects p' !! id = Some x'
                /\ (id ∈ ids -> carries x x' (None, Some ErrClosed))
                /\ (id ∉ ids -> x' = x).
Proof.
  intros Hok Hx Hp. induction ids as [|i ids IH]; cbn [foldr].
  - exists p, x. split; [reflexivity|]. split; [exact Hok|]. split; [exact Hx|].
    split; [|reflexivity]. intros Hin. now apply elem_of_nil in Hin.
  - destruct IH as (p1 & x1 & -> & Hok1 & Hx1 & Hin1 & Hout1). cbn.
    destruct (decide (i = id)) as [->|Hne].
    + destruct (decide (id ∈ ids)) as [Hin|Hnin].
      * destruct (done_ok x1 None (Some ErrClosed) (Hok1 id x1 Hx1))
          as (x2 & Hd & Hok2 & _ & Hsame).
        assert (Hx2 : x2 = x1) by (apply Hsame; apply (Hin1 Hin)). subst x2.
        destruct (complete_evolves p1 id None (Some ErrClosed) Hok1)
          as (p2 & Hc & He & _).
        exists p2, x1. split; [exact Hc|]. split; [exact (evolves_well_formed _ _ He)|].
        split; [|split; [intros _; exact (Hin1 Hin)|]].
        -- destruct He as (_ & _ & Hf & _). apply Hf; [exact Hx1|apply (Hin1 Hin)].
        -- intros Hn. exfalso. apply Hn. now left.
      * rewrite (Hout1 Hnin) in Hx1.
        destruct (complete_pending p1 id x None (Some ErrClosed) Hok1 Hx1 Hp)
          as (p2 & x2 & Hc & Hx2 & Hcar & _).
        destruct (complete_evolves p1 id None (Some ErrClosed) Hok1)
          as (p2' & Hc' & He & _).
        rewrite Hc in Hc'. injection Hc' as <-.
        exists p2, x2. split; [exact Hc|]. split; [exact (evolves_well_formed _ _ He)|].
        split; [exact Hx2|]. split; [intros _; exact Hcar|].
        intros Hn. exfalso. apply Hn. now left.
    + destruct (complete_evolves p1 i None (Some ErrClosed) Hok1) as (p2 & Hc & He & _).
      exists p2, x1. split; [exact Hc|]. split; [exact (evolves_well_formed _ _ He)|].
      split; [now rewrite (complete_other _ _ _ _ _ _ Hc Hne)|].
      split.
      * intros Hin. apply elem_of_cons in Hin as [Heq|Hin]; [congruence|auto].
      * intros Hn. apply Hout1. intros Hin. apply Hn. now right.
Qed.

Lemma step_completes (p : pending) (ev : event) (cpl : completion) (id : Z) (x : ctx) :
  well_formed p -> objects p !! id = Some x -> doneState x = 0 ->
  id ∈ registered p -> completes_by id ev cpl ->
  exists p' x', step p ev = Some p' /\ well_formed p'
                /\ objects p' !! id = Some x' /\ carries x x' (done_fields cpl).
Proof.
  intros Hok Hx Hp Hreg Hby. destruct Hby as [| |m resetOk Hid Hnl Hhb|m Hid Hnl]; cbn [step].
  - unfold timeout. destruct (decide (id ∈ registered p)); [|contradiction].
    destruct (complete_pending (unregister p id) id x None (Some ErrTimeout) Hok Hx Hp)
      as (p' & x' & Hc & Hx' & Hcar & _).
    destruct (complete_evolves (unregister p id) id None (Some ErrTimeout) Hok)
      as (p'' & Hc' & He & _).
    rewrite Hc in Hc'. injection Hc' as <-.
    exists p', x'. split; [exact Hc|]. split; [exact (evolves_well_formed _ _ He)|]. auto.
  - unfold onStop.
    destruct (onStop_loop_object (elements (registered p)) p id x Hok Hx Hp)
      as (p' & x' & Hc & Hok' & Hx' & Hin & _).
    exists p', x'. split; [exact Hc|]. split; [exact Hok'|]. split; [exact Hx'|].
    apply Hin. now apply elem_of_elements.
  - unfold onMessage, maybeAddResourceHeartbeatResp. rewrite Hnl, Hhb.
    unfold requestDone. rewrite Hid.
    destruct (decide (id ∈ registered p)); [|contradiction].
    cbn [done_fields]. rewrite Hnl.
    destruct (negb (String.eqb (Error (msgResp m)) "")).
    + destruct (complete_pending (unregister p id) id x None
                  (Some (ErrResponse (Error (msgResp m)))) Hok Hx Hp)
        as (p' & x' & Hc & Hx' & Hcar & _).
      destruct (complete_evolves (unregister p id) id None
                  (Some (ErrResponse (Error (msgResp m)))) Hok)
        as (p'' & Hc' & He & _).
      rewrite Hc in Hc'. injection Hc' as <-.
      exists p', x'. split; [exact Hc|]. split; [exact (evolves_well_formed _ _ He)|]. auto.
    + destruct (complete_pending (unregister p id) id x (Some (msgResp m)) None Hok Hx Hp)
        as (p' & x' & Hc & Hx' & Hcar & _).
      destruct (complete_evolves (unregister p id) id (Some (msgResp m)) None Hok)
        as (p'' & Hc' & He & _).
      rewrite Hc in Hc'. injection Hc' as <-.
      exists p', x'. split; [exact Hc|]. split; [exact (evolves_well_formed _ _ He)|]. auto.
  - unfold onMessage. rewrite Hnl. unfold requestDoneWithRetry. rewrite Hid.
    destruct (decide (id ∈ registered p)); [|contradiction].
    cbn [done_fields]. rewrite Hnl.
    destruct (complete_pending p id x None (Some ErrNotLeader) Hok Hx Hp)
      as (p' & x' & Hc & Hx' & Hcar & _).
    destruct (complete_evolves p id None (Some ErrNotLeader) Hok) as (p'' & Hc' & He & _).
    rewrite Hc in Hc'. injection Hc' as <-.
    exists p', x'. split; [exact Hc|]. split; [exact (evolves_well_formed _ _ He)|]. auto.
Qed.

Lemma new_ctx_ok (x : ctx) :
  x = newSyncCtx \/ (exists cb, x = newAsyncCtx cb) -> ctx_ok x.
Proof. intros [->|[cb ->]]; left; cbn; auto. Qed.

(** Sample contexts: request 1 is synchronous, request 2 asynchronous with a
    callback, both registered. *)
Definition two_requests : pending :=
  mkPending (<[1 := newSyncCtx]> (<[2 := newAsyncCtx true]> ∅)) {[1; 2]} [].

Lemma two_requests_well_formed : well_formed two_requests.
Proof.
  intros id x Hx. apply new_ctx_ok. unfold two_requests in Hx. cbn in Hx.
  destruct (decide (id = 1)) as [->|H1].
  - rewrite lookup_insert_eq in Hx. injection Hx as <-. now left.
  - rewrite lookup_insert_ne in Hx by congruence.
    destruct (decide (id = 2)) as [->|H2].
    + rewrite lookup_insert_eq in Hx. injection Hx as <-. right. now exists true.
    + rewrite lookup_insert_ne in Hx by congruence. now rewrite lookup_empty in Hx.
Qed.

Definition answer (id : Z) : message :=
  mkMessage (mkResponse id "" []) false 0.

(** No sequence of timeouts, messages and stops panics (no channel is
    closed twice); afterwards the same requests have context objects, each
    either pending or done, the callback of none was called more than
    once, a context that was done before is exactly as it was, and no
    request has been added to the map. *)
Theorem events_complete_each_context_once (evs : list event) (p : pending) :
  well_formed p ->
  exists p', run evs p = Some p'
    /\ dom (objects p') = dom (objects p)
    /\ (forall id x', objects p' !! id = Some x' ->
          ctx_ok x' /\ (length (cbCalls x') <= 1)%nat)
    /\ (forall id x, objects p !! id = Some x -> is_done x -> objects p' !! id = Some x)
    /\ registered p' ⊆ registered p.
Proof.
  intros Hok. destruct (run_evolves evs p Hok) as (p' & Hrun & Hdom & Hok' & Hf & Hr).
  exists p'. split; [exact Hrun|]. split; [exact Hdom|]. split; [|split; assumption].
  intros id x' Hx'. split; [eauto|].
  destruct (Hok' id x' Hx') as [(_ & _ & ->)|(_ & _ & Hle)]; cbn; lia.
Qed.

Lemma events_complete_each_context_once_witness :
  exists p', run [EvMessage (answer 1) true; EvTimeout 1; EvStop; EvStop] two_requests
             = Some p'
    /\ dom (objects p') = dom (objects two_requests)
    /\ (forall id x', objects p' !! id = Some x' ->
          ctx_ok x' /\ (length (cbCalls x') <= 1)%nat)
    /\ (forall id x, objects two_requests !! id = Some x -> is_done x ->
          objects p' !! id = Some x)
    /\ registered p' ⊆ registered two_requests.
Proof.
  exact (events_complete_each_context_once _ two_requests two_requests_well_formed).
Defined.

(** The timeout that [do] schedules for a registered request settles it
    when nothing else has: whatever events come before and after the
    timeout of request [id], in the end the context of [id] is done, the
    channel of a synchronous caller is closed (its [wait] returns) and the
    request is out of the map. *)
Theorem timeout_releases_caller (evs1 evs2 : list event) (p : pending) (id : Z) :
  well_formed p -> id ∈ registered p -> id ∈ dom (objects p) ->
  exists p' x', run (evs1 ++ EvTimeout id :: evs2) p = Some p'
    /\ objects p' !! id = Some x'
    /\ is_done x'
    /\ (isSync x' = true -> waitC x' = ChanClosed)
    /\ id ∉ registered p'.
Proof.
  intros Hok Hreg Hdom. rewrite run_app.
  destruct (run_evolves evs1 p Hok) as (p1 & Hr1 & He1). rewrite Hr1. cbn [mbind option_bind run].
  pose proof (evolves_well_formed _ _ He1) as Hok1.
  assert (Hdom1 : id ∈ dom (objects p1)) by (destruct He1 as (-> & _); exact Hdom).
  destruct (step_evolves p1 (EvTimeout id) Hok1) as (p2 & Hs & He2).
  rewrite Hs. cbn [mbind option_bind].
  pose proof (evolves_well_formed _ _ He2) as Hok2.
  assert (H2 : settled p2 id /\ id ∉ registered p2).
  { cbn [step] in Hs. unfold timeout in Hs. destruct (decide (id ∈ registered p1)) as [Hin|Hnin].
    - split.
      + eapply complete_settles; [| |exact Hs]; [exact Hok1|exact Hdom1].
      + rewrite (complete_registered _ _ _ _ _ Hs). cbn.
        intros Hin'. apply elem_of_difference in Hin' as [_ Hn]. apply Hn.
        now apply elem_of_singleton.
    - injection Hs as <-. split; [|exact Hnin].
      destruct (run_keeps_or_settles evs1 p p1 id Hok Hdom Hr1 Hreg); [contradiction|assumption]. }
  destruct H2 as [Hset Hnreg].
  destruct (run_evolves evs2 p2 Hok2) as (p3 & Hr3 & He3).
  exists p3. destruct (evolves_settled _ _ _ He3 Hset) as (x3 & Hx3 & Hd3).
  exists x3. split; [exact Hr3|]. split; [exact Hx3|]. split; [exact Hd3|]. split.
  - destruct (evolves_well_formed _ _ He3 id x3 Hx3) as [(Hs0 & _)|(_ & Hc & _)]; [|exact Hc].
    unfold is_done in Hd3. lia.
  - destruct He3 as (_ & _ & _ & Hsub). intros Hin. apply Hnreg, Hsub, Hin.
Qed.

Lemma timeout_releases_caller_witness :
  exists p' x', run ([EvStop; EvTimeout 2] ++ EvTimeout 1 :: [EvMessage (answer 1) true])
                  two_requests = Some p'
    /\ objects p' !! 1 = Some x'
    /\ is_done x'
    /\ (isSync x' = true -> waitC x' = ChanClosed)
    /\ 1 ∉ registered p'.
Proof.
  apply (timeout_releases_caller [EvStop; EvTimeout 2] [EvMessage (answer 1) true]
           two_requests 1 two_requests_well_formed).
  - vm_compute. reflexivity.
  - vm_compute. reflexivity.
Defined.

(** The first completion decides: when request [id] is registered and
    pending and the event [ev] completes it (its timeout, the stop, or a
    message with its id), then after [ev] and any further events the
    context holds the outcome of [ev], namely [done_fields]: a synchronous
    caller finds that response and error behind the closed channel, the
    callback of an asynchronous one was called once, with them. *)
Theorem first_completion_decides (ev : event) (cpl : completion) (evs : list event)
  (p : pending) (id : Z) (x : ctx) :
  well_formed p -> objects p !! id = Some x -> doneState x = 0 ->
  id ∈ registered p -> completes_by id ev cpl ->
  exists p' x', run (ev :: evs) p = Some p'
    /\ objects p' !! id = Some x'
    /\ is_done x'
    /\ (isSync x = true ->
        (ctxResp x', ctxErr x') = done_fields cpl /\ waitC x' = ChanClosed)
    /\ (isSync x = false -> hasCb x = true -> cbCalls x' = [done_fields cpl]).
Proof.
  intros Hok Hx Hp Hreg Hby. cbn [run].
  destruct (step_completes p ev cpl id x Hok Hx Hp Hreg Hby)
    as (p1 & x1 & Hs & Hok1 & Hx1 & Hd & Hsync & Hasync).
  rewrite Hs. cbn [mbind option_bind].
  destruct (run_evolves evs p1 Hok1) as (p2 & Hr & _ & _ & Hf & _).
  exists p2, x1. split; [exact Hr|]. split; [apply Hf; assumption|]. split; [exact Hd|].
  split; [|exact Hasync].
  intros Hsy. destruct (Hsync Hsy) as (Hr1 & He1 & Hc1). split; [|exact Hc1].
  rewrite Hr1, He1. now destruct (done_fields cpl).
Qed.

Lemma first_completion_decides_witness :
  exists p' x', run (EvMessage (answer 1) true :: [EvTimeout 1; EvStop]) two_requests
                = Some p'
    /\ objects p' !! 1 = Some x'
    /\ is_done x'
    /\ (isSync newSyncCtx = true ->
        (ctxResp x', ctxErr x') = done_fields (ByResponse (msgResp (answer 1)))
        /\ waitC x' = ChanClosed)
    /\ (isSync newSyncCtx = false -> hasCb newSyncCtx = true ->
        cbCalls x' = [done_fields (ByResponse (msgResp (answer 1)))]).
Proof.
  apply (first_completion_decides (EvMessage (answer 1) true)
           (ByResponse (msgResp (answer 1))) [EvTimeout 1; EvStop] two_requests 1
           newSyncCtx two_requests_well_formed).
  - reflexivity.
  - reflexivity.
  - vm_compute. reflexivity.
  - apply by_response; reflexivity.
Defined.

End ClientMore.

(** ** Container statistics of the prophet
    (components/prophet/statistics/util.go) *)

Module Statistics.

Local Open Scope Z_scope.

(** [metapb.ContainerState]; [ContainerState_other] stands for a number
    outside the three named values, which the [switch] of [Observe] lets
    fall through. *)
Inductive ContainerState : Type :=
| ContainerState_UP
| ContainerState_Offline
| ContainerState_Tombstone
| ContainerState_other.

Definition is_tombstone (st : ContainerState) : bool :=
  match st with ContainerState_Tombstone => true | _ => false end.

(** What [Observe] reads from [config.PersistOptions]. *)
Record PersistOptions : Type := mkOptions {
  GetLocationLabels : list string;
  Groups : list Z
}.

(** What [Observe] reads from a [core.CachedContainer] under the options:
    [downTimeReached] is [DownTime() >= GetMaxContainerDownTime()] and
    [IsLowSpace] the result of the call with the options' ratio and
    groups. *)
Record CachedContainer : Type := mkContainer {
  GetLabelValue : string -> string;
  GetState : ContainerState;
  downTimeReached : bool;
  IsUnhealthy : bool;
  IsDisconnected : bool;
  IsLowSpace : bool;
  StorageSize_ : Z;
  GetCapacity : Z;
  GetResourceCount : Z -> Z;
  GetLeaderCount : Z -> Z
}.

(** Go's [int] on a 64-bit platform and [uint64], with their wrap-around. *)
Definition wrapInt (z : Z) : Z := (z + 2 ^ 63) mod 2 ^ 64 - 2 ^ 63.
Definition wrapUint64 (z : Z) : Z := z mod 2 ^ 64.

(** [type containerStatistics struct], without the options pointer. *)
Record containerStatistics : Type := mkStats {
  Up : Z;
  Disconnect : Z;
  Unhealthy : Z;
  Down : Z;
  Offline : Z;
  Tombstone : Z;
  LowSpace : Z;
  StorageSize : Z;
  StorageCapacity : Z;
  ResourceCount : Z;
  LeaderCount : Z;
  LabelCounter : gmap string Z
}.

Definition newContainerStatistics : containerStatistics :=
  mkStats 0 0 0 0 0 0 0 0 0 0 0 ∅.

Definition unknown : string := "unknown".

(** [fmt.Sprintf("%s:%s", k, v)] with [v] replaced by [unknown] when
    empty. *)
Definition labelKey (c : CachedContainer) (k : string) : string :=
  let v := GetLabelValue c k in
  let v := if String.eqb v "" then unknown else v in
  (k +:+ ":" +:+ v)%string.

(** [s.LabelCounter[key]++]: a missing key reads as 0. *)
Definition incLabel (m : gmap string Z) (key : string) : gmap string Z :=
  <[key := wrapInt (default 0 (m !! key) + 1)]> m.

(** The first loop of [Observe]. *)
Definition observeLabels (opt : PersistOptions) (c : CachedContainer)
  (m : gmap string Z) : gmap string Z :=
  fold_left (fun m k =>
               let key := labelKey c k in
               if negb (is_tombstone (GetState c)) then incLabel m key else m)
    (GetLocationLabels opt) m.

(** The loop over the groups, as far as it changes the statistics. *)
Definition observeGroups (opt : PersistOptions) (c : CachedContainer)
  (counts : Z * Z) : Z * Z :=
  fold_left (fun rl group =>
               (wrapInt (rl.1 + GetResourceCount c group),
                wrapInt (rl.2 + GetLeaderCount c group)))
    (Groups opt) counts.

(** [containerStatistics.Observe], as far as it changes the statistics
    (the gauges it sets belong to the metrics registry). *)
Definition Observe (opt : PersistOptions) (s : containerStatistics)
  (c : CachedContainer) : containerStatistics :=
  let labels := observeLabels opt c (LabelCounter s) in
  let rest (s : containerStatistics) : containerStatistics :=
    let lowSpace := if IsLowSpace c then wrapInt (LowSpace s + 1) else LowSpace s in
    let counts := observeGroups opt c (ResourceCount s, LeaderCount s) in
    mkStats (Up s) (Disconnect s) (Unhealthy s) (Down s) (Offline s) (Tombstone s)
      lowSpace
      (wrapUint64 (StorageSize s + StorageSize_ c))
      (wrapUint64 (StorageCapacity s + GetCapacity c))
      counts.1 counts.2 (LabelCounter s) in
  let s := mkStats (Up s) (Disconnect s) (Unhealthy s) (Down s) (Offline s)
             (Tombstone s) (LowSpace s) (StorageSize s) (StorageCapacity s)
             (ResourceCount s) (LeaderCount s) labels in
  match GetState c with
  | ContainerState_UP =>
      if downTimeReached c then
        rest (mkStats (Up s) (Disconnect s) (Unhealthy s) (wrapInt (Down s + 1))
                (Offline s) (Tombstone s) (LowSpace s) (StorageSize s)
                (StorageCapacity s) (ResourceCount s) (LeaderCount s) (LabelCounter s))
      else if IsUnhealthy c then
        rest (mkStats (Up s) (Disconnect s) (wrapInt (Unhealthy s + 1)) (Down s)
                (Offline s) (Tombstone s) (LowSpace s) (StorageSize s)
                (StorageCapacity s) (ResourceCount s) (LeaderCount s) (LabelCounter s))
      else if IsDisconnected c then
        rest (mkStats (Up s) (wrapInt (Disconnect s + 1)) (Unhealthy s) (Down s)
                (Offline s) (Tombstone s) (LowSpace s) (StorageSize s)
                (StorageCapacity s) (ResourceCount s) (LeaderCount s) (LabelCounter s))
      else
        rest (mkStats (wrapInt (Up s + 1)) (Disconnect s) (Unhealthy s) (Down s)
                (Offline s) (Tombstone s) (LowSpace s) (StorageSize s)
                (StorageCapacity s) (ResourceCount s) (LeaderCount s) (LabelCounter s))
  | ContainerState_Offline =>
      rest (mkStats (Up s) (Disconnect s) (Unhealthy s) (Down s)
              (wrapInt (Offline s + 1)) (Tombstone s) (LowSpace s) (StorageSize s)
              (StorageCapacity s) (ResourceCount s) (LeaderCount s) (LabelCounter s))
  | ContainerState_Tombstone =>
      mkStats (Up s) (Disconnect s) (Unhealthy s) (Down s) (Offline s)
        (wrapInt (Tombstone s + 1)) (LowSpace s) (StorageSize s)
        (StorageCapacity s) (ResourceCount s) (LeaderCount s) (LabelCounter s)
  | ContainerState_other => rest s
  end.

(** One statistics object observing the containers one after the other,
    as the collector of the cluster does. *)
Definition observeAll (opt : PersistOptions) (cs : list CachedContainer)
  : containerStatistics :=
  fold_left (Observe opt) cs newContainerStatistics.

(** Sums and counts over the observed containers. *)
Definition sumZ {A : Type} (f : A -> Z) (l : list A) : Z :=
  fold_right (fun a acc => f a + acc) 0 l.

Definition countZ {A : Type} (p : A -> bool) (l : list A) : Z :=
  sumZ (fun a => if p a then 1 else 0) l.

Definition is_up (c : CachedContainer) : bool :=
  match GetState c with ContainerState_UP => true | _ => false end.

Definition is_offline (c : CachedContainer) : bool :=
  match GetState c with ContainerState_Offline => true | _ => false end.

Definition counted (c : CachedContainer) : bool := negb (is_tombstone (GetState c)).

Lemma wrapInt_idemp (a b : Z) : wrapInt (wrapInt a + b) = wrapInt (a + b).
Proof.
  unfold wrapInt.
  replace ((a + 2 ^ 63) mod 2 ^ 64 - 2 ^ 63 + b + 2 ^ 63)
    with ((a + 2 ^ 63) mod 2 ^ 64 + b) by ring.
  rewrite Z.add_mod_idemp_l by (change (2 ^ 64) with 18446744073709551616; lia).
  f_equal. f_equal. ring.
Qed.

Lemma wrapInt_small (z : Z) : - 2 ^ 63 <= z < 2 ^ 63 -> wrapInt z = z.
Proof.
  intros Hz. unfold wrapInt.
  change (2 ^ 63) with 9223372036854775808 in *.
  change (2 ^ 64) with 18446744073709551616.
  rewrite Z.mod_small by lia. lia.
Qed.

Lemma wrapUint64_idemp (a b : Z) : wrapUint64 (wrapUint64 a + b) = wrapUint64 (a + b).
Proof.
  unfold wrapUint64.
  apply Z.add_mod_idemp_l. change (2 ^ 64) with 18446744073709551616. lia.
Qed.

Lemma sumZ_app {A : Type} (f : A -> Z) (l1 l2 : list A) :
  sumZ f (l1 ++ l2) = sumZ f l1 + sumZ f l2.
Proof. induction l1 as [|a l1 IH]; cbn; [reflexivity|]. unfold sumZ in *. cbn. lia. Qed.

Lemma countZ_bounds {A : Type} (p : A -> bool) (l : list A) :
  0 <= countZ p l <= Z.of_nat (length l).
Proof.
  unfold countZ, sumZ. induction l as [|a l IH]; cbn [fold_right length]; [lia|].
  destruct (p a); lia.
Qed.

(** A counter whose every step adds [inc c], wrapping, holds the wrapped
    sum of the increments. *)
Lemma fold_counter (opt : PersistOptions) (wrap : Z -> Z)
  (f : containerStatistics -> Z) (inc : CachedContainer -> Z) :
  (forall a b, wrap (wrap a + b) = wrap (a + b)) ->
  (forall s c a, f s = wrap a -> f (Observe opt s c) = wrap (a + inc c)) ->
  forall cs s a, f s = wrap a ->
    f (fold_left (Observe opt) cs s) = wrap (a + sumZ inc cs).
Proof.
  intros Hwrap Hstep cs. induction cs as [|c cs IH]; intros s a Hs; cbn [fold_left].
  - unfold sumZ. cbn. now rewrite Z.add_0_r.
  - rewrite (IH _ (a + inc c)) by now apply Hstep.
    f_equal. unfold sumZ. cbn. lia.
Qed.

Ltac observe_cases c :=
  unfold Observe; destruct c as [lv st dt uh dc ls sz cap rc lc]; cbn;
  destruct st; cbn; try destruct dt; cbn; try destruct uh; cbn;
  try destruct dc; cbn; try destruct ls; cbn.

Arguments wrapInt : simpl never.
Arguments wrapUint64 : simpl never.
Arguments observeLabels : simpl never.
Arguments observeGroups : simpl never.

Ltac counter_step c H :=
  observe_cases c; rewrite ?H, ?wrapInt_idemp, ?wrapUint64_idemp, ?Z.add_0_r;
  reflexivity.

Section Observed.

Context (opt : PersistOptions).

Definition incDown (c : CachedContainer) : bool := is_up c && downTimeReached c.

Definition incUnhealthy (c : CachedContainer) : bool :=
  is_up c && negb (downTimeReached c) && IsUnhealthy c.

Definition incDisconnect (c : CachedContainer) : bool :=
  is_up c && negb (downTimeReached c) && negb (IsUnhealthy c) && IsDisconnected c.

Definition incUp (c : CachedContainer) : bool :=
  is_up c && negb (downTimeReached c) && negb (IsUnhealthy c)
  && negb (IsDisconnected c).

Definition incLowSpace (c : CachedContainer) : bool := counted c && IsLowSpace c.

Definition ifCounted (c : CachedContainer) (z : Z) : Z := if counted c then z else 0.

Definition labelHits (key : string) (c : CachedContainer) : Z :=
  ifCounted c (countZ (fun k => String.eqb (labelKey c k) key) (GetLocationLabels opt)).

Definition one (b : bool) : Z := if b then 1 else 0.

Lemma countZ_sumZ {A : Type} (p : A -> bool) (l : list A) :
  countZ p l = sumZ (fun a => one (p a)) l.
Proof. reflexivity. Qed.

Lemma fold_int_counter (f : containerStatistics -> Z) (p : CachedContainer -> bool) :
  f newContainerStatistics = 0 ->
  (forall s c a, f s = wrapInt a -> f (Observe opt s c) = wrapInt (a + one (p c))) ->
  forall cs, f (observeAll opt cs) = wrapInt (countZ p cs).
Proof.
  intros H0 Hstep cs. unfold observeAll.
  rewrite (fold_counter opt wrapInt f (fun c => one (p c)) wrapInt_idemp Hstep cs _ 0).
  - reflexivity.
  - rewrite H0. symmetry. apply wrapInt_small. lia.
Qed.

Lemma Down_step s c a :
  Down s = wrapInt a -> Down (Observe opt s c) = wrapInt (a + one (incDown c)).
Proof. intros H. unfold incDown, is_up, one. counter_step c H. Qed.

Lemma Unhealthy_step s c a :
  Unhealthy s = wrapInt a ->
  Unhealthy (Observe opt s c) = wrapInt (a + one (incUnhealthy c)).
Proof. intros H. unfold incUnhealthy, is_up, one. counter_step c H. Qed.

Lemma Disconnect_step s c a :
  Disconnect s = wrapInt a ->
  Disconnect (Observe opt s c) = wrapInt (a + one (incDisconnect c)).
Proof. intros H. unfold incDisconnect, is_up, one. counter_step c H. Qed.

Lemma Up_step s c a :
  Up s = wrapInt a -> Up (Observe opt s c) = wrapInt (a + one (incUp c)).
Proof. intros H. unfold incUp, is_up, one. counter_step c H. Qed.

Lemma Offline_step s c a :
  Offline s = wrapInt a -> Offline (Observe opt s c) = wrapInt (a + one (is_offline c)).
Proof. intros H. unfold is_offline, one. counter_step c H. Qed.

Lemma Tombstone_step s c a :
  Tombstone s = wrapInt a ->
  Tombstone (Observe opt s c) = wrapInt (a + one (is_tombstone (GetState c))).
Proof. intros H. unfold one. counter_step c H. Qed.

Lemma LowSpace_step s c a :
  LowSpace s = wrapInt a ->
  LowSpace (Observe opt s c) = wrapInt (a + one (incLowSpace c)).
Proof. intros H. unfold incLowSpace, counted, one. counter_step c H. Qed.

Lemma StorageSize_step s c a :
  StorageSize s = wrapUint64 a ->
  StorageSize (Observe opt s c) = wrapUint64 (a + ifCounted c (StorageSize_ c)).
Proof. intros H. unfold ifCounted, counted. counter_step c H. Qed.

Lemma StorageCapacity_step s c a :
  StorageCapacity s = wrapUint64 a ->
  StorageCapacity (Observe opt s c) = wrapUint64 (a + ifCounted c (GetCapacity c)).
Proof. intros H. unfold ifCounted, counted. counter_step c H. Qed.

Lemma observeGroups_fst (c : CachedContainer) (counts : Z * Z) (a : Z) :
  counts.1 = wrapInt a ->
  (observeGroups opt c counts).1 = wrapInt (a + sumZ (GetResourceCount c) (Groups opt)).
Proof.
  unfold observeGroups. generalize (Groups opt) as groups. intros groups.
  revert counts a. induction groups as [|g groups IH]; intros counts a H; cbn [fold_left].
  - unfold sumZ. cbn. now rewrite Z.add_0_r.
  - rewrite (IH _ (a + GetResourceCount c g)).
    + unfold sumZ. cbn. f_equal. lia.
    + cbn [fst]. rewrite H. apply wrapInt_idemp.
Qed.

Lemma observeGroups_snd (c : CachedContainer) (counts : Z * Z) (a : Z) :
  counts.2 = wrapInt a ->
  (observeGroups opt c counts).2 = wrapInt (a + sumZ (GetLeaderCount c) (Groups opt)).
Proof.
  unfold observeGroups. generalize (Groups opt) as groups. intros groups.
  revert counts a. induction groups as [|g groups IH]; intros counts a H; cbn [fold_left].
  - unfold sumZ. cbn. now rewrite Z.add_0_r.
  - rewrite (IH _ (a + GetLeaderCount c g)).
    + unfold sumZ. cbn. f_equal. lia.
    + cbn [snd]. rewrite H. apply wrapInt_idemp.
Qed.

Lemma ResourceCount_step s c a :
  ResourceCount s = wrapInt a ->
  ResourceCount (Observe opt s c)
  = wrapInt (a + ifCounted c (sumZ (GetResourceCount c) (Groups opt))).
Proof.
  intros H. unfold ifCounted, counted, Observe.
  destruct (GetState c); try destruct (downTimeReached c);
    try destruct (IsUnhealthy c); try destruct (IsDisconnected c); cbn;
    try (apply observeGroups_fst; exact H).
  all: rewrite Z.add_0_r; exact H.
Qed.

Lemma LeaderCount_step s c a :
  LeaderCount s = wrapInt a ->
  LeaderCount (Observe opt s c)
  = wrapInt (a + ifCounted c (sumZ (GetLeaderCount c) (Groups opt))).
Proof.
  intros H. unfold ifCounted, counted, Observe.
  destruct (GetState c); try destruct (downTimeReached c);
    try destruct (IsUnhealthy c); try destruct (IsDisconnected c); cbn;
    try (apply observeGroups_snd; exact H).
  all: rewrite Z.add_0_r; exact H.
Qed.

(** The stored count of a label key after [n] increments. *)
Definition stored (n : Z) : option Z := if n =? 0 then None else Some (wrapInt n).

Lemma incLabel_same (m : gmap string Z) (key : string) (n : Z) :
  0 <= n -> m !! key = stored n -> incLabel m key !! key = stored (n + 1).
Proof.
  intros Hn Hm. unfold incLabel. rewrite lookup_insert_eq, Hm. unfold stored.
  destruct (Z.eqb_spec n 0) as [Hz|Hne]; destruct (Z.eqb_spec (n + 1) 0); try lia; cbn.
  - now subst n.
  - now rewrite wrapInt_idemp.
Qed.

Lemma observeLabels_key (c : CachedContainer) (key : string) (m : gmap string Z) (n : Z) :
  0 <= n -> m !! key = stored n ->
  observeLabels opt c m !! key = stored (n + labelHits key c)
  /\ 0 <= n + labelHits key c.
Proof.
  unfold observeLabels, labelHits, ifCounted, counted.
  generalize (GetLocationLabels opt) as ks. intros ks.
  revert m n. induction ks as [|k ks IH]; intros m n Hn Hm; cbn [fold_left].
  - unfold countZ, sumZ. cbn. destruct (negb _); rewrite Z.add_0_r; auto.
  - destruct (negb (is_tombstone (GetState c))) eqn:Hc.
    + unfold countZ, sumZ. cbn [fold_right].
      destruct (String.eqb_spec (labelKey c k) key) as [Heq|Hne].
      * destruct (IH (incLabel m (labelKey c k)) (n + 1)) as [H1 H2]; [lia| |].
        -- rewrite Heq. now apply incLabel_same.
        -- unfold countZ, sumZ in H1, H2. rewrite Z.add_assoc. auto.
      * destruct (IH (incLabel m (labelKey c k)) n) as [H1 H2]; [lia| |].
        -- unfold incLabel. now rewrite lookup_insert_ne.
        -- unfold countZ, sumZ in H1, H2. cbn. auto.
    + destruct (IH m n Hn Hm) as [H1 H2]. auto.
Qed.

Lemma LabelCounter_Observe (s : containerStatistics) (c : CachedContainer) :
  LabelCounter (Observe opt s c) = observeLabels opt c (LabelCounter s).
Proof.
  unfold Observe. destruct (GetState c); try destruct (downTimeReached c);
    try destruct (IsUnhealthy c); try destruct (IsDisconnected c); reflexivity.
Qed.

Lemma labels_fold (key : string) (cs : list CachedContainer) (s : containerStatistics)
  (n : Z) :
  0 <= n -> LabelCounter s !! key = stored n ->
  LabelCounter (fold_left (Observe opt) cs s) !! key
  = stored (n + sumZ (labelHits key) cs)
  /\ 0 <= n + sumZ (labelHits key) cs.
Proof.
  revert s n. induction cs as [|c cs IH]; intros s n Hn Hs; cbn [fold_left].
  - unfold sumZ. cbn. rewrite Z.add_0_r. auto.
  - destruct (observeLabels_key c key (LabelCounter s) n Hn Hs) as [H1 H2].
    destruct (IH (Observe opt s c) (n + labelHits key c) H2) as [H3 H4].
    + now rewrite LabelCounter_Observe.
    + unfold sumZ in *. cbn [fold_right]. rewrite Z.add_assoc. auto.
Qed.

End Observed.

Definition named (c : CachedContainer) : bool :=
  is_up c || is_offline c || is_tombstone (GetState c).

Lemma up_buckets_sum (cs : list CachedContainer) :
  countZ incUp cs + countZ incDisconnect cs + countZ incUnhealthy cs + countZ incDown cs
  = countZ is_up cs.
Proof.
  unfold countZ, sumZ. induction cs as [|c cs IH]; cbn [fold_right]; [reflexivity|].
  unfold incUp, incDisconnect, incUnhealthy, incDown in *.
  destruct (is_up c), (downTimeReached c), (IsUnhealthy c), (IsDisconnected c); cbn; lia.
Qed.

Lemma named_sum (cs : list CachedContainer) :
  countZ is_up cs + countZ is_offline cs
  + countZ (fun c => is_tombstone (GetState c)) cs
  = countZ named cs.
Proof.
  unfold countZ, sumZ. induction cs as [|c cs IH]; cbn [fold_right]; [reflexivity|].
  unfold named, is_up, is_offline in *. destruct (GetState c); cbn; lia.
Qed.

Lemma int_counter_exact (f : containerStatistics -> Z) (p : CachedContainer -> bool)
  (opt : PersistOptions) (cs : list CachedContainer) :
  Z.of_nat (length cs) < 2 ^ 63 ->
  f (observeAll opt cs) = wrapInt (countZ p cs) ->
  f (observeAll opt cs) = countZ p cs.
Proof.
  intros Hlen ->. apply wrapInt_small. pose proof (countZ_bounds p cs).
  change (2 ^ 63) with 9223372036854775808 in *. lia.
Qed.

(** Sample containers: one up, one up but down for too long and low on
    space, one offline, one tombstone carrying sizes and counts that must
    not be added. *)
Definition zone (z : string) (k : string) : string :=
  if String.eqb k "zone" then z else "".

Definition sample_up : CachedContainer :=
  mkContainer (zone "z1") ContainerState_UP false false false false 10 100
    (fun _ => 3) (fun _ => 1).

Definition sample_down : CachedContainer :=
  mkContainer (zone "z1") ContainerState_UP true true false true 20 100
    (fun _ => 2) (fun _ => 0).

Definition sample_offline : CachedContainer :=
  mkContainer (zone "") ContainerState_Offline false false false false 5 100
    (fun _ => 1) (fun _ => 0).

Definition sample_tombstone : CachedContainer :=
  mkContainer (zone "z1") ContainerState_Tombstone false false false true 7 100
    (fun _ => 9) (fun _ => 9).

Definition sample_options : PersistOptions := mkOptions ["zone"%string] [0; 1].

Definition sample_containers : list CachedContainer :=
  [sample_up; sample_tombstone; sample_down; sample_offline].

(** Every observed container is counted in exactly one state counter,
    chosen for an up container in the order down, unhealthy, disconnected,
    up: after observing fewer than 2^63 containers, each counter is the
    number of containers of its kind, the four counters of the up state add
    up to the number of up containers, and the six counters to the number
    of containers in a named state.  A tombstone is never counted as low on
    space. *)
Theorem Observe_state_counters (opt : PersistOptions) (cs : list CachedContainer) :
  Z.of_nat (length cs) < 2 ^ 63 ->
  let s := observeAll opt cs in
  Down s = countZ incDown cs
  /\ Unhealthy s = countZ incUnhealthy cs
  /\ Disconnect s = countZ incDisconnect cs
  /\ Up s = countZ incUp cs
  /\ Offline s = countZ is_offline cs
  /\ Tombstone s = countZ (fun c => is_tombstone (GetState c)) cs
  /\ LowSpace s = countZ incLowSpace cs
  /\ Up s + Disconnect s + Unhealthy s + Down s = countZ is_up cs
  /\ Up s + Disconnect s + Unhealthy s + Down s + Offline s + Tombstone s
     = countZ named cs.
Proof.
  intros Hlen s.
  assert (HDown : Down s = countZ incDown cs).
  { apply int_counter_exact; [exact Hlen|].
    apply (fold_int_counter opt Down incDown eq_refl (Down_step opt)). }
  assert (HUnh : Unhealthy s = countZ incUnhealthy cs).
  { apply int_counter_exact; [exact Hlen|].
    apply (fold_int_counter opt Unhealthy incUnhealthy eq_refl (Unhealthy_step opt)). }
  assert (HDis : Disconnect s = countZ incDisconnect cs).
  { apply int_counter_exact; [exact Hlen|].
    apply (fold_int_counter opt Disconnect incDisconnect eq_refl (Disconnect_step opt)). }
  assert (HUp : Up s = countZ incUp cs).
  { apply int_counter_exact; [exact Hlen|].
    apply (fold_int_counter opt Up incUp eq_refl (Up_step opt)). }
  assert (HOff : Offline s = countZ is_offline cs).
  { apply int_counter_exact; [exact Hlen|].
    apply (fold_int_counter opt Offline is_offline eq_refl (Offline_step opt)). }
  assert (HTomb : Tombstone s = countZ (fun c => is_tombstone (GetState c)) cs).
  { apply int_counter_exact; [exact Hlen|].
    apply (fold_int_counter opt Tombstone (fun c => is_tombstone (GetState c)) eq_refl
             (Tombstone_step opt)). }
  assert (HLow : LowSpace s = countZ incLowSpace cs).
  { apply int_counter_exact; [exact Hlen|].
    apply (fold_int_counter opt LowSpace incLowSpace eq_refl (LowSpace_step opt)). }
  pose proof (up_buckets_sum cs) as Hsum. pose proof (named_sum cs) as Hnamed.
  repeat (split; [assumption|]). split; lia.
Qed.

Lemma Observe_state_counters_witness :
  let s := observeAll sample_options sample_containers in
  Down s = countZ incDown sample_containers
  /\ Unhealthy s = countZ incUnhealthy sample_containers
  /\ Disconnect s = countZ incDisconnect sample_containers
  /\ Up s = countZ incUp sample_containers
  /\ Offline s = countZ is_offline sample_containers
  /\ Tombstone s = countZ (fun c => is_tombstone (GetState c)) sample_containers
  /\ LowSpace s = countZ incLowSpace sample_containers
  /\ Up s + Disconnect s + Unhealthy s + Down s = countZ is_up sample_containers
  /\ Up s + Disconnect s + Unhealthy s + Down s + Offline s + Tombstone s
     = countZ named sample_containers.
Proof.
  apply (Observe_state_counters sample_options sample_containers). reflexivity.
Defined.

(** The sample: one container each up, down, offline and tombstone; the
    container that is both down and unhealthy counts as down only, and the
    only low-space count comes from it, not from the tombstone. *)
Example Observe_sample_counters :
  let s := observeAll sample_options sample_containers in
  (Up s, Disconnect s, Unhealthy s, Down s, Offline s, Tombstone s, LowSpace s)
  = (1, 0, 0, 1, 1, 1, 1).
Proof. vm_compute. reflexivity. Qed.

(** Tombstones add nothing to the totals and the label counts: the storage
    size and capacity are the sums over the containers that are not
    tombstones, as [uint64]; the resource and leader counts the sums over
    these containers and the groups, as [int]; and the count stored for a
    label key is the number of pairs of such a container and a location
    label that give this key (an empty label value reading as [unknown]),
    the key being absent from the map when there is none. *)
Theorem Observe_totals_skip_tombstones (opt : PersistOptions)
  (cs : list CachedContainer) :
  let s := observeAll opt cs in
  StorageSize s = wrapUint64 (sumZ (fun c => ifCounted c (StorageSize_ c)) cs)
  /\ StorageCapacity s = wrapUint64 (sumZ (fun c => ifCounted c (GetCapacity c)) cs)
  /\ ResourceCount s
     = wrapInt (sumZ (fun c => ifCounted c (sumZ (GetResourceCount c) (Groups opt))) cs)
  /\ LeaderCount s
     = wrapInt (sumZ (fun c => ifCounted c (sumZ (GetLeaderCount c) (Groups opt))) cs)
  /\ forall key, LabelCounter s !! key = stored (sumZ (labelHits opt key) cs).
Proof.
  intros s. unfold s, observeAll.
  split; [|split; [|split; [|split]]].
  - apply (fold_counter opt wrapUint64 StorageSize _ wrapUint64_idemp
             (StorageSize_step opt) cs newContainerStatistics 0). reflexivity.
  - apply (fold_counter opt wrapUint64 StorageCapacity _ wrapUint64_idemp
             (StorageCapacity_step opt) cs newContainerStatistics 0). reflexivity.
  - apply (fold_counter opt wrapInt ResourceCount _ wrapInt_idemp
             (ResourceCount_step opt) cs newContainerStatistics 0). reflexivity.
  - apply (fold_counter opt wrapInt LeaderCount _ wrapInt_idemp
             (LeaderCount_step opt) cs newContainerStatistics 0). reflexivity.
  - intros key.
    destruct (labels_fold opt key cs newContainerStatistics 0) as [H _]; [lia| |exact H].
    cbn. apply lookup_empty.
Qed.

Example Observe_sample_totals :
  let s := observeAll sample_options sample_containers in
  (StorageSize s, StorageCapacity s, ResourceCount s, LeaderCount s) = (35, 300, 12, 2)
  /\ LabelCounter s !! "zone:z1"%string = Some 2
  /\ LabelCounter s !! "zone:unknown"%string = Some 1.
Proof. vm_compute. repeat split. Qed.

End Statistics.
